(** * The workflow editor of pdftool: graph model, connection validation,
      layout and persistence

    Shallow embedding of [frontend/app/tools/workflow/page.tsx].  The React
    component keeps the graph in [useState] cells ([nodes], [edges],
    [selectedNode], [connectionError], ...); every event handler is modelled
    as a function on an explicit [State] record, run one handler at a time
    against the state it observes.

    Conventions of the embedding
    - a JavaScript object used as a dictionary is a [gmap string _] of its
      own entries; the rule table is read through [connectionRules_at],
      which also answers for the names that the object inherits from
      [Object.prototype], as the lookup in the source does; the colour
      table is read, in what is proved here, only at categories that are
      its own entries;
    - an optional or nullable field is an [option]; [a || b] on strings is
      [js_or], which falls through on [undefined] and on the empty string;
    - canvas coordinates are JavaScript numbers; the layout code only adds
      and multiplies integer constants (and halves an even product), which
      doubles do exactly, so coordinates are integers [Z] here;
    - every node the editor builds has the renderer type [workflowNode];
      [Node.type] is that string field;
    - [icon] carries no behaviour and is left out, and so are the panel
      toggles; the cells that only the handlers around the graph touch
      (upload list, busy flags, list of saved workflows) live in [Session],
      which wraps [State];
    - the two align handlers average coordinates with a floating-point
      division and are not modelled; neither are the changes that the
      canvas library applies on its own (dragging, its own deletions). *)

From stdpp Require Import gmap strings list fin_maps pretty.
From Equations Require Import Equations.

Local Open Scope string_scope.
Local Open Scope Z_scope.
Local Open Scope list_scope.

(** ** JavaScript helpers *)

(** [a || b] where [a] may be undefined: the empty string is falsy. *)
Definition js_or (a : option string) (b : option string) : option string :=
  match a with
  | Some s => if decide (s = "") then b else Some s
  | None => b
  end.

(** [a || 'literal'], whose result is always a string. *)
Definition js_or_str (a : option string) (b : string) : string :=
  match a with
  | Some s => if decide (s = "") then b else s
  | None => b
  end.

(** [new Set(array)] followed by [Array.from]: insertion order, the first
    occurrence of each element kept. *)
Definition set_of_array (l : list string) : list string :=
  fold_left (λ (acc : list string) x,
               if decide (x ∈ acc) then acc else acc ++ [x]) l [].

(** ** Data model *)

Module Pos.
Record t := mk { x : Z; y : Z }.
End Pos.

(** A parameter value: [Record<string, unknown>] holds what the parameter
    forms produce, the [string | number | boolean] of [ParamDefinition]. *)
Inductive ParamValue :=
| PString (s : string)
| PNumber (z : Z)
| PBoolean (b : bool).

Module NodeData.
Record t := mk {
  label : string;
  description : option string;
  category : option string;
  params : option (gmap string ParamValue);
  nodeType : option string
}.
End NodeData.

Module Node.
Record t := mk {
  id : string;
  type : string;
  position : Pos.t;
  data : NodeData.t
}.

Definition with_position (p : Pos.t) (n : t) : t :=
  mk (id n) (type n) p (data n).
End Node.

Module EdgeStyle.
Record t := mk { stroke : string; strokeWidth : Z }.
End EdgeStyle.

Module Edge.
Record t := mk {
  id : string;
  source : string;
  target : string;
  sourceHandle : option string;
  targetHandle : option string;
  animated : bool;
  style : option EdgeStyle.t
}.
End Edge.

(** The [Connection] that React Flow hands to [onConnect]. *)
Module Connection.
Record t := mk {
  source : option string;
  target : option string;
  sourceHandle : option string;
  targetHandle : option string
}.
End Connection.

Module ConnectionRule.
Record t := mk {
  canHaveInput : bool;
  canHaveOutput : bool;
  maxInputs : Z;
  maxOutputs : Z;
  acceptsFrom : option (list string);
  outputsTo : option (list string)
}.

Definition rule (i o : bool) (mi mo : Z) : t := mk i o mi mo None None.
End ConnectionRule.

(** ** The connection rule table *)

Definition connectionRules_entries : list (string * ConnectionRule.t) :=
  [ ("input_file", ConnectionRule.rule false true 0 (-1));
    ("input_folder", ConnectionRule.rule false true 0 (-1));
    ("pdf_merge", ConnectionRule.rule true true (-1) (-1));
    ("pdf_split", ConnectionRule.rule true true 1 (-1));
    ("pdf_compress", ConnectionRule.rule true true 1 (-1));
    ("pdf_watermark", ConnectionRule.rule true true 1 (-1));
    ("pdf_encrypt", ConnectionRule.rule true true 1 (-1));
    ("ai_compare", ConnectionRule.rule true true 2 (-1));
    ("ai_pii_detect", ConnectionRule.rule true true 1 (-1));
    ("ai_extract_table", ConnectionRule.rule true true 1 (-1));
    ("ai_smart_rename", ConnectionRule.rule true true 1 (-1));
    ("ai_summarize", ConnectionRule.rule true true 1 (-1));
    ("ai_translate", ConnectionRule.rule true true 1 (-1));
    ("convert_to_image", ConnectionRule.rule true true 1 (-1));
    ("output_save", ConnectionRule.rule true false (-1) 0) ].

Definition connectionRules : gmap string ConnectionRule.t :=
  list_to_map connectionRules_entries.

(** The table is an object literal, so [connectionRules[type]] also answers
    for the property names that every object inherits from
    [Object.prototype]. *)
Definition Object_prototype_names : list string :=
  [ "constructor"; "hasOwnProperty"; "isPrototypeOf"; "propertyIsEnumerable";
    "toLocaleString"; "toString"; "valueOf"; "__proto__";
    "__defineGetter__"; "__defineSetter__";
    "__lookupGetter__"; "__lookupSetter__" ].

(** What [connectionRules[type]] evaluates to: an entry of the table; a
    member of [Object.prototype] (a function, or the prototype object for
    [__proto__]), which is truthy and has none of the fields of a rule; or
    [undefined]. *)
Inductive RuleValue :=
| OwnRule (r : ConnectionRule.t)
| InheritedMember
| NoRule.

Definition connectionRules_at (type : string) : RuleValue :=
  match connectionRules !! type with
  | Some r => OwnRule r
  | None =>
    if bool_decide (type ∈ Object_prototype_names) then InheritedMember
    else NoRule
  end.

(** ** The node type registry (type, category, label) *)

Module NodeTypeDef.
Record t := mk { type : string; category : string; label : string }.
End NodeTypeDef.

Definition nodeTypeDefinitions : list NodeTypeDef.t :=
  [ NodeTypeDef.mk "input_file" "input" "檔案輸入";
    NodeTypeDef.mk "input_folder" "input" "資料夾輸入";
    NodeTypeDef.mk "pdf_merge" "pdf" "合併 PDF";
    NodeTypeDef.mk "pdf_split" "pdf" "分割 PDF";
    NodeTypeDef.mk "pdf_compress" "pdf" "壓縮 PDF";
    NodeTypeDef.mk "pdf_watermark" "pdf" "加浮水印";
    NodeTypeDef.mk "pdf_encrypt" "pdf" "加密 PDF";
    NodeTypeDef.mk "ai_compare" "ai" "AI 合約比對";
    NodeTypeDef.mk "ai_pii_detect" "ai" "AI 個資偵測";
    NodeTypeDef.mk "ai_extract_table" "ai" "AI 表格提取";
    NodeTypeDef.mk "ai_smart_rename" "ai" "AI 智能重命名";
    NodeTypeDef.mk "ai_summarize" "ai" "AI 摘要";
    NodeTypeDef.mk "ai_translate" "ai" "AI 翻譯";
    NodeTypeDef.mk "convert_to_image" "convert" "轉為圖片";
    NodeTypeDef.mk "output_save" "output" "儲存檔案" ].

(** ** Connection validation *)

Module Validation.
Record t := mk { valid : bool; error : option string }.

Definition ok : t := mk true None.
Definition rejected (msg : string) : t := mk false (Some msg).
End Validation.

(** [nodes.find(n => n.id === id)] *)
Definition find_node (nid : string) (nodes : list Node.t) : option Node.t :=
  List.find (λ n, bool_decide (Node.id n = nid)) nodes.

(** [(n.data as NodeData).nodeType || ''] *)
Definition nodeType_of (n : Node.t) : string :=
  js_or_str (NodeData.nodeType (Node.data n)) "".

Definition label_of (n : Node.t) : string := NodeData.label (Node.data n).

(** [edges.filter(e => e.target === target).length] *)
Definition currentInputCount (edges : list Edge.t) (target : string) : nat :=
  length (filter (λ e, Edge.target e = target) edges).

(** [edges.find(e => e.source === source && e.target === target)] *)
Definition existingEdge (edges : list Edge.t) (source target : string)
  : option Edge.t :=
  List.find
    (λ e, bool_decide (Edge.source e = source) && bool_decide (Edge.target e = target))
    edges.

(** The literal messages of [validateConnection]. *)
Definition msg_not_found : string := "找不到節點".
Definition msg_no_output (lbl : string) : string :=
  "「" +:+ lbl +:+ "」不能作為輸出來源".
Definition msg_no_input (lbl : string) : string :=
  "「" +:+ lbl +:+ "」不能接收輸入".
Definition msg_compare_full (count : nat) : string :=
  "「AI 合約比對」已連接 " +:+ pretty count +:+ " 個輸入（最多 2 個）".
Definition msg_max_inputs (lbl : string) (maxInputs : Z) : string :=
  "「" +:+ lbl +:+ "」已達最大輸入數量（" +:+ pretty maxInputs +:+ "）".
Definition msg_self : string := "不能連接到自己".
Definition msg_duplicate : string := "已經存在相同的連接".

(** The message of the input-count check, as the source picks it. *)
Definition msg_capacity (targetType lbl : string) (count : nat) (maxInputs : Z)
  : string :=
  if decide (targetType = "ai_compare") then msg_compare_full count
  else msg_max_inputs lbl maxInputs.

Definition validateConnection (nodes : list Node.t) (edges : list Edge.t)
    (source target : string) : Validation.t :=
  match find_node source nodes, find_node target nodes with
  | Some sourceNode, Some targetNode =>
    let sourceType := nodeType_of sourceNode in
    let targetType := nodeType_of targetNode in
    let sourceRule := connectionRules_at sourceType in
    let targetRule := connectionRules_at targetType in
    if match sourceRule with
       | OwnRule r => negb (ConnectionRule.canHaveOutput r)
       | InheritedMember => true
       | NoRule => false
       end
    then Validation.rejected (msg_no_output (label_of sourceNode))
    else if match targetRule with
            | OwnRule r => negb (ConnectionRule.canHaveInput r)
            | InheritedMember => true
            | NoRule => false
            end
    then Validation.rejected (msg_no_input (label_of targetNode))
    else
      match
        match targetRule with
        | OwnRule r =>
          if bool_decide (0 < ConnectionRule.maxInputs r) then
            let count := currentInputCount edges target in
            if bool_decide (ConnectionRule.maxInputs r ≤ Z.of_nat count)
            then Some (msg_capacity targetType (label_of targetNode) count
                         (ConnectionRule.maxInputs r))
            else None
          else None
        | InheritedMember => None
        | NoRule => None
        end
      with
      | Some msg => Validation.rejected msg
      | None =>
        if decide (source = target)
        then Validation.rejected msg_self
        else match existingEdge edges source target with
             | Some _ => Validation.rejected msg_duplicate
             | None => Validation.ok
             end
      end
  | _, _ => Validation.rejected msg_not_found
  end.

(** ** The editor state *)

Module ExecutionResult.
Record t := mk {
  success : bool;
  output_files : list string;
  error : option string
}.
End ExecutionResult.

Module State.
Record t := mk {
  nodes : list Node.t;
  edges : list Edge.t;
  selectedNode : option Node.t;
  connectionError : option string;
  (** delays of the pending [setTimeout] callbacks, each of which clears
      [connectionError] *)
  timeouts : list Z;
  workflowName : string;
  workflowId : option string;
  showLoadModal : bool;
  executionResult : option ExecutionResult.t;
  (** messages shown through [alert], oldest first *)
  alerts : list string
}.

Definition setNodes (f : list Node.t → list Node.t) (s : t) : t :=
  mk (f (nodes s)) (edges s) (selectedNode s) (connectionError s) (timeouts s)
     (workflowName s) (workflowId s) (showLoadModal s) (executionResult s)
     (alerts s).
Definition setEdges (f : list Edge.t → list Edge.t) (s : t) : t :=
  mk (nodes s) (f (edges s)) (selectedNode s) (connectionError s) (timeouts s)
     (workflowName s) (workflowId s) (showLoadModal s) (executionResult s)
     (alerts s).
Definition setSelectedNode (v : option Node.t) (s : t) : t :=
  mk (nodes s) (edges s) v (connectionError s) (timeouts s)
     (workflowName s) (workflowId s) (showLoadModal s) (executionResult s)
     (alerts s).
Definition setConnectionError (v : option string) (s : t) : t :=
  mk (nodes s) (edges s) (selectedNode s) v (timeouts s)
     (workflowName s) (workflowId s) (showLoadModal s) (executionResult s)
     (alerts s).
Definition setTimeout (delay : Z) (s : t) : t :=
  mk (nodes s) (edges s) (selectedNode s) (connectionError s)
     (timeouts s ++ [delay])
     (workflowName s) (workflowId s) (showLoadModal s) (executionResult s)
     (alerts s).
Definition setWorkflowName (v : string) (s : t) : t :=
  mk (nodes s) (edges s) (selectedNode s) (connectionError s) (timeouts s)
     v (workflowId s) (showLoadModal s) (executionResult s) (alerts s).
Definition setWorkflowId (v : option string) (s : t) : t :=
  mk (nodes s) (edges s) (selectedNode s) (connectionError s) (timeouts s)
     (workflowName s) v (showLoadModal s) (executionResult s) (alerts s).
Definition setShowLoadModal (v : bool) (s : t) : t :=
  mk (nodes s) (edges s) (selectedNode s) (connectionError s) (timeouts s)
     (workflowName s) (workflowId s) v (executionResult s) (alerts s).
Definition setExecutionResult (v : option ExecutionResult.t) (s : t) : t :=
  mk (nodes s) (edges s) (selectedNode s) (connectionError s) (timeouts s)
     (workflowName s) (workflowId s) (showLoadModal s) v (alerts s).
Definition alert (msg : string) (s : t) : t :=
  mk (nodes s) (edges s) (selectedNode s) (connectionError s) (timeouts s)
     (workflowName s) (workflowId s) (showLoadModal s) (executionResult s)
     (alerts s ++ [msg]).

(** The state of a freshly mounted editor. *)
Definition initial : t :=
  mk [] [] None None [] "新工作流" None false None [].
End State.

(** ** Connecting two nodes *)

(** [!h]: a handle that is null, undefined or empty *)
Definition handle_falsy (h : option string) : bool :=
  match h with
  | Some s => bool_decide (s = "")
  | None => true
  end.

Definition getEdgeId (source : string) (sourceHandle : option string)
    (target : string) (targetHandle : option string) : string :=
  "xy-edge__" +:+ source +:+ js_or_str sourceHandle "" +:+ "-"
  +:+ target +:+ js_or_str targetHandle "".

Definition connectionExists (edge : Edge.t) (edges : list Edge.t) : bool :=
  existsb
    (λ el,
       bool_decide (Edge.source el = Edge.source edge)
       && bool_decide (Edge.target el = Edge.target edge)
       && (bool_decide (Edge.sourceHandle el = Edge.sourceHandle edge)
           || handle_falsy (Edge.sourceHandle el)
              && handle_falsy (Edge.sourceHandle edge))
       && (bool_decide (Edge.targetHandle el = Edge.targetHandle edge)
           || handle_falsy (Edge.targetHandle el)
              && handle_falsy (Edge.targetHandle edge)))
    edges.

(** Modelled from the spec: [addEdge] is imported from the React Flow
    library and its code is not among the sources.  The spec says that an
    accepted connection is appended to the edge list; the library function
    does so after generating the edge's id from its endpoints and handles,
    and returns the list as it is when an edge with the same endpoints and
    handles is already there.  Its argument is the object that [onConnect]
    builds: the connection with [animated] and [style] added. *)
Definition addEdge (source target : string)
    (sourceHandle targetHandle : option string)
    (animated : bool) (style : option EdgeStyle.t)
    (edges : list Edge.t) : list Edge.t :=
  if bool_decide (source = "") || bool_decide (target = "") then edges
  else
    let edge :=
      Edge.mk (getEdgeId source sourceHandle target targetHandle)
              source target sourceHandle targetHandle animated style in
    if connectionExists edge edges then edges
    else edges ++ [edge].

Definition edgeStyle : EdgeStyle.t := EdgeStyle.mk "#6366f1" 2.

Definition onConnect (params : Connection.t) (s : State.t) : State.t :=
  match js_or (Connection.source params) None,
        js_or (Connection.target params) None with
  | Some source, Some target =>
    let validation := validateConnection (State.nodes s) (State.edges s) source target in
    if negb (Validation.valid validation) then
      State.setTimeout 3000
        (State.setConnectionError
           (Some (js_or_str (Validation.error validation) "無法建立連接")) s)
    else
      State.setEdges
        (λ eds, addEdge source target
                  (Connection.sourceHandle params)
                  (Connection.targetHandle params)
                  true (Some edgeStyle) eds)
        s
  | _, _ => s
  end.

(** The callback that a pending timeout runs. *)
Definition onTimeout (s : State.t) : State.t :=
  State.mk (State.nodes s) (State.edges s) (State.selectedNode s) None
    (tail (State.timeouts s))
    (State.workflowName s) (State.workflowId s) (State.showLoadModal s)
    (State.executionResult s) (State.alerts s).

(** ** Deleting the selected node *)

Definition deleteSelectedNode (s : State.t) : State.t :=
  match State.selectedNode s with
  | Some selectedNode =>
    State.setSelectedNode None
      (State.setEdges
         (λ eds, filter (λ e, Edge.source e ≠ Node.id selectedNode
                              ∧ Edge.target e ≠ Node.id selectedNode) eds)
         (State.setNodes
            (λ nds, filter (λ n, Node.id n ≠ Node.id selectedNode) nds)
            s))
  | None => s
  end.

(** ** Auto-arrange *)

Definition HORIZONTAL_GAP : Z := 250.
Definition VERTICAL_GAP : Z := 120.
Definition START_X : Z := 100.
Definition START_Y : Z := 100.

(** [array.forEach((x, i) => ...)] threading the state that the callback
    mutates; [i] is the index of the head of [l]. *)
Fixpoint forEach_i {A St : Type} (f : St → nat → A → St) (i : nat)
    (l : list A) (s : St) : St :=
  match l with
  | [] => s
  | x :: l' => forEach_i f (S i) l' (f s i x)
  end.

(** The filter that selects the roots: an input type, or no incoming edge. *)
Definition is_input_node (edges : list Edge.t) (n : Node.t) : bool :=
  let nodeType := nodeType_of n in
  orb (String.prefix "input_" nodeType)
      (negb (existsb (λ e, bool_decide (Edge.target e = Node.id n)) edges)).

Definition inputNodeIds (nodes : list Node.t) (edges : list Edge.t)
  : list string :=
  set_of_array (map Node.id (List.filter (is_input_node edges) nodes)).

(** One pass of the inner [forEach]: the unvisited targets of the edges
    leaving [currentLevel], each pushed once. *)
Definition push_target (visited : gset string) (nextLevel : list string)
    (e : Edge.t) : list string :=
  if decide ((Edge.target e ∉ visited) ∧ (Edge.target e ∉ nextLevel))
  then nextLevel ++ [Edge.target e]
  else nextLevel.

Definition nextLevel_of (edges : list Edge.t) (visited : gset string)
    (currentLevel : list string) : list string :=
  fold_left
    (λ nextLevel nodeId,
       fold_left (push_target visited)
         (filter (λ e, Edge.source e = nodeId) edges) nextLevel)
    currentLevel [].

Definition edge_targets (edges : list Edge.t) : gset string :=
  list_to_set (map Edge.target edges).

(** What the termination of the traversal rests on: a next level holds
    unvisited edge targets only. *)
Lemma push_target_fresh edges visited (es : list Edge.t) (acc : list string) :
  es ⊆ edges →
  (∀ t, t ∈ acc → t ∈ edge_targets edges ∧ t ∉ visited) →
  ∀ t, t ∈ fold_left (push_target visited) es acc →
       t ∈ edge_targets edges ∧ t ∉ visited.
Proof.
  revert acc. induction es as [|e es IH]; intros acc Hsub Hacc t; simpl.
  - apply Hacc.
  - apply IH; [intros x Hx; apply Hsub; by right|]. intros u. unfold push_target.
    case_decide as Hd; [|apply Hacc].
    rewrite elem_of_app, list_elem_of_singleton. intros [Hu | ->]; [by apply Hacc|].
    split; [|tauto]. unfold edge_targets.
    rewrite elem_of_list_to_set, list_elem_of_fmap. exists e.
    split; [done|apply Hsub; left].
Qed.

Lemma nextLevel_of_fresh edges visited currentLevel t :
  t ∈ nextLevel_of edges visited currentLevel →
  t ∈ edge_targets edges ∧ t ∉ visited.
Proof.
  unfold nextLevel_of.
  assert (∀ acc : list string,
    (∀ u, u ∈ acc → u ∈ edge_targets edges ∧ u ∉ visited) →
    t ∈ fold_left
          (λ nextLevel nodeId,
             fold_left (push_target visited)
               (filter (λ e, Edge.source e = nodeId) edges) nextLevel)
          currentLevel acc →
    t ∈ edge_targets edges ∧ t ∉ visited) as H.
  { induction currentLevel as [|c cs IH]; intros acc Hacc; simpl.
    - apply Hacc.
    - apply IH. intros u. apply push_target_fresh; [|done].
      intros e. rewrite list_elem_of_filter. tauto. }
  apply H. intros u Hu. by apply elem_of_nil in Hu.
Qed.

(** The [while (currentLevel.length > 0)] loop.  Every pass marks the
    current level visited, so the unvisited edge targets shrink: the loop
    ends. *)
Equations? bfs (edges : list Edge.t) (visited : gset string)
    (levels : list (list string)) (currentLevel : list string)
  : gset string * list (list string)
  by wf (size (edge_targets edges ∖ (visited ∪ list_to_set currentLevel))
         + (if currentLevel is [] then 0 else 1))%nat lt :=
  bfs edges visited levels [] := (visited, levels);
  bfs edges visited levels (c :: cs) :=
    bfs edges
      (visited ∪ list_to_set (c :: cs))
      (levels ++ [c :: cs])
      (nextLevel_of edges (visited ∪ list_to_set (c :: cs)) (c :: cs)).
Proof.
  clear bfs.
  match goal with
  | |- (_ < size (_ ∖ ?v) + 1)%nat => generalize v; intros visited'
  end.
  pose proof (nextLevel_of_fresh edges visited' (c :: cs)) as Hfresh.
  destruct (nextLevel_of edges visited' (c :: cs)) as [|t ts].
  - simpl. rewrite (right_id_L ∅ (∪)). lia.
  - destruct (Hfresh t) as [Ht Hv]; [left|].
    assert (edge_targets edges ∖ (visited' ∪ list_to_set (t :: ts))
            ⊂ edge_targets edges ∖ visited') as Hlt.
    { apply strict_spec_alt. split.
      - intros u. rewrite !elem_of_difference, elem_of_union. tauto.
      - intros Heq.
        assert (t ∈ edge_targets edges ∖ visited') as Hin
          by (apply elem_of_difference; done).
        rewrite <- Heq in Hin.
        apply elem_of_difference in Hin as [_ Hin]. apply Hin.
        apply elem_of_union_r, elem_of_list_to_set. left. }
    apply subset_size in Hlt. lia.
Qed.

(** The [nodes.forEach] that appends every node the traversal did not
    reach as a level of its own. *)
Definition add_unconnected (nodes : list Node.t)
    (acc : gset string * list (list string))
  : gset string * list (list string) :=
  fold_left
    (λ (acc : gset string * list (list string)) n,
       let '(visited, levels) := acc in
       if decide (Node.id n ∈ visited) then (visited, levels)
       else (visited ∪ {[Node.id n]}, levels ++ [[Node.id n]]))
    nodes acc.

(** The [levels] array once both loops have run. *)
Definition levels_of (nodes : list Node.t) (edges : list Edge.t)
  : list (list string) :=
  snd (add_unconnected nodes (bfs edges ∅ [] (inputNodeIds nodes edges))).

(** The position that the layout gives to entry [nodeIndex] of level
    [levelIndex], a level of [len] nodes. *)
Definition level_position (levelIndex len nodeIndex : nat) : Pos.t :=
  let levelY := START_Y + (Z.of_nat len - 1) * VERTICAL_GAP / 2 in
  Pos.mk
    (START_X + Z.of_nat levelIndex * HORIZONTAL_GAP)
    (levelY - (Z.of_nat len - 1) * VERTICAL_GAP / 2
     + Z.of_nat nodeIndex * VERTICAL_GAP).

(** [newPositions], filled level by level. *)
Definition newPositions_of (levels : list (list string)) : gmap string Pos.t :=
  forEach_i
    (λ newPositions levelIndex level,
       forEach_i
         (λ newPositions nodeIndex nodeId,
            <[nodeId := level_position levelIndex (length level) nodeIndex]>
              newPositions)
         0%nat level newPositions)
    0%nat levels ∅.

Definition autoArrangeNodes (s : State.t) : State.t :=
  if bool_decide (State.nodes s = []) then s
  else
    let levels := levels_of (State.nodes s) (State.edges s) in
    let newPositions := newPositions_of levels in
    State.setNodes
      (λ nds,
         map (λ n, Node.with_position
                     (default (Node.position n) (newPositions !! Node.id n)) n)
             nds)
      s.

(** ** Persistence *)

Module SavedConfig.
Record t := mk {
  label : option string;
  description : option string;
  params : option (gmap string ParamValue)
}.
End SavedConfig.

Module SavedNode.
Record t := mk {
  id : string;
  type : string;
  position : Pos.t;
  config : option SavedConfig.t
}.
End SavedNode.

Module SavedConnection.
Record t := mk {
  id : string;
  source_node : string;
  target_node : string;
  source_handle : option string;
  target_handle : option string
}.
End SavedConnection.

(** The workflow object, as posted by [saveWorkflow] and as returned by the
    service to [loadWorkflow]. *)
Module Workflow.
Record t := mk {
  id : option string;
  name : option string;
  description : string;
  nodes : option (list SavedNode.t);
  connections : option (list SavedConnection.t)
}.
End Workflow.

(** The [workflow] object that [saveWorkflow] builds and posts. *)
Definition saveWorkflow_payload (s : State.t) : Workflow.t :=
  Workflow.mk
    (js_or (State.workflowId s) None)
    (Some (State.workflowName s))
    ""
    (Some (map
       (λ n, SavedNode.mk
               (Node.id n)
               (js_or_str (NodeData.nodeType (Node.data n)) (Node.type n))
               (Node.position n)
               (Some (SavedConfig.mk
                        (Some (NodeData.label (Node.data n)))
                        (Some (js_or_str (NodeData.description (Node.data n)) ""))
                        (Some (default ∅ (NodeData.params (Node.data n)))))))
       (State.nodes s)))
    (Some (map
       (λ e, SavedConnection.mk
               (Edge.id e)
               (Edge.source e)
               (Edge.target e)
               (Some (js_or_str (Edge.sourceHandle e) "output"))
               (Some (js_or_str (Edge.targetHandle e) "input")))
       (State.edges s))).

(** What the service answers to the create request. *)
Inductive SaveResponse :=
| SaveSuccess (workflow_id : string)
| SaveFailure (detail : option string)
| SaveThrows (message : string).

Definition saveWorkflow (response : SaveResponse) (s : State.t) : State.t :=
  match response with
  | SaveSuccess workflow_id =>
    State.alert "工作流已儲存！" (State.setWorkflowId (Some workflow_id) s)
  | SaveFailure detail =>
    State.alert ("儲存失敗：" +:+ js_or_str detail "未知錯誤") s
  | SaveThrows message => State.alert ("儲存失敗：" +:+ message) s
  end.

(** What the fetch request yields: the parsed answer, an object that
    carries [detail] when the service reports an error and the workflow
    fields otherwise; or an exception. *)
Inductive FetchResponse :=
| Fetched (detail : option string) (workflow : Workflow.t)
| FetchThrows (message : string).

(** [nodeTypeDefinitions.find(def => def.type === type)] *)
Definition find_nodeDef (type : string) : option NodeTypeDef.t :=
  List.find (λ def, bool_decide (NodeTypeDef.type def = type)) nodeTypeDefinitions.

Definition loadedNodes (workflow : Workflow.t) : list Node.t :=
  map
    (λ n,
       let nodeDef := find_nodeDef (SavedNode.type n) in
       Node.mk
         (SavedNode.id n)
         "workflowNode"
         (SavedNode.position n)
         (NodeData.mk
            (js_or_str
               (js_or (SavedNode.config n ≫= SavedConfig.label)
                      (NodeTypeDef.label <$> nodeDef))
               (SavedNode.type n))
            (Some (js_or_str (SavedNode.config n ≫= SavedConfig.description) ""))
            (Some (js_or_str (NodeTypeDef.category <$> nodeDef) "pdf"))
            (Some (default ∅ (SavedNode.config n ≫= SavedConfig.params)))
            (Some (SavedNode.type n))))
    (default [] (Workflow.nodes workflow)).

Definition loadedEdges (workflow : Workflow.t) : list Edge.t :=
  map
    (λ c, Edge.mk (SavedConnection.id c)
                  (SavedConnection.source_node c)
                  (SavedConnection.target_node c)
                  None None true (Some edgeStyle))
    (default [] (Workflow.connections workflow)).

Definition loadWorkflow (id : string) (response : FetchResponse) (s : State.t)
  : State.t :=
  match response with
  | Fetched detail workflow =>
    match js_or detail None with
    | Some detail => State.alert ("載入工作流失敗：" +:+ detail) s
    | None =>
      State.setExecutionResult None
        (State.setSelectedNode None
           (State.setShowLoadModal false
              (State.setWorkflowId (Some id)
                 (State.setWorkflowName
                    (js_or_str (Workflow.name workflow) "載入的工作流")
                    (State.setEdges (λ _, loadedEdges workflow)
                       (State.setNodes (λ _, loadedNodes workflow) s))))))
    end
  | FetchThrows message => State.alert ("載入工作流失敗：" +:+ message) s
  end.

(** The service, as far as a save followed by a fetch goes: it hands back
    the workflow object it was given. *)
Definition stored (payload : Workflow.t) : FetchResponse := Fetched None payload.

(** ** The remaining handlers of the editor *)

(** [onDrop]: a palette entry dropped on the canvas.  [wrapper] is the
    bounding rectangle's left and top when the canvas element is mounted;
    [now] is what [Date.now()] returns. *)
Definition onDrop (type label category : string) (wrapper : option (Z * Z))
    (clientX clientY : Z) (now : N) (s : State.t) : State.t :=
  match wrapper with
  | Some (boundsLeft, boundsTop) =>
    if decide (type = "") then s
    else
      let position := Pos.mk (clientX - boundsLeft) (clientY - boundsTop) in
      let newNode :=
        Node.mk (type +:+ "-" +:+ pretty now) "workflowNode" position
          (NodeData.mk label None (Some category) (Some ∅) (Some type)) in
      State.setNodes (λ nds, nds ++ [newNode]) s
  | None => s
  end.

Definition onNodeClick (node : Node.t) (s : State.t) : State.t :=
  State.setSelectedNode (Some node) s.

(** [{ ...n, data: { ...n.data, label } }] *)
Definition with_label (label : string) (n : Node.t) : Node.t :=
  Node.mk (Node.id n) (Node.type n) (Node.position n)
    (NodeData.mk label
       (NodeData.description (Node.data n))
       (NodeData.category (Node.data n))
       (NodeData.params (Node.data n))
       (NodeData.nodeType (Node.data n))).

(** [{ ...n, data: { ...n.data, params: { ...(params || {}), [paramId]: value } } }] *)
Definition with_param (paramId : string) (value : ParamValue) (n : Node.t)
  : Node.t :=
  Node.mk (Node.id n) (Node.type n) (Node.position n)
    (NodeData.mk
       (NodeData.label (Node.data n))
       (NodeData.description (Node.data n))
       (NodeData.category (Node.data n))
       (Some (<[paramId := value]> (default ∅ (NodeData.params (Node.data n)))))
       (NodeData.nodeType (Node.data n))).

(** The [onChange] of the name field of the property panel; the panel is
    rendered only while a node is selected. *)
Definition onLabelChange (value : string) (s : State.t) : State.t :=
  match State.selectedNode s with
  | Some selectedNode =>
    State.setNodes
      (λ nds,
         map (λ n, if decide (Node.id n = Node.id selectedNode)
                   then with_label value n else n) nds)
      s
  | None => s
  end.

(** [updateParam] of the property panel. *)
Definition updateParam (paramId : string) (value : ParamValue) (s : State.t)
  : State.t :=
  match State.selectedNode s with
  | Some selectedNode =>
    State.setNodes
      (λ nds,
         map (λ n, if decide (Node.id n = Node.id selectedNode)
                   then with_param paramId value n else n) nds)
      s
  | None => s
  end.

(** ** Names of output files *)

Definition is_path_separator (c : Ascii.ascii) : bool :=
  bool_decide (String c "" = "/") || bool_decide (String c "" = "\").

(** [filepath.split(/[/\\]/)]: one piece more than there are separators,
    empty pieces included.  Both separators are single bytes that occur in
    no multi-byte character, so splitting bytes and splitting characters
    agree. *)
Fixpoint split_path (filepath : string) : list string :=
  match filepath with
  | EmptyString => [""]
  | String c rest =>
    if is_path_separator c then "" :: split_path rest
    else match split_path rest with
         | piece :: pieces => String c piece :: pieces
         | [] => [String c ""]
         end
  end.

(** [filepath.split(/[/\\]/).pop() || fallback] *)
Definition filename_of (filepath fallback : string) : string :=
  js_or_str (last (split_path filepath)) fallback.

(** The name under which [downloadOutputFile] saves a file. *)
Definition download_filename (filepath : string) : string :=
  filename_of filepath "download".

(** The name that the result panel shows for entry [index]. *)
Definition listed_filename (filepath : string) (index : nat) : string :=
  filename_of filepath ("file-" +:+ pretty index).

(** ** The palette *)

(** The [reduce] that groups the registry by category: a new category is
    appended, a known one gets the entry pushed to its group.  The result
    is read with [Object.entries], in insertion order (category names are
    not array indices). *)
Fixpoint push_to_group (node : NodeTypeDef.t)
    (acc : list (string * list NodeTypeDef.t))
  : list (string * list NodeTypeDef.t) :=
  match acc with
  | [] => [(NodeTypeDef.category node, [node])]
  | (category, group) :: acc' =>
    if decide (category = NodeTypeDef.category node)
    then (category, group ++ [node]) :: acc'
    else (category, group) :: push_to_group node acc'
  end.

Definition group_by_category (defs : list NodeTypeDef.t)
  : list (string * list NodeTypeDef.t) :=
  fold_left (λ acc node, push_to_group node acc) defs [].

Definition categoryColors : gmap string string :=
  list_to_map
    [ ("input", "bg-green-500"); ("pdf", "bg-blue-500");
      ("convert", "bg-orange-500"); ("ai", "bg-purple-500");
      ("ocr", "bg-cyan-500"); ("logic", "bg-yellow-500");
      ("output", "bg-red-500") ].

(** [categoryColors[data.category || 'pdf'] || 'bg-gray-500'], the
    background of a node on the canvas. *)
Definition bgColor (data : NodeData.t) : string :=
  js_or_str (categoryColors !! js_or_str (NodeData.category data) "pdf")
    "bg-gray-500".

(** ** The session around the editor: files, execution, listing *)

Module File.
Record t := mk { name : string; type : string }.
End File.

Module WorkflowSummary.
Record t := mk {
  id : string;
  name : string;
  description : string;
  node_count : Z;
  created_at : string;
  updated_at : string
}.
End WorkflowSummary.

Module Session.
Record t := mk {
  editor : State.t;
  uploadedFiles : list File.t;
  isExecuting : bool;
  fromUpload : bool;
  savedWorkflows : list WorkflowSummary.t;
  isLoadingWorkflows : bool
}.

Definition on_editor (f : State.t → State.t) (x : t) : t :=
  mk (f (editor x)) (uploadedFiles x) (isExecuting x) (fromUpload x)
     (savedWorkflows x) (isLoadingWorkflows x).
Definition setUploadedFiles (v : list File.t) (x : t) : t :=
  mk (editor x) v (isExecuting x) (fromUpload x)
     (savedWorkflows x) (isLoadingWorkflows x).
Definition setIsExecuting (v : bool) (x : t) : t :=
  mk (editor x) (uploadedFiles x) v (fromUpload x)
     (savedWorkflows x) (isLoadingWorkflows x).
Definition setFromUpload (v : bool) (x : t) : t :=
  mk (editor x) (uploadedFiles x) (isExecuting x) v
     (savedWorkflows x) (isLoadingWorkflows x).
Definition setSavedWorkflows (v : list WorkflowSummary.t) (x : t) : t :=
  mk (editor x) (uploadedFiles x) (isExecuting x) (fromUpload x)
     v (isLoadingWorkflows x).
Definition setIsLoadingWorkflows (v : bool) (x : t) : t :=
  mk (editor x) (uploadedFiles x) (isExecuting x) (fromUpload x)
     (savedWorkflows x) v.

(** The cells of a freshly mounted page. *)
Definition start : t := mk State.initial [] false false [] false.
End Session.

(** What the mount effect finds in the session storage. *)
Inductive UploadHandoff :=
| HandoffAbsent
| HandoffUnreadable
| HandoffFiles (files : list File.t).

(** The input nodes built for handed-over files; [now index] is what
    [Date.now()] returns when entry [index] is mapped. *)
Definition inputNodes (files : list File.t) (now : nat → N) : list Node.t :=
  imap
    (λ index file,
       Node.mk
         ("input_file-" +:+ pretty (now index) +:+ "-" +:+ pretty index)
         "workflowNode"
         (Pos.mk 100 (100 + Z.of_nat index * 120))
         (NodeData.mk (File.name file)
            (Some ("輸入檔案: " +:+ File.name file))
            (Some "input")
            (Some {[ "filename" := PString (File.name file) ]})
            (Some "input_file")))
    files.

(** The effect that runs when the page is mounted: [from] is the query
    parameter of that name. *)
Definition onMount (from : option string) (handoff : UploadHandoff)
    (now : nat → N) (x : Session.t) : Session.t :=
  if decide (from = Some "upload") then
    let x := Session.setFromUpload true x in
    match handoff with
    | HandoffAbsent => x
    | HandoffUnreadable => x
    | HandoffFiles files =>
      let x := Session.setUploadedFiles files x in
      if decide (files = []) then x
      else Session.on_editor (State.setNodes (λ _, inputNodes files now)) x
    end
  else x.

(** [handleFileUpload]: [files] is [e.target.files], which may be null. *)
Definition handleFileUpload (files : option (list File.t)) (x : Session.t)
  : Session.t :=
  match files with
  | Some files => Session.setUploadedFiles files x
  | None => x
  end.

(** [clearCanvas]: [confirmed] is the answer of [window.confirm], asked
    only when the canvas holds nodes. *)
Definition clearCanvas (confirmed : bool) (x : Session.t) : Session.t :=
  if negb (bool_decide (State.nodes (Session.editor x) = [])) && negb confirmed
  then x
  else
    Session.setUploadedFiles []
      (Session.on_editor
         (λ s, State.setExecutionResult None
                 (State.setSelectedNode None
                    (State.setWorkflowId None
                       (State.setWorkflowName "新工作流"
                          (State.setEdges (λ _, [])
                             (State.setNodes (λ _, []) s))))))
         x).

(** What the execute request yields. *)
Inductive ExecuteResponse :=
| Executed (result : ExecutionResult.t)
| ExecuteThrows (message : string).

(** [executeWorkflow] up to the request: the session, and the saved
    workflow id and files of the request when one is sent. *)
Definition executeWorkflow_request (x : Session.t)
  : Session.t * option (string * list File.t) :=
  match js_or (State.workflowId (Session.editor x)) None with
  | None => (Session.on_editor (State.alert "請先儲存工作流") x, None)
  | Some workflowId =>
    if decide (Session.uploadedFiles x = [])
    then (Session.on_editor (State.alert "請先上傳檔案") x, None)
    else (Session.on_editor (State.setExecutionResult None)
            (Session.setIsExecuting true x),
          Some (workflowId, Session.uploadedFiles x))
  end.

(** [executeWorkflow] from the answer on, [finally] included. *)
Definition executeWorkflow_response (response : ExecuteResponse)
    (x : Session.t) : Session.t :=
  Session.setIsExecuting false
    match response with
    | Executed result =>
      Session.on_editor
        (λ s,
           State.alert
             (if ExecutionResult.success result then "工作流執行完成！"
              else "執行失敗：" +:+ js_or_str (ExecutionResult.error result) "未知錯誤")
             (State.setExecutionResult (Some result) s))
        x
    | ExecuteThrows message =>
      Session.on_editor (State.alert ("執行失敗：" +:+ message)) x
    end.

Definition executeWorkflow (response : ExecuteResponse) (x : Session.t)
  : Session.t :=
  match executeWorkflow_request x with
  | (x', Some _) => executeWorkflow_response response x'
  | (x', None) => x'
  end.

(** What the list request yields: [workflows] is absent, null or a list. *)
Inductive ListResponse :=
| Listed (workflows : option (option (list WorkflowSummary.t)))
    (detail : option string)
| ListThrows (message : string).

Definition loadWorkflowList (response : ListResponse) (x : Session.t)
  : Session.t :=
  let x := Session.setIsLoadingWorkflows true x in
  Session.setIsLoadingWorkflows false
    match response with
    | Listed (Some workflows) _ =>
      Session.setSavedWorkflows (default [] workflows) x
    | Listed None _ => x
    | ListThrows _ => x
    end.

Definition openLoadModal (response : ListResponse) (x : Session.t)
  : Session.t :=
  loadWorkflowList response
    (Session.on_editor (State.setShowLoadModal true) x).

(** ** Editing sessions *)

(** What a user can do to the editor, one handler at a time.
    [SaveAndReopen] saves, with the service answering [workflow_id], and then opens the
    workflow the service stored. *)
Inductive Action :=
| DropNode (type label category : string) (wrapper : option (Z * Z))
    (clientX clientY : Z) (now : N)
| ClickNode (node : Node.t)
| ConnectNodes (params : Connection.t)
| DeleteSelected
| Arrange
| EditLabel (value : string)
| EditParam (paramId : string) (value : ParamValue)
| TimerFires
| PickFiles (files : option (list File.t))
| ClearCanvas (confirmed : bool)
| RunWorkflow (response : ExecuteResponse)
| OpenList (response : ListResponse)
| SaveAndReopen (workflow_id : string).

Definition perform (a : Action) (x : Session.t) : Session.t :=
  match a with
  | DropNode type label category wrapper clientX clientY now =>
    Session.on_editor (onDrop type label category wrapper clientX clientY now) x
  | ClickNode node => Session.on_editor (onNodeClick node) x
  | ConnectNodes params => Session.on_editor (onConnect params) x
  | DeleteSelected => Session.on_editor deleteSelectedNode x
  | Arrange => Session.on_editor autoArrangeNodes x
  | EditLabel value => Session.on_editor (onLabelChange value) x
  | EditParam paramId value => Session.on_editor (updateParam paramId value) x
  | TimerFires => Session.on_editor onTimeout x
  | PickFiles files => handleFileUpload files x
  | ClearCanvas confirmed => clearCanvas confirmed x
  | RunWorkflow response => executeWorkflow response x
  | OpenList response => openLoadModal response x
  | SaveAndReopen workflow_id =>
    Session.on_editor
      (λ s, loadWorkflow workflow_id (stored (saveWorkflow_payload s))
              (saveWorkflow (SaveSuccess workflow_id) s))
      x
  end.

(** The session after the actions, run in order. *)
Definition run (actions : list Action) (x : Session.t) : Session.t :=
  fold_left (λ x a, perform a x) actions x.

(** * Definitions used by the statements *)

(** ** Fixtures used by the examples *)

Definition node_at (id nodeType label : string) (x y : Z) : Node.t :=
  Node.mk id "workflowNode" (Pos.mk x y)
    (NodeData.mk label None None (Some ∅) (Some nodeType)).

Definition edge_of (source target : string) : Edge.t :=
  Edge.mk (getEdgeId source None target None) source target None None true
    (Some edgeStyle).

Definition connection_of (source target : string) : Connection.t :=
  Connection.mk (Some source) (Some target) None None.

Definition state_of (nodes : list Node.t) (edges : list Edge.t) : State.t :=
  State.setEdges (λ _, edges) (State.setNodes (λ _, nodes) State.initial).

(** ** The checks of the validator, named *)

(** The allows-outgoing check fails for the source node:
    [sourceRule && !sourceRule.canHaveOutput].  An inherited member is
    truthy and its [canHaveOutput] is [undefined]. *)
Definition source_blocked (n : Node.t) : bool :=
  match connectionRules_at (nodeType_of n) with
  | OwnRule r => negb (ConnectionRule.canHaveOutput r)
  | InheritedMember => true
  | NoRule => false
  end.

(** The allows-incoming check fails for the target node:
    [targetRule && !targetRule.canHaveInput]. *)
Definition target_blocked (n : Node.t) : bool :=
  match connectionRules_at (nodeType_of n) with
  | OwnRule r => negb (ConnectionRule.canHaveInput r)
  | InheritedMember => true
  | NoRule => false
  end.

(** The target node's type has a rule with a positive [maxInputs] that the
    edges into [target] have reached; [undefined > 0] is false. *)
Definition capacity_reached (edges : list Edge.t) (n : Node.t) (target : string)
  : bool :=
  match connectionRules_at (nodeType_of n) with
  | OwnRule r =>
    bool_decide (0 < ConnectionRule.maxInputs r)
    && bool_decide (ConnectionRule.maxInputs r ≤ Z.of_nat (currentInputCount edges target))
  | InheritedMember => false
  | NoRule => false
  end.

(** The message of the capacity check for target node [n]. *)
Definition capacity_message (edges : list Edge.t) (n : Node.t) (target : string)
  : string :=
  msg_capacity (nodeType_of n) (label_of n) (currentInputCount edges target)
    (from_option ConnectionRule.maxInputs 0 (connectionRules !! nodeType_of n)).

(** The first check of a list that fails decides; none failing accepts. *)
Definition first_failing (checks : list (bool * string)) : Validation.t :=
  match List.find fst checks with
  | Some (_, msg) => Validation.rejected msg
  | None => Validation.ok
  end.

(** The checks in the order in which the validator runs them once both
    nodes are found. *)
Definition checks_in_order (edges : list Edge.t) (sourceNode targetNode : Node.t)
    (source target : string) : list (bool * string) :=
  [ (source_blocked sourceNode, msg_no_output (label_of sourceNode));
    (target_blocked targetNode, msg_no_input (label_of targetNode));
    (capacity_reached edges targetNode target,
     capacity_message edges targetNode target);
    (bool_decide (source = target), msg_self);
    (bool_decide (is_Some (existingEdge edges source target)), msg_duplicate) ].

(** ** Notions used in the statements *)

(** The edges from [a] to [b]. *)
Definition edges_between (edges : list Edge.t) (a b : string) : list Edge.t :=
  filter (λ e, Edge.source e = a ∧ Edge.target e = b) edges.

(** The node type under which [saveWorkflow] serialises a node. *)
Definition saved_type (n : Node.t) : string :=
  js_or_str (NodeData.nodeType (Node.data n)) (Node.type n).

(** The loop invariant of the traversal: no id occurs twice in the levels,
    and the visited set holds exactly the ids of the levels. *)
Definition levels_ok (acc : gset string * list (list string)) : Prop :=
  NoDup (concat acc.2) ∧ ∀ x, x ∈ acc.1 ↔ x ∈ concat acc.2.

(** The y-coordinates written for the ids of a level, in the level's
    order. *)
Definition level_ys (positions : gmap string Pos.t) (level : list string)
  : list Z :=
  map (λ nodeId, from_option Pos.y 0 (positions !! nodeId)) level.

Definition sum_Z (l : list Z) : Z := foldr Z.add 0 l.

(** Two non-empty lists of coordinates have the same mean. *)
Definition same_mean (ys1 ys2 : list Z) : Prop :=
  sum_Z ys1 * Z.of_nat (length ys2) = sum_Z ys2 * Z.of_nat (length ys1).

(** ** Notions used in the statements about editing sessions *)

(** Every node is rendered by [workflowNode] and carries a node type. *)
Definition nodes_typed (nodes : list Node.t) : Prop :=
  Forall
    (λ n, Node.type n = "workflowNode"
          ∧ is_Some (js_or (NodeData.nodeType (Node.data n)) None))
    nodes.

(** Both endpoints of the edge resolve, to nodes whose rules allow the
    edge's direction, and the edge is no self-connection. *)
Definition edge_allowed (nodes : list Node.t) (e : Edge.t) : Prop :=
  ∃ sn tn,
    find_node (Edge.source e) nodes = Some sn
    ∧ find_node (Edge.target e) nodes = Some tn
    ∧ source_blocked sn = false
    ∧ target_blocked tn = false
    ∧ Edge.source e ≠ Edge.target e.

(** No node has more incoming edges than a positive [maxInputs] allows. *)
Definition capacity_respected (nodes : list Node.t) (edges : list Edge.t)
  : Prop :=
  ∀ target tn r,
    find_node target nodes = Some tn →
    connectionRules !! nodeType_of tn = Some r →
    0 < ConnectionRule.maxInputs r →
    Z.of_nat (currentInputCount edges target) ≤ ConnectionRule.maxInputs r.

(** The graph a validator-guarded editor should hold. *)
Definition graph_valid (s : State.t) : Prop :=
  nodes_typed (State.nodes s)
  ∧ Forall (edge_allowed (State.nodes s)) (State.edges s)
  ∧ NoDup (map (λ e, (Edge.source e, Edge.target e)) (State.edges s))
  ∧ capacity_respected (State.nodes s) (State.edges s).

(** The value of parameter [paramId] of the node that [nid] resolves to. *)
Definition param_of (nodes : list Node.t) (nid paramId : string)
  : option ParamValue :=
  find_node nid nodes
  ≫= λ n, default ∅ (NodeData.params (Node.data n)) !! paramId.

(** The string holds no path separator. *)
Fixpoint separator_free (s : string) : Prop :=
  match s with
  | EmptyString => True
  | String c rest => is_path_separator c = false ∧ separator_free rest
  end.

(** The categories of the definitions, each at its first occurrence. *)
Definition categories_of (defs : list NodeTypeDef.t) : list string :=
  set_of_array (map NodeTypeDef.category defs).

(** The decimal digits, and the strings made of them. *)
Definition is_digit (c : Ascii.ascii) : bool :=
  bool_decide
    (String c "" ∈ ["0"; "1"; "2"; "3"; "4"; "5"; "6"; "7"; "8"; "9"]).

Fixpoint all_digits (s : string) : Prop :=
  match s with
  | EmptyString => True
  | String c rest => is_digit c = true ∧ all_digits rest
  end.

(** The ids that can be reached from the roots along edges. *)
Inductive reachable (roots : list string) (edges : list Edge.t)
  : string → Prop :=
| reachable_root r : r ∈ roots → reachable roots edges r
| reachable_step e :
    reachable roots edges (Edge.source e) → e ∈ edges →
    reachable roots edges (Edge.target e).

(** What the traversal keeps true while it runs. *)
Definition bfs_invariant (roots : list string) (edges : list Edge.t)
    (visited : gset string) (levels : list (list string))
    (currentLevel : list string) : Prop :=
  (∀ x, x ∈ visited ↔ x ∈ concat levels)
  ∧ (∀ i level e, levels !! i = Some level → e ∈ edges →
       Edge.source e ∈ level →
       ∃ j level', (j ≤ S i)%nat ∧ (levels ++ [currentLevel]) !! j = Some level'
                   ∧ Edge.target e ∈ level')
  ∧ (∀ i level v, levels !! S i = Some level → v ∈ level →
       ∃ e level0, e ∈ edges ∧ levels !! i = Some level0
                   ∧ Edge.source e ∈ level0 ∧ Edge.target e = v)
  ∧ (∀ v, v ∈ currentLevel →
       levels = []
       ∨ ∃ e level0, e ∈ edges ∧ last levels = Some level0
                     ∧ Edge.source e ∈ level0 ∧ Edge.target e = v)
  ∧ (∀ v, v ∈ concat levels ∨ v ∈ currentLevel → reachable roots edges v).

(** What holds of the levels when the traversal has ended. *)
Definition bfs_result (roots : list string) (edges : list Edge.t)
    (levels : list (list string)) (currentLevel : list string)
    (result : list (list string)) : Prop :=
  (∀ i level, levels !! i = Some level → result !! i = Some level)
  ∧ (currentLevel ≠ [] → result !! length levels = Some currentLevel)
  ∧ (∀ i level e, result !! i = Some level → e ∈ edges →
       Edge.source e ∈ level →
       ∃ j level', (j ≤ S i)%nat ∧ result !! j = Some level'
                   ∧ Edge.target e ∈ level')
  ∧ (∀ i level v, result !! S i = Some level → v ∈ level →
       ∃ e level0, e ∈ edges ∧ result !! i = Some level0
                   ∧ Edge.source e ∈ level0 ∧ Edge.target e = v)
  ∧ (∀ v, v ∈ concat result → reachable roots edges v).

(** * Properties *)

(** ** The validator and its checks *)

Lemma validateConnection_not_found nodes edges source target :
  find_node source nodes = None ∨ find_node target nodes = None →
  validateConnection nodes edges source target = Validation.rejected msg_not_found.
Proof.
  unfold validateConnection. intros [-> | ->]; [done|].
  by destruct (find_node source nodes).
Qed.

Lemma validateConnection_found nodes edges source target sn tn :
  find_node source nodes = Some sn →
  find_node target nodes = Some tn →
  validateConnection nodes edges source target
  = first_failing (checks_in_order edges sn tn source target).
Proof.
  intros Hs Ht. unfold validateConnection. rewrite Hs, Ht.
  unfold first_failing, checks_in_order, source_blocked, target_blocked,
    capacity_reached, capacity_message, connectionRules_at.
  cbn [List.find fst].
  destruct (connectionRules !! nodeType_of sn) as [rs|] eqn:Hrs;
    [|destruct (bool_decide (nodeType_of sn ∈ Object_prototype_names))];
    (destruct (connectionRules !! nodeType_of tn) as [rt|] eqn:Hrt;
     [|destruct (bool_decide (nodeType_of tn ∈ Object_prototype_names))]);
    cbn [from_option];
    repeat first
      [ progress cbn [negb andb]
      | match goal with
        | |- context [ConnectionRule.canHaveOutput ?r] =>
          destruct (ConnectionRule.canHaveOutput r)
        | |- context [ConnectionRule.canHaveInput ?r] =>
          destruct (ConnectionRule.canHaveInput r)
        | |- context [bool_decide (0 < ?z)] => destruct (bool_decide (0 < z))
        | |- context [bool_decide (?a ≤ ?b)] => destruct (bool_decide (a ≤ b))
        end ];
    try reflexivity;
    (destruct (decide (source = target)) as [Heq|Hne];
     [ rewrite (bool_decide_eq_true_2 _ Heq); reflexivity
     | rewrite (bool_decide_eq_false_2 _ Hne);
       destruct (existingEdge edges source target); reflexivity ]).
Qed.

Lemma rule_lookup_entry t r :
  connectionRules !! t = Some r → (t, r) ∈ connectionRules_entries.
Proof. apply elem_of_list_to_map_2. Qed.

Lemma connectionRules_at_own t r :
  connectionRules_at t = OwnRule r ↔ connectionRules !! t = Some r.
Proof.
  unfold connectionRules_at. destruct (connectionRules !! t) as [r'|].
  - split; by intros [= ->].
  - by case_bool_decide.
Qed.

(** In the table, a rule with [maxInputs = 0] forbids incoming edges, and a
    rule with a positive [maxInputs] accepts them. *)
Lemma rules_maxInputs_canHaveInput t r :
  connectionRules !! t = Some r →
  (ConnectionRule.maxInputs r = 0 → ConnectionRule.canHaveInput r = false)
  ∧ (0 < ConnectionRule.maxInputs r → ConnectionRule.canHaveInput r = true).
Proof.
  intros H%rule_lookup_entry.
  assert (Forall
    (λ e : string * ConnectionRule.t,
       (ConnectionRule.maxInputs e.2 = 0 → ConnectionRule.canHaveInput e.2 = false)
       ∧ (0 < ConnectionRule.maxInputs e.2 → ConnectionRule.canHaveInput e.2 = true))
    connectionRules_entries) as Hall.
  { unfold connectionRules_entries.
    repeat (apply Forall_cons; split; [cbn; split; intros; (done || lia)|]).
    apply Forall_nil. done. }
  rewrite list.Forall_forall in Hall. apply (Hall _ H).
Qed.

Lemma first_failing_valid_false checks :
  Validation.valid (first_failing checks) = false ↔ Exists (λ c, c.1 = true) checks.
Proof.
  unfold first_failing. induction checks as [|[b msg] cs IH]; cbn.
  - split; [done|]. intros H. by apply Exists_nil in H.
  - destruct b; cbn.
    + split; [|done]. intros _. by left.
    + rewrite IH. rewrite Exists_cons. cbn. split; [by right|].
      intros [Hf|H]; [discriminate|done].
Qed.

(** ** C1: the order of the checks and self-connections *)

(** C1, as the claim states it, fails: a self-connection on an existing
    node of type [output_save] is rejected by the allows-outgoing check,
    with that check's reason and not the self-connection reason. *)
Lemma validateConnection_self_reason_counterexample :
  let out := node_at "out-1" "output_save" "儲存檔案" 0 0 in
  find_node "out-1" [out] = Some out
  ∧ validateConnection [out] [] "out-1" "out-1"
    = Validation.rejected (msg_no_output "儲存檔案")
  ∧ validateConnection [out] [] "out-1" "out-1" ≠ Validation.rejected msg_self.
Proof. cbv zeta. split; [reflexivity|]. split; [reflexivity|]. discriminate. Qed.

(** C1 (amended): once both nodes are found, the validator's answer is the
    first failing check in the order allows-outgoing, allows-incoming,
    incoming capacity, self-connection, duplicate edge.  A self-connection
    on an existing node is always rejected; its reason is the
    self-connection reason when the node's type passes the three rule
    checks, and the allows-outgoing reason when that check fails. *)
Theorem validateConnection_self_connection nodes edges a n :
  find_node a nodes = Some n →
  (∀ target tn, find_node target nodes = Some tn →
     validateConnection nodes edges a target
     = first_failing (checks_in_order edges n tn a target))
  ∧ Validation.valid (validateConnection nodes edges a a) = false
  ∧ (source_blocked n = false → target_blocked n = false →
     capacity_reached edges n a = false →
     validateConnection nodes edges a a = Validation.rejected msg_self)
  ∧ (source_blocked n = true →
     validateConnection nodes edges a a
     = Validation.rejected (msg_no_output (label_of n))).
Proof.
  intros Hn. split; [|split; [|split]].
  - intros target tn Ht. by apply validateConnection_found.
  - rewrite (validateConnection_found _ _ _ _ _ _ Hn Hn).
    apply first_failing_valid_false. unfold checks_in_order.
    do 3 apply Exists_cons_tl. apply Exists_cons_hd. cbn.
    by apply bool_decide_eq_true_2.
  - intros Hs Ht Hc. rewrite (validateConnection_found _ _ _ _ _ _ Hn Hn).
    unfold first_failing, checks_in_order. rewrite Hs, Ht, Hc. cbn.
    by rewrite bool_decide_eq_true_2.
  - intros Hs. rewrite (validateConnection_found _ _ _ _ _ _ Hn Hn).
    unfold first_failing, checks_in_order. by rewrite Hs.
Qed.

Lemma validateConnection_self_connection_witness :
  let n := node_at "merge-1" "pdf_merge" "合併 PDF" 0 0 in
  find_node "merge-1" [n] = Some n
  ∧ Validation.valid (validateConnection [n] [] "merge-1" "merge-1") = false
  ∧ validateConnection [n] [] "merge-1" "merge-1" = Validation.rejected msg_self.
Proof.
  cbv zeta.
  pose proof (validateConnection_self_connection
                [node_at "merge-1" "pdf_merge" "合併 PDF" 0 0] [] "merge-1"
                (node_at "merge-1" "pdf_merge" "合併 PDF" 0 0) eq_refl)
    as (_ & Hrej & Hself & _).
  split; [reflexivity|]. split; [exact Hrej|].
  apply Hself; reflexivity.
Defined.

(** ** C3: the incoming capacity of a node *)

(** C3, as the claim states it, fails for [maxInputs = 0]: an [input_file]
    node with no incoming edge (0 of at most 0) rejects an incoming edge
    through the allows-incoming check, whose message states neither a
    count nor a limit; the capacity check is not the one that fires. *)
Lemma capacity_zero_counterexample :
  let a := node_at "merge-1" "pdf_merge" "合併 PDF" 0 0 in
  let b := node_at "file-1" "input_file" "檔案輸入" 0 0 in
  (ConnectionRule.maxInputs <$> connectionRules !! nodeType_of b) = Some 0
  ∧ Z.of_nat (currentInputCount [] "file-1") = 0
  ∧ capacity_reached [] b "file-1" = false
  ∧ validateConnection [a; b] [] "merge-1" "file-1"
    = Validation.rejected (msg_no_input "檔案輸入")
  ∧ validateConnection [a; b] [] "merge-1" "file-1"
    ≠ Validation.rejected (capacity_message [] b "file-1").
Proof. cbv zeta. repeat split; try reflexivity. discriminate. Qed.

(** C3 (amended): when the target node's rule has [maxInputs = n ≥ 0] and
    the node already has at least [n] incoming edges, every connection
    attempt that targets it is rejected, whatever the source.  The capacity
    check fires only for [n > 0]: then, for a source that exists and may
    have outgoing edges, the reason is the capacity message, which states
    the limit (for [ai_compare], the number of inputs connected and the
    limit 2).  For [n = 0] the rule forbids incoming edges and, for such a
    source, the reason is the one of the allows-incoming check. *)
Theorem validateConnection_capacity nodes edges source target tn r :
  find_node target nodes = Some tn →
  connectionRules !! nodeType_of tn = Some r →
  0 ≤ ConnectionRule.maxInputs r →
  ConnectionRule.maxInputs r ≤ Z.of_nat (currentInputCount edges target) →
  Validation.valid (validateConnection nodes edges source target) = false
  ∧ (∀ sn, find_node source nodes = Some sn → source_blocked sn = false →
       validateConnection nodes edges source target
       = Validation.rejected
           (if bool_decide (0 < ConnectionRule.maxInputs r)
            then msg_capacity (nodeType_of tn) (label_of tn)
                   (currentInputCount edges target) (ConnectionRule.maxInputs r)
            else msg_no_input (label_of tn))).
Proof.
  intros Ht Hr Hn Hcount.
  destruct (rules_maxInputs_canHaveInput _ _ Hr) as [Hzero Hpos].
  assert (∀ sn, find_node source nodes = Some sn → source_blocked sn = false →
    validateConnection nodes edges source target
    = Validation.rejected
        (if bool_decide (0 < ConnectionRule.maxInputs r)
         then msg_capacity (nodeType_of tn) (label_of tn)
                (currentInputCount edges target) (ConnectionRule.maxInputs r)
         else msg_no_input (label_of tn))) as Hreason.
  { intros sn Hs Hsb. rewrite (validateConnection_found _ _ _ _ _ _ Hs Ht).
    unfold first_failing, checks_in_order. rewrite Hsb.
    unfold target_blocked, capacity_reached, capacity_message.
    rewrite (proj2 (connectionRules_at_own _ _) Hr), Hr.
    cbn [from_option]. case_bool_decide as Hlt.
    - rewrite (Hpos Hlt). cbn. by rewrite bool_decide_eq_true_2.
    - rewrite Hzero by lia. done. }
  split; [|exact Hreason].
  destruct (find_node source nodes) as [sn|] eqn:Hs.
  - destruct (source_blocked sn) eqn:Hsb.
    + rewrite (validateConnection_found _ _ _ _ _ _ Hs Ht).
      unfold first_failing, checks_in_order. by rewrite Hsb.
    + by rewrite (Hreason sn eq_refl Hsb).
  - rewrite validateConnection_not_found by (by left). done.
Qed.

Lemma validateConnection_capacity_witness :
  let a := node_at "merge-1" "pdf_merge" "合併 PDF" 0 0 in
  let c := node_at "merge-2" "pdf_merge" "合併 PDF" 0 0 in
  let b := node_at "split-1" "pdf_split" "分割 PDF" 0 0 in
  let edges := [edge_of "merge-1" "split-1"] in
  Validation.valid (validateConnection [a; c; b] edges "merge-2" "split-1") = false
  ∧ validateConnection [a; c; b] edges "merge-2" "split-1"
    = Validation.rejected (msg_max_inputs "分割 PDF" 1).
Proof.
  cbv zeta.
  pose proof (validateConnection_capacity
    [node_at "merge-1" "pdf_merge" "合併 PDF" 0 0;
     node_at "merge-2" "pdf_merge" "合併 PDF" 0 0;
     node_at "split-1" "pdf_split" "分割 PDF" 0 0]
    [edge_of "merge-1" "split-1"] "merge-2" "split-1"
    (node_at "split-1" "pdf_split" "分割 PDF" 0 0)
    (ConnectionRule.rule true true 1 (-1))
    eq_refl eq_refl) as H.
  destruct H as [Hrej Hmsg]; [by vm_compute | by vm_compute |].
  split; [exact Hrej|].
  apply (Hmsg (node_at "merge-2" "pdf_merge" "合併 PDF" 0 0)); reflexivity.
Defined.

(** ** C8: node types without a rule *)

Lemma Object_prototype_names_no_entry t :
  t ∈ Object_prototype_names → connectionRules !! t = None.
Proof.
  unfold Object_prototype_names. rewrite !elem_of_cons, elem_of_nil.
  intros H. repeat (destruct H as [->|H]; [reflexivity|]). done.
Qed.

Lemma connectionRules_at_inherited t :
  t ∈ Object_prototype_names → connectionRules_at t = InheritedMember.
Proof.
  intros H. unfold connectionRules_at.
  rewrite (Object_prototype_names_no_entry t H).
  by rewrite bool_decide_eq_true_2.
Qed.

Lemma connectionRules_at_unlisted t :
  connectionRules !! t = None → t ∉ Object_prototype_names →
  connectionRules_at t = NoRule.
Proof.
  intros Hnone Hnot. unfold connectionRules_at. rewrite Hnone.
  by rewrite bool_decide_eq_false_2.
Qed.

(** C8, at the input where the code departs from it: a type that has no
    entry in the rule table but is named like a member of
    [Object.prototype] is not treated as rule-less.  The lookup returns the
    inherited member, the guards [sourceRule && ...] and
    [targetRule && ...] take it for a rule whose flags are [undefined], and
    the attempt is rejected on rule grounds: by the allows-outgoing check
    when the source has such a type, by the allows-incoming check when the
    target has one and the source passes its own check. *)
Theorem validateConnection_inherited_rule nodes edges source target sn tn :
  find_node source nodes = Some sn →
  find_node target nodes = Some tn →
  (nodeType_of sn ∈ Object_prototype_names →
   connectionRules !! nodeType_of sn = None
   ∧ validateConnection nodes edges source target
     = Validation.rejected (msg_no_output (label_of sn)))
  ∧ (nodeType_of tn ∈ Object_prototype_names → source_blocked sn = false →
     connectionRules !! nodeType_of tn = None
     ∧ validateConnection nodes edges source target
       = Validation.rejected (msg_no_input (label_of tn))).
Proof.
  intros Hs Ht. rewrite (validateConnection_found _ _ _ _ _ _ Hs Ht).
  unfold first_failing, checks_in_order. split.
  - intros Hin. split; [by apply Object_prototype_names_no_entry|].
    unfold source_blocked. by rewrite (connectionRules_at_inherited _ Hin).
  - intros Hin Hsb. split; [by apply Object_prototype_names_no_entry|].
    rewrite Hsb. unfold target_blocked.
    by rewrite (connectionRules_at_inherited _ Hin).
Qed.

Lemma validateConnection_inherited_rule_witness :
  let a := node_at "x-1" "constructor" "自訂" 0 0 in
  let b := node_at "y-1" "pdf_rotate" "旋轉" 0 0 in
  connectionRules !! "constructor" = None
  ∧ connectionRules !! "pdf_rotate" = None
  ∧ validateConnection [a; b] [] "x-1" "y-1"
    = Validation.rejected (msg_no_output "自訂")
  ∧ validateConnection [a; b] [] "y-1" "x-1"
    = Validation.rejected (msg_no_input "自訂").
Proof.
  cbv zeta.
  assert ("constructor" ∈ Object_prototype_names) as Hin by left.
  split; [reflexivity|]. split; [reflexivity|]. split.
  - apply (validateConnection_inherited_rule
             [node_at "x-1" "constructor" "自訂" 0 0;
              node_at "y-1" "pdf_rotate" "旋轉" 0 0] [] "x-1" "y-1"
             (node_at "x-1" "constructor" "自訂" 0 0)
             (node_at "y-1" "pdf_rotate" "旋轉" 0 0) eq_refl eq_refl).
    exact Hin.
  - apply (validateConnection_inherited_rule
             [node_at "x-1" "constructor" "自訂" 0 0;
              node_at "y-1" "pdf_rotate" "旋轉" 0 0] [] "y-1" "x-1"
             (node_at "y-1" "pdf_rotate" "旋轉" 0 0)
             (node_at "x-1" "constructor" "自訂" 0 0) eq_refl eq_refl).
    + exact Hin.
    + reflexivity.
Defined.

(** ** Accepted and rejected connections *)

Lemma js_or_None_Some (o : option string) (v : string) :
  js_or o None = Some v → o = Some v ∧ v ≠ "".
Proof.
  destruct o as [w|]; cbn; [|done]. case_decide; [done|]. by intros [= ->].
Qed.

Lemma existingEdge_None edges source target :
  existingEdge edges source target = None ↔
  ∀ e, e ∈ edges → ¬ (Edge.source e = source ∧ Edge.target e = target).
Proof.
  unfold existingEdge. split.
  - intros H e He [Hs Ht]. apply list_elem_of_In in He.
    pose proof (find_none _ _ H e He) as Hf. cbn in Hf.
    rewrite !bool_decide_eq_true_2 in Hf by done. discriminate.
  - intros H. destruct (List.find _ edges) as [e|] eqn:Hf; [|done].
    apply find_some in Hf as [He Hf]. apply list_elem_of_In in He.
    apply andb_prop in Hf as [Hs%bool_decide_eq_true Ht%bool_decide_eq_true].
    by destruct (H e He).
Qed.

Lemma connectionExists_existingEdge edge edges :
  connectionExists edge edges = true →
  is_Some (existingEdge edges (Edge.source edge) (Edge.target edge)).
Proof.
  unfold connectionExists. intros H. apply existsb_exists in H as (el & Hel & H).
  destruct (existingEdge edges (Edge.source edge) (Edge.target edge)) eqn:Hex;
    [eauto|].
  rewrite existingEdge_None in Hex. apply list_elem_of_In in Hel.
  apply andb_prop in H as [H _]. apply andb_prop in H as [H _].
  apply andb_prop in H as [Hs%bool_decide_eq_true Ht%bool_decide_eq_true].
  by destruct (Hex el Hel).
Qed.

(** What an accepting answer of the validator tells. *)
Lemma validateConnection_valid nodes edges source target :
  Validation.valid (validateConnection nodes edges source target) = true →
  ∃ sn tn,
    find_node source nodes = Some sn ∧ find_node target nodes = Some tn
    ∧ source_blocked sn = false ∧ target_blocked tn = false
    ∧ capacity_reached edges tn target = false
    ∧ source ≠ target
    ∧ existingEdge edges source target = None.
Proof.
  intros Hv.
  destruct (find_node source nodes) as [sn|] eqn:Hs; cycle 1.
  { rewrite validateConnection_not_found in Hv by (by left). discriminate. }
  destruct (find_node target nodes) as [tn|] eqn:Ht; cycle 1.
  { rewrite validateConnection_not_found in Hv by (by right). discriminate. }
  exists sn, tn. rewrite (validateConnection_found _ _ _ _ _ _ Hs Ht) in Hv.
  unfold first_failing, checks_in_order in Hv. cbn [List.find fst] in Hv.
  destruct (source_blocked sn); [discriminate|].
  destruct (target_blocked tn); [discriminate|].
  destruct (capacity_reached edges tn target); [discriminate|].
  case_bool_decide as Hne; [discriminate|].
  case_bool_decide as Hex; [discriminate|].
  repeat split; try done.
  destruct (existingEdge edges source target); [|done].
  destruct Hex; eauto.
Qed.

(** The state after an accepted connection: one edge appended. *)
Lemma onConnect_accepted params s source target :
  js_or (Connection.source params) None = Some source →
  js_or (Connection.target params) None = Some target →
  Validation.valid
    (validateConnection (State.nodes s) (State.edges s) source target) = true →
  State.nodes (onConnect params s) = State.nodes s
  ∧ State.edges (onConnect params s)
    = State.edges s
      ++ [Edge.mk
            (getEdgeId source (Connection.sourceHandle params)
               target (Connection.targetHandle params))
            source target
            (Connection.sourceHandle params) (Connection.targetHandle params)
            true (Some edgeStyle)].
Proof.
  intros Hs Ht Hv. unfold onConnect. rewrite Hs, Ht, Hv. cbn.
  split; [done|].
  apply js_or_None_Some in Hs as [_ Hs]. apply js_or_None_Some in Ht as [_ Ht].
  unfold addEdge. rewrite !bool_decide_eq_false_2 by done. cbn.
  destruct (connectionExists _ _) eqn:Hex; [|done].
  apply connectionExists_existingEdge in Hex. cbn in Hex.
  apply validateConnection_valid in Hv as (? & ? & ? & ? & ? & ? & ? & ? & Hnone).
  rewrite Hnone in Hex. by apply is_Some_None in Hex.
Qed.

Lemma first_failing_cases checks :
  first_failing checks = Validation.ok
  ∨ ∃ msg, (true, msg) ∈ checks ∧ first_failing checks = Validation.rejected msg.
Proof.
  unfold first_failing. destruct (List.find fst checks) as [[b msg]|] eqn:Hf;
    [|by left].
  right. exists msg. apply find_some in Hf as [Hin Hb]. cbn in Hb. subst b.
  split; [by apply list_elem_of_In|done].
Qed.

Lemma msg_capacity_nonempty t lbl count maxInputs :
  msg_capacity t lbl count maxInputs ≠ "".
Proof. unfold msg_capacity. by case_decide. Qed.

(** A rejection always carries a reason, and the reason is not empty. *)
Lemma validateConnection_invalid nodes edges source target :
  Validation.valid (validateConnection nodes edges source target) = false →
  ∃ msg, validateConnection nodes edges source target = Validation.rejected msg
         ∧ msg ≠ "".
Proof.
  intros Hv.
  destruct (find_node source nodes) as [sn|] eqn:Hs; cycle 1.
  { rewrite validateConnection_not_found by (by left). by eexists. }
  destruct (find_node target nodes) as [tn|] eqn:Ht; cycle 1.
  { rewrite validateConnection_not_found by (by right). by eexists. }
  rewrite (validateConnection_found _ _ _ _ _ _ Hs Ht) in *.
  destruct (first_failing_cases (checks_in_order edges sn tn source target))
    as [Hok | (msg & Hin & Hrej)].
  { rewrite Hok in Hv. discriminate. }
  exists msg. split; [done|]. unfold checks_in_order in Hin.
  repeat (apply elem_of_cons in Hin as [[= _ ->] | Hin]; [try done|]).
  - apply msg_capacity_nonempty.
  - by apply elem_of_nil in Hin.
Qed.

Lemma edges_between_nil edges a b :
  existingEdge edges a b = None → edges_between edges a b = [].
Proof.
  rewrite existingEdge_None. intros H. unfold edges_between.
  induction edges as [|e es IH]; [done|].
  rewrite filter_cons. case_decide as Hd.
  - destruct (H e); [left|done].
  - apply IH. intros e' He'. apply H. by right.
Qed.

Lemma existingEdge_app_hit edges e a b :
  Edge.source e = a → Edge.target e = b →
  is_Some (existingEdge (edges ++ [e]) a b).
Proof.
  intros Hs Ht.
  destruct (existingEdge (edges ++ [e]) a b) eqn:Hex; [eauto|].
  rewrite existingEdge_None in Hex. destruct (Hex e); [|done].
  apply elem_of_app. right. left.
Qed.

Lemma onConnect_invalid params s source target :
  js_or (Connection.source params) None = Some source →
  js_or (Connection.target params) None = Some target →
  Validation.valid
    (validateConnection (State.nodes s) (State.edges s) source target) = false →
  onConnect params s
  = State.setTimeout 3000
      (State.setConnectionError
         (Validation.error
            (validateConnection (State.nodes s) (State.edges s) source target))
         s).
Proof.
  intros Hs Ht Hv. unfold onConnect. rewrite Hs, Ht, Hv. cbn.
  destruct (validateConnection_invalid _ _ _ _ Hv) as (msg & -> & Hmsg). cbn.
  by case_decide.
Qed.

(** ** C5: connecting the same pair twice *)

(** C5, as the claim states it, fails: after [merge-1 → split-1] is
    accepted, the repeated attempt is rejected by the capacity check of
    [pdf_split] (at most one input), which runs before the duplicate check;
    the reason is not the duplicate one. *)
Lemma onConnect_repeated_reason_counterexample :
  let a := node_at "merge-1" "pdf_merge" "合併 PDF" 0 0 in
  let b := node_at "split-1" "pdf_split" "分割 PDF" 250 0 in
  let s := state_of [a; b] [] in
  let s1 := onConnect (connection_of "merge-1" "split-1") s in
  validateConnection (State.nodes s) (State.edges s) "merge-1" "split-1"
  = Validation.ok
  ∧ State.edges s1 = [edge_of "merge-1" "split-1"]
  ∧ validateConnection (State.nodes s1) (State.edges s1) "merge-1" "split-1"
    = Validation.rejected (msg_max_inputs "分割 PDF" 1)
  ∧ validateConnection (State.nodes s1) (State.edges s1) "merge-1" "split-1"
    ≠ Validation.rejected msg_duplicate.
Proof. cbv zeta. repeat split; try reflexivity. discriminate. Qed.

(** C5 (amended): when a connection from [a] to [b] has just been accepted,
    the repeated attempt is rejected and leaves the edges as they are, with
    exactly one edge from [a] to [b].  The reason is the duplicate one
    unless the accepted edge has filled the incoming capacity of [b], in
    which case the capacity check, which runs first, gives the reason. *)
Theorem onConnect_repeated params s a b :
  js_or (Connection.source params) None = Some a →
  js_or (Connection.target params) None = Some b →
  Validation.valid
    (validateConnection (State.nodes s) (State.edges s) a b) = true →
  let s1 := onConnect params s in
  let s2 := onConnect params s1 in
  a ≠ b
  ∧ Validation.valid
      (validateConnection (State.nodes s1) (State.edges s1) a b) = false
  ∧ (∀ tn, find_node b (State.nodes s) = Some tn →
       validateConnection (State.nodes s1) (State.edges s1) a b
       = Validation.rejected
           (if capacity_reached (State.edges s1) tn b
            then capacity_message (State.edges s1) tn b
            else msg_duplicate))
  ∧ State.nodes s2 = State.nodes s ∧ State.edges s2 = State.edges s1
  ∧ length (edges_between (State.edges s1) a b) = 1%nat
  ∧ length (edges_between (State.edges s2) a b) = 1%nat.
Proof.
  intros Ha Hb Hv s1 s2.
  destruct (onConnect_accepted _ _ _ _ Ha Hb Hv) as [Hn1 He1].
  fold s1 in Hn1, He1.
  destruct (validateConnection_valid _ _ _ _ Hv)
    as (sn & tn & Hsn & Htn & Hsb & Htb & Hcap & Hne & Hnone).
  assert (validateConnection (State.nodes s1) (State.edges s1) a b
          = Validation.rejected
              (if capacity_reached (State.edges s1) tn b
               then capacity_message (State.edges s1) tn b
               else msg_duplicate)) as Hsecond.
  { rewrite Hn1. rewrite (validateConnection_found _ _ _ _ _ _ Hsn Htn).
    unfold first_failing, checks_in_order. rewrite Hsb, Htb. cbn.
    destruct (capacity_reached (State.edges s1) tn b); [done|].
    rewrite bool_decide_eq_false_2 by done.
    rewrite bool_decide_eq_true_2; [done|].
    rewrite He1. by apply existingEdge_app_hit. }
  assert (Validation.valid
            (validateConnection (State.nodes s1) (State.edges s1) a b) = false)
    as Hv1 by (by rewrite Hsecond).
  assert (length (edges_between (State.edges s1) a b) = 1%nat) as Hone.
  { rewrite He1. unfold edges_between. rewrite filter_app.
    fold (edges_between (State.edges s) a b).
    rewrite (edges_between_nil _ _ _ Hnone). rewrite filter_cons.
    case_decide as Hd; [done|]. by destruct Hd. }
  assert (s2 = State.setTimeout 3000
                 (State.setConnectionError
                    (Validation.error
                       (validateConnection (State.nodes s1) (State.edges s1) a b))
                    s1)) as Hs2
    by (by apply onConnect_invalid).
  repeat split; try done.
  - intros tn' Htn'. rewrite Htn in Htn'. by injection Htn' as <-.
  - by rewrite Hs2.
  - by rewrite Hs2.
  - by rewrite Hs2.
Qed.

Lemma onConnect_repeated_witness :
  let a := node_at "split-1" "pdf_split" "分割 PDF" 0 0 in
  let b := node_at "merge-1" "pdf_merge" "合併 PDF" 250 0 in
  let s := state_of [a; b] [] in
  let s1 := onConnect (connection_of "split-1" "merge-1") s in
  let s2 := onConnect (connection_of "split-1" "merge-1") s1 in
  Validation.valid
    (validateConnection (State.nodes s) (State.edges s) "split-1" "merge-1") = true
  ∧ validateConnection (State.nodes s1) (State.edges s1) "split-1" "merge-1"
    = Validation.rejected msg_duplicate
  ∧ State.edges s2 = State.edges s1
  ∧ length (edges_between (State.edges s2) "split-1" "merge-1") = 1%nat.
Proof.
  cbv zeta.
  pose proof (onConnect_repeated
    (connection_of "split-1" "merge-1")
    (state_of [node_at "split-1" "pdf_split" "分割 PDF" 0 0;
               node_at "merge-1" "pdf_merge" "合併 PDF" 250 0] [])
    "split-1" "merge-1" eq_refl eq_refl eq_refl)
    as (_ & _ & Hreason & _ & Hedges & _ & Hone).
  split; [reflexivity|]. split; [|split; [exact Hedges|exact Hone]].
  apply (Hreason (node_at "merge-1" "pdf_merge" "合併 PDF" 250 0)). reflexivity.
Defined.

(** ** C6: a rejected connection changes nothing but the message *)

(** C6: when the validator rejects the proposed edge, [onConnect] leaves
    the nodes, the edges and every other cell of the state as they are,
    except that the rejection reason becomes the connection error and a
    3000 ms timeout is scheduled; when that timeout runs the message is
    cleared, the nodes and edges still untouched. *)
Theorem onConnect_rejected params s source target :
  js_or (Connection.source params) None = Some source →
  js_or (Connection.target params) None = Some target →
  Validation.valid
    (validateConnection (State.nodes s) (State.edges s) source target) = false →
  let s' := onConnect params s in
  State.nodes s' = State.nodes s
  ∧ State.edges s' = State.edges s
  ∧ State.selectedNode s' = State.selectedNode s
  ∧ State.workflowName s' = State.workflowName s
  ∧ State.workflowId s' = State.workflowId s
  ∧ State.showLoadModal s' = State.showLoadModal s
  ∧ State.executionResult s' = State.executionResult s
  ∧ State.alerts s' = State.alerts s
  ∧ State.connectionError s'
    = Validation.error
        (validateConnection (State.nodes s) (State.edges s) source target)
  ∧ is_Some (State.connectionError s')
  ∧ State.timeouts s' = State.timeouts s ++ [3000]
  ∧ State.connectionError (onTimeout s') = None
  ∧ State.nodes (onTimeout s') = State.nodes s
  ∧ State.edges (onTimeout s') = State.edges s.
Proof.
  intros Hs Ht Hv s'. unfold s'.
  rewrite (onConnect_invalid _ _ _ _ Hs Ht Hv). cbn.
  repeat split; try done.
  destruct (validateConnection_invalid _ _ _ _ Hv) as (msg & -> & _).
  by eexists.
Qed.

Lemma onConnect_rejected_witness :
  let a := node_at "save-1" "output_save" "儲存檔案" 0 0 in
  let b := node_at "merge-1" "pdf_merge" "合併 PDF" 250 0 in
  let s := state_of [a; b] [] in
  let s' := onConnect (connection_of "save-1" "merge-1") s in
  Validation.valid
    (validateConnection (State.nodes s) (State.edges s) "save-1" "merge-1") = false
  ∧ State.nodes s' = State.nodes s
  ∧ State.edges s' = State.edges s
  ∧ State.connectionError s' = Some (msg_no_output "儲存檔案").
Proof.
  cbv zeta.
  pose proof (onConnect_rejected
    (connection_of "save-1" "merge-1")
    (state_of [node_at "save-1" "output_save" "儲存檔案" 0 0;
               node_at "merge-1" "pdf_merge" "合併 PDF" 250 0] [])
    "save-1" "merge-1" eq_refl eq_refl eq_refl)
    as (Hn & He & _ & _ & _ & _ & _ & _ & Herr & _).
  split; [reflexivity|]. split; [exact Hn|]. split; [exact He|].
  rewrite Herr. reflexivity.
Defined.

(** ** C7: deleting a node *)

(** C7: deleting the selected node removes the nodes with its id and every
    edge that has the id as source or target, keeps all other nodes and
    edges in their order, clears the selection and touches nothing else;
    afterwards no edge is incident to the removed id. *)
Theorem deleteSelectedNode_cascade s sel :
  State.selectedNode s = Some sel →
  let s' := deleteSelectedNode s in
  State.nodes s' = filter (λ n, Node.id n ≠ Node.id sel) (State.nodes s)
  ∧ State.edges s'
    = filter (λ e, Edge.source e ≠ Node.id sel ∧ Edge.target e ≠ Node.id sel)
        (State.edges s)
  ∧ (∀ n, n ∈ State.nodes s' ↔ n ∈ State.nodes s ∧ Node.id n ≠ Node.id sel)
  ∧ (∀ e, e ∈ State.edges s' ↔
          e ∈ State.edges s
          ∧ Edge.source e ≠ Node.id sel ∧ Edge.target e ≠ Node.id sel)
  ∧ Forall (λ e, Edge.source e ≠ Node.id sel ∧ Edge.target e ≠ Node.id sel)
      (State.edges s')
  ∧ State.selectedNode s' = None
  ∧ State.connectionError s' = State.connectionError s
  ∧ State.timeouts s' = State.timeouts s
  ∧ State.workflowName s' = State.workflowName s
  ∧ State.workflowId s' = State.workflowId s
  ∧ State.showLoadModal s' = State.showLoadModal s
  ∧ State.executionResult s' = State.executionResult s
  ∧ State.alerts s' = State.alerts s.
Proof.
  intros Hsel s'. unfold s', deleteSelectedNode. rewrite Hsel. cbn.
  split_and!; try done.
  - intros n. rewrite list_elem_of_filter. tauto.
  - intros e. rewrite list_elem_of_filter. tauto.
  - apply list.Forall_forall. by intros e [? _]%list_elem_of_filter.
Qed.

Lemma deleteSelectedNode_cascade_witness :
  let a := node_at "file-1" "input_file" "檔案輸入" 0 0 in
  let b := node_at "merge-1" "pdf_merge" "合併 PDF" 250 0 in
  let c := node_at "save-1" "output_save" "儲存檔案" 500 0 in
  let s := State.setSelectedNode (Some b)
             (state_of [a; b; c]
                [edge_of "file-1" "merge-1"; edge_of "merge-1" "save-1";
                 edge_of "file-1" "save-1"]) in
  State.selectedNode s = Some b
  ∧ State.nodes (deleteSelectedNode s) = [a; c]
  ∧ State.edges (deleteSelectedNode s) = [edge_of "file-1" "save-1"]
  ∧ State.selectedNode (deleteSelectedNode s) = None.
Proof.
  cbv zeta.
  pose proof (deleteSelectedNode_cascade
    (State.setSelectedNode (Some (node_at "merge-1" "pdf_merge" "合併 PDF" 250 0))
       (state_of [node_at "file-1" "input_file" "檔案輸入" 0 0;
                  node_at "merge-1" "pdf_merge" "合併 PDF" 250 0;
                  node_at "save-1" "output_save" "儲存檔案" 500 0]
          [edge_of "file-1" "merge-1"; edge_of "merge-1" "save-1";
           edge_of "file-1" "save-1"]))
    (node_at "merge-1" "pdf_merge" "合併 PDF" 250 0) eq_refl)
    as (Hn & He & _ & _ & _ & Hsel & _).
  split; [reflexivity|]. split; [rewrite Hn; reflexivity|].
  split; [rewrite He; reflexivity|exact Hsel].
Defined.

(** ** C4 and C10: saving and loading *)

Lemma loadWorkflow_stored id payload s0 :
  State.nodes (loadWorkflow id (stored payload) s0) = loadedNodes payload
  ∧ State.edges (loadWorkflow id (stored payload) s0) = loadedEdges payload.
Proof. done. Qed.

(** C4, as the claim states it, fails on node types: a graph loaded from a
    stored workflow whose node has an empty [type] holds a node with an
    empty [nodeType]; saving falls back to the node's renderer type, and
    loading that payload yields the node type [workflowNode]. *)
Lemma save_load_nodeType_counterexample :
  let fetched :=
    Workflow.mk (Some "wf-1") (Some "demo") ""
      (Some [SavedNode.mk "n-1" "" (Pos.mk 10 20) None]) (Some []) in
  let s := loadWorkflow "wf-1" (stored fetched) State.initial in
  let s' := loadWorkflow "wf-1" (stored (saveWorkflow_payload s)) s in
  map (λ n, NodeData.nodeType (Node.data n)) (State.nodes s) = [Some ""]
  ∧ map (λ n, NodeData.nodeType (Node.data n)) (State.nodes s')
    = [Some "workflowNode"]
  ∧ map (λ n, NodeData.nodeType (Node.data n)) (State.nodes s')
    ≠ map (λ n, NodeData.nodeType (Node.data n)) (State.nodes s).
Proof. cbv zeta. split; [reflexivity|]. split; [reflexivity|]. discriminate. Qed.

(** C4 (amended): loading the payload that [saveWorkflow] builds yields
    nodes with the ids and positions of the original nodes, in order, and
    edges with the ids and endpoints of the original edges, in order.  A
    loaded node's type is the type the node was saved under: the original
    [nodeType] when that is set and not empty, the node's renderer type
    otherwise. *)
Theorem save_load_roundtrip s id s0 :
  let s' := loadWorkflow id (stored (saveWorkflow_payload s)) s0 in
  map Node.id (State.nodes s') = map Node.id (State.nodes s)
  ∧ map Node.position (State.nodes s') = map Node.position (State.nodes s)
  ∧ map (λ n, NodeData.nodeType (Node.data n)) (State.nodes s')
    = map (λ n, Some (saved_type n)) (State.nodes s)
  ∧ (Forall (λ n, is_Some (js_or (NodeData.nodeType (Node.data n)) None))
       (State.nodes s) →
     map (λ n, NodeData.nodeType (Node.data n)) (State.nodes s')
     = map (λ n, NodeData.nodeType (Node.data n)) (State.nodes s))
  ∧ map Edge.id (State.edges s') = map Edge.id (State.edges s)
  ∧ map (λ e, (Edge.source e, Edge.target e)) (State.edges s')
    = map (λ e, (Edge.source e, Edge.target e)) (State.edges s).
Proof.
  intros s'. unfold s'.
  destruct (loadWorkflow_stored id (saveWorkflow_payload s) s0) as [-> ->].
  unfold loadedNodes, loadedEdges, saveWorkflow_payload. cbn.
  rewrite !map_map. cbn. split_and!; try done.
  intros Hall. apply map_ext_in. intros n Hn%list_elem_of_In.
  rewrite list.Forall_forall in Hall. destruct (Hall n Hn) as [t Ht].
  apply js_or_None_Some in Ht as [Ht Hne]. rewrite Ht. cbn.
  by case_decide.
Qed.

Lemma save_load_roundtrip_witness :
  let a := node_at "file-1" "input_file" "檔案輸入" 100 100 in
  let b := node_at "save-1" "output_save" "儲存檔案" 350 100 in
  let s := state_of [a; b] [edge_of "file-1" "save-1"] in
  let s' := loadWorkflow "wf-1" (stored (saveWorkflow_payload s)) State.initial in
  map Node.id (State.nodes s') = ["file-1"; "save-1"]
  ∧ map Node.position (State.nodes s') = [Pos.mk 100 100; Pos.mk 350 100]
  ∧ map (λ n, NodeData.nodeType (Node.data n)) (State.nodes s')
    = [Some "input_file"; Some "output_save"]
  ∧ map (λ e, (Edge.source e, Edge.target e)) (State.edges s')
    = [("file-1", "save-1")].
Proof.
  cbv zeta.
  pose proof (save_load_roundtrip
    (state_of [node_at "file-1" "input_file" "檔案輸入" 100 100;
               node_at "save-1" "output_save" "儲存檔案" 350 100]
       [edge_of "file-1" "save-1"])
    "wf-1" State.initial) as (Hid & Hpos & Hty & _ & _ & Hends).
  split; [rewrite Hid; reflexivity|]. split; [rewrite Hpos; reflexivity|].
  split; [rewrite Hty; reflexivity|rewrite Hends; reflexivity].
Defined.

(** C10: a loaded workflow's edges carry no handle names, whatever the
    fetched connections held, so the payload saved from the just-loaded
    state gives every connection the handles [output] and [input]; ids and
    endpoints are the fetched ones. *)
Theorem load_discards_handles id workflow s0 :
  let s := loadWorkflow id (stored workflow) s0 in
  Forall (λ e, Edge.sourceHandle e = None ∧ Edge.targetHandle e = None)
    (State.edges s)
  ∧ Workflow.connections (saveWorkflow_payload s)
    = Some (map (λ c, SavedConnection.mk
                        (SavedConnection.id c)
                        (SavedConnection.source_node c)
                        (SavedConnection.target_node c)
                        (Some "output") (Some "input"))
              (default [] (Workflow.connections workflow))).
Proof.
  intros s. unfold s.
  destruct (loadWorkflow_stored id workflow s0) as [_ He].
  unfold saveWorkflow_payload. cbn [Workflow.connections]. rewrite He.
  unfold loadedEdges. split.
  - apply list.Forall_forall. intros e (c & -> & _)%list_elem_of_fmap. done.
  - by rewrite map_map.
Qed.

(** ** Auto-arrange: the levels do not depend on the positions *)

Section Reposition.
Variable g : Node.t → Pos.t.

Let moved (nodes : list Node.t) : list Node.t :=
  map (λ n, Node.with_position (g n) n) nodes.

Lemma inputNodeIds_reposition nodes edges :
  inputNodeIds (moved nodes) edges = inputNodeIds nodes edges.
Proof.
  unfold inputNodeIds, moved. f_equal.
  induction nodes as [|n ns IH]; [done|]. cbn [map List.filter].
  change (is_input_node edges (Node.with_position (g n) n))
    with (is_input_node edges n).
  destruct (is_input_node edges n); cbn [map]; by rewrite IH.
Qed.

Lemma add_unconnected_reposition nodes acc :
  add_unconnected (moved nodes) acc = add_unconnected nodes acc.
Proof.
  unfold add_unconnected, moved. revert acc.
  induction nodes as [|n ns IH]; intros acc; [done|].
  cbn [map fold_left]. rewrite IH. done.
Qed.

Lemma levels_of_reposition nodes edges :
  levels_of (moved nodes) edges = levels_of nodes edges.
Proof.
  unfold levels_of.
  by rewrite inputNodeIds_reposition, add_unconnected_reposition.
Qed.
End Reposition.

Lemma autoArrangeNodes_nodes s :
  State.nodes (autoArrangeNodes s)
  = map (λ n, Node.with_position
                (default (Node.position n)
                   (newPositions_of (levels_of (State.nodes s) (State.edges s))
                    !! Node.id n)) n)
        (State.nodes s).
Proof.
  unfold autoArrangeNodes. case_bool_decide as Hnil; [|done].
  by rewrite Hnil.
Qed.

Lemma autoArrangeNodes_edges s :
  State.edges (autoArrangeNodes s) = State.edges s.
Proof. unfold autoArrangeNodes. by case_bool_decide. Qed.

(** ** C9: auto-arrange is idempotent *)

(** C9: running auto-arrange on a graph that auto-arrange has just laid
    out computes the same levels and leaves the state, hence every
    x-coordinate, as it is.  This holds for every graph, with or without
    disconnected nodes. *)
Theorem autoArrangeNodes_idempotent s :
  let s1 := autoArrangeNodes s in
  levels_of (State.nodes s1) (State.edges s1)
  = levels_of (State.nodes s) (State.edges s)
  ∧ autoArrangeNodes s1 = s1
  ∧ map (λ n, Pos.x (Node.position n)) (State.nodes (autoArrangeNodes s1))
    = map (λ n, Pos.x (Node.position n)) (State.nodes s1).
Proof.
  intros s1.
  assert (levels_of (State.nodes s1) (State.edges s1)
          = levels_of (State.nodes s) (State.edges s)) as Hlevels.
  { unfold s1. rewrite autoArrangeNodes_edges, autoArrangeNodes_nodes.
    apply (levels_of_reposition
             (λ n, default (Node.position n)
                     (newPositions_of (levels_of (State.nodes s) (State.edges s))
                      !! Node.id n))). }
  assert (autoArrangeNodes s1 = s1) as Hfix.
  { unfold autoArrangeNodes at 1. case_bool_decide as Hnil; [done|].
    rewrite Hlevels. unfold s1, autoArrangeNodes.
    case_bool_decide as Hnil0.
    - destruct s as [nodes ?]. cbn in *. subst nodes. done.
    - destruct s as [nodes ?]. unfold State.setNodes. cbn. f_equal.
      rewrite map_map. apply map_ext. intros n. cbn.
      unfold Node.with_position. cbn. f_equal.
      by destruct (newPositions_of _ !! Node.id n). }
  split; [done|]. split; [done|]. by rewrite Hfix.
Qed.

(** ** Auto-arrange: every node sits in exactly one level *)

Lemma set_of_array_NoDup l : NoDup (set_of_array l).
Proof.
  unfold set_of_array.
  assert (∀ acc : list string, NoDup acc →
    NoDup (fold_left (λ (acc : list string) x,
                        if decide (x ∈ acc) then acc else acc ++ [x]) l acc)) as H.
  { induction l as [|x l IH]; intros acc Hacc; [done|]. cbn. apply IH.
    case_decide; [done|]. apply NoDup_app. split_and!; [done| |apply NoDup_singleton].
    intros y Hy ->%list_elem_of_singleton. done. }
  apply H, NoDup_nil_2.
Qed.

Lemma push_target_NoDup visited (es : list Edge.t) (acc : list string) :
  NoDup acc → NoDup (fold_left (push_target visited) es acc).
Proof.
  revert acc. induction es as [|e es IH]; intros acc Hacc; [done|]. cbn.
  apply IH. unfold push_target. case_decide as Hd; [|done].
  apply NoDup_app. split_and!; [done| |apply NoDup_singleton].
  intros y Hy ->%list_elem_of_singleton. tauto.
Qed.

Lemma nextLevel_of_NoDup edges visited currentLevel :
  NoDup (nextLevel_of edges visited currentLevel).
Proof.
  unfold nextLevel_of.
  assert (∀ acc : list string, NoDup acc →
    NoDup (fold_left
             (λ nextLevel nodeId,
                fold_left (push_target visited)
                  (filter (λ e, Edge.source e = nodeId) edges) nextLevel)
             currentLevel acc)) as H.
  { induction currentLevel as [|c cs IH]; intros acc Hacc; [done|]. cbn.
    by apply IH, push_target_NoDup. }
  apply H, NoDup_nil_2.
Qed.

Lemma levels_ok_push visited levels (level : list string) :
  levels_ok (visited, levels) → NoDup level →
  (∀ x, x ∈ level → x ∉ visited) →
  levels_ok (visited ∪ list_to_set level, levels ++ [level]).
Proof.
  intros [Hnd Hvis] Hlevel Hfresh. unfold levels_ok. cbn in *.
  rewrite concat_app. cbn. rewrite app_nil_r. split.
  - apply NoDup_app. split_and!; [done| |done].
    intros x Hx Hx'. apply (Hfresh x Hx'). by apply Hvis.
  - intros x. rewrite elem_of_union, elem_of_list_to_set, elem_of_app, Hvis. done.
Qed.

Lemma bfs_levels_ok edges visited levels currentLevel :
  levels_ok (visited, levels) → NoDup currentLevel →
  (∀ x, x ∈ currentLevel → x ∉ visited) →
  levels_ok (bfs edges visited levels currentLevel).
Proof.
  funelim (bfs edges visited levels currentLevel); simp bfs; try done.
  intros Hok Hnd Hfresh.
  match goal with IH : levels_ok _ → _ |- _ => apply IH end.
  - by apply levels_ok_push.
  - apply nextLevel_of_NoDup.
  - intros x Hx. by apply nextLevel_of_fresh in Hx as [_ ?].
Qed.

Lemma add_unconnected_mono nodes acc x :
  x ∈ acc.1 → x ∈ (add_unconnected nodes acc).1.
Proof.
  unfold add_unconnected. revert acc.
  induction nodes as [|n ns IH]; intros [visited levels] Hx; [done|].
  cbn [fold_left]. apply IH. case_decide; cbn in *; [done|].
  by apply elem_of_union_l.
Qed.

Lemma add_unconnected_levels_ok nodes acc :
  levels_ok acc →
  levels_ok (add_unconnected nodes acc)
  ∧ ∀ n, n ∈ nodes → Node.id n ∈ (add_unconnected nodes acc).1.
Proof.
  revert acc.
  induction nodes as [|n ns IH]; intros [visited levels] Hok.
  - split; [done|]. intros n Hn. by apply elem_of_nil in Hn.
  - change (add_unconnected (n :: ns) (visited, levels))
      with (add_unconnected ns
              (if decide (Node.id n ∈ visited) then (visited, levels)
               else (visited ∪ {[Node.id n]}, levels ++ [[Node.id n]]))).
    case_decide as Hin.
    + destruct (IH (visited, levels) Hok) as [Hok' Hall]. split; [done|].
      intros m [->|Hm]%elem_of_cons; [|by apply Hall].
      by apply add_unconnected_mono.
    + assert (levels_ok (visited ∪ {[Node.id n]}, levels ++ [[Node.id n]])) as Hok1.
      { replace ({[Node.id n]} : gset string)
          with (list_to_set [Node.id n] : gset string)
          by (cbn; apply (right_id_L ∅ (∪))).
        apply levels_ok_push; [done|apply NoDup_singleton|].
        by intros x ->%list_elem_of_singleton. }
      destruct (IH _ Hok1) as [Hok' Hall]. split; [done|].
      intros m [->|Hm]%elem_of_cons; [|by apply Hall].
      apply add_unconnected_mono. cbn.
      apply elem_of_union_r. by apply elem_of_singleton.
Qed.

(** No id occurs twice across the levels, and every node's id occurs. *)
Lemma levels_of_partition nodes edges :
  NoDup (concat (levels_of nodes edges))
  ∧ ∀ n, n ∈ nodes → Node.id n ∈ concat (levels_of nodes edges).
Proof.
  unfold levels_of.
  assert (levels_ok (bfs edges ∅ [] (inputNodeIds nodes edges))) as Hbfs.
  { apply bfs_levels_ok.
    - split; [apply NoDup_nil_2|]. intros x. cbn. split.
      + intros Hx. by apply not_elem_of_empty in Hx.
      + intros Hx. by apply elem_of_nil in Hx.
    - apply set_of_array_NoDup.
    - intros x _. apply not_elem_of_empty. }
  destruct (add_unconnected_levels_ok nodes _ Hbfs) as [[Hnd Hvis] Hall].
  split; [done|]. intros n Hn. by apply Hvis, Hall.
Qed.

(** ** Auto-arrange: the positions written for the levels *)

Lemma level_position_simpl levelIndex len nodeIndex :
  level_position levelIndex len nodeIndex
  = Pos.mk (START_X + Z.of_nat levelIndex * HORIZONTAL_GAP)
           (START_Y + Z.of_nat nodeIndex * VERTICAL_GAP).
Proof. unfold level_position. f_equal. lia. Qed.

Section PlaceLevel.
Variables (levelIndex len : nat).

Let place (newPositions : gmap string Pos.t) (nodeIndex : nat)
    (nodeId : string) : gmap string Pos.t :=
  <[nodeId := level_position levelIndex len nodeIndex]> newPositions.

Lemma place_level_miss (level : list string) i0 m nid :
  nid ∉ level → forEach_i place i0 level m !! nid = m !! nid.
Proof.
  revert i0 m. induction level as [|x l IH]; intros i0 m Hnot; [done|].
  cbn. rewrite IH by (intros ?; apply Hnot; by right).
  unfold place. apply lookup_insert_ne. intros ->. apply Hnot. left.
Qed.

Lemma place_level_hit (level : list string) i0 m j nid :
  NoDup level → level !! j = Some nid →
  forEach_i place i0 level m !! nid
  = Some (level_position levelIndex len (i0 + j)).
Proof.
  revert i0 m j. induction level as [|x l IH]; intros i0 m j Hnd Hj; [done|].
  apply NoDup_cons in Hnd as [Hx Hnd]. cbn. destruct j as [|j].
  - injection Hj as ->. rewrite place_level_miss by done.
    unfold place. rewrite lookup_insert_eq. by rewrite Nat.add_0_r.
  - cbn in Hj. rewrite (IH _ _ j) by done. do 2 f_equal. lia.
Qed.
End PlaceLevel.

Lemma newPositions_miss (levels : list (list string)) l0
    (m : gmap string Pos.t) nid :
  nid ∉ concat levels →
  forEach_i
    (λ newPositions levelIndex level,
       forEach_i
         (λ newPositions nodeIndex nodeId,
            <[nodeId := level_position levelIndex (length level) nodeIndex]>
              newPositions)
         0%nat level newPositions)
    l0 levels m !! nid = m !! nid.
Proof.
  revert l0 m. induction levels as [|lv lvs IH]; intros l0 m Hnot; [done|].
  cbn in *. rewrite elem_of_app in Hnot.
  rewrite IH by tauto. apply place_level_miss. tauto.
Qed.

Lemma newPositions_hit (levels : list (list string)) l0
    (m : gmap string Pos.t) li level ni nid :
  NoDup (concat levels) →
  levels !! li = Some level → level !! ni = Some nid →
  forEach_i
    (λ newPositions levelIndex level,
       forEach_i
         (λ newPositions nodeIndex nodeId,
            <[nodeId := level_position levelIndex (length level) nodeIndex]>
              newPositions)
         0%nat level newPositions)
    l0 levels m !! nid
  = Some (level_position (l0 + li) (length level) ni).
Proof.
  revert l0 m li. induction levels as [|lv lvs IH]; intros l0 m li Hnd Hli Hni;
    [done|].
  cbn in Hnd. apply NoDup_app in Hnd as (Hlv & Hdisj & Hlvs). cbn.
  destruct li as [|li].
  - injection Hli as ->.
    assert (nid ∈ level) as Hin by (apply list_elem_of_lookup; eauto).
    rewrite newPositions_miss by (by apply Hdisj).
    rewrite (place_level_hit _ _ _ _ _ ni) by done.
    by rewrite Nat.add_0_r.
  - cbn in Hli. rewrite (IH _ _ li) by done. do 2 f_equal. lia.
Qed.

Lemma newPositions_of_lookup levels li level ni nid :
  NoDup (concat levels) →
  levels !! li = Some level → level !! ni = Some nid →
  newPositions_of levels !! nid
  = Some (Pos.mk (START_X + Z.of_nat li * HORIZONTAL_GAP)
                 (START_Y + Z.of_nat ni * VERTICAL_GAP)).
Proof.
  intros Hnd Hli Hni. unfold newPositions_of.
  rewrite (newPositions_hit _ _ _ li level ni) by done.
  by rewrite level_position_simpl.
Qed.

Lemma sum_Z_stack a g k len :
  2 * sum_Z (map (λ i, a + Z.of_nat i * g) (seq k len))
  = Z.of_nat len * (2 * a + (2 * Z.of_nat k + Z.of_nat len - 1) * g).
Proof.
  revert k. induction len as [|len IH]; intros k; [cbn; lia|].
  cbn [seq map sum_Z foldr]. fold (sum_Z (map (λ i, a + Z.of_nat i * g) (seq (S k) len))).
  specialize (IH (S k)). nia.
Qed.

Lemma level_ys_stack levels li level :
  NoDup (concat levels) → levels !! li = Some level →
  level_ys (newPositions_of levels) level
  = map (λ i, START_Y + Z.of_nat i * VERTICAL_GAP) (seq 0 (length level)).
Proof.
  intros Hnd Hli. unfold level_ys. apply list_eq. intros i.
  rewrite !list_lookup_fmap.
  destruct (level !! i) as [nid|] eqn:Hi.
  - rewrite (lookup_seq_lt _ _ i) by (by eapply lookup_lt_Some). cbn.
    by rewrite (newPositions_of_lookup _ _ _ _ _ Hnd Hli Hi).
  - rewrite lookup_seq_ge; [done|]. by apply lookup_ge_None.
Qed.

(** ** C2: the coordinates that auto-arrange assigns *)

(** C2, as the claim states it, fails on the common baseline: with two
    input nodes feeding one merge node the levels are [file-1, file-2] and
    [merge-1]; the first level gets the y-coordinates 100 and 220 (mean
    160), the second 100 (mean 100). *)
Lemma autoArrangeNodes_baseline_counterexample :
  let a := node_at "file-1" "input_file" "檔案輸入" 0 0 in
  let b := node_at "file-2" "input_file" "檔案輸入" 0 0 in
  let c := node_at "merge-1" "pdf_merge" "合併 PDF" 0 0 in
  let s := state_of [a; b; c]
             [edge_of "file-1" "merge-1"; edge_of "file-2" "merge-1"] in
  let levels := levels_of (State.nodes s) (State.edges s) in
  levels = [["file-1"; "file-2"]; ["merge-1"]]
  ∧ map Node.position (State.nodes (autoArrangeNodes s))
    = [Pos.mk 100 100; Pos.mk 100 220; Pos.mk 350 100]
  ∧ level_ys (newPositions_of levels) ["file-1"; "file-2"] = [100; 220]
  ∧ level_ys (newPositions_of levels) ["merge-1"] = [100]
  ∧ ¬ same_mean (level_ys (newPositions_of levels) ["file-1"; "file-2"])
                (level_ys (newPositions_of levels) ["merge-1"]).
Proof.
  cbv zeta. split_and!; try (vm_compute; reflexivity).
  vm_compute. discriminate.
Qed.

(** C2 (amended): auto-arrange moves every node to the position written
    for its id; every node's id sits in a level, and the id at index
    [nodeIndex] of the level with index [levelIndex] gets
    x = START_X + levelIndex * HORIZONTAL_GAP and
    y = START_Y + nodeIndex * VERTICAL_GAP, an id having one level and one
    index in it.  So the nodes of a level are
    stacked downwards from START_Y with spacing VERTICAL_GAP: every level
    starts at the same y, and the mean y of a level of [len] nodes is
    START_Y + (len - 1) * VERTICAL_GAP / 2, which grows with [len]. *)
Theorem autoArrangeNodes_layout s :
  let levels := levels_of (State.nodes s) (State.edges s) in
  let arranged := newPositions_of levels in
  State.nodes (autoArrangeNodes s)
  = map (λ n, Node.with_position
                (default (Node.position n) (arranged !! Node.id n)) n)
        (State.nodes s)
  ∧ (∀ n, n ∈ State.nodes s →
       ∃ levelIndex level nodeIndex,
         levels !! levelIndex = Some level
         ∧ level !! nodeIndex = Some (Node.id n))
  ∧ (∀ levelIndex level nodeIndex nodeId,
       levels !! levelIndex = Some level → level !! nodeIndex = Some nodeId →
       arranged !! nodeId
       = Some (Pos.mk (START_X + Z.of_nat levelIndex * HORIZONTAL_GAP)
                      (START_Y + Z.of_nat nodeIndex * VERTICAL_GAP)))
  ∧ (∀ i level j i' level' j' nodeId,
       levels !! i = Some level → level !! j = Some nodeId →
       levels !! i' = Some level' → level' !! j' = Some nodeId →
       i = i' ∧ j = j')
  ∧ (∀ levelIndex level,
       levels !! levelIndex = Some level →
       level_ys arranged level
       = map (λ i, START_Y + Z.of_nat i * VERTICAL_GAP) (seq 0 (length level))
       ∧ 2 * sum_Z (level_ys arranged level)
         = Z.of_nat (length level)
           * (2 * START_Y + (Z.of_nat (length level) - 1) * VERTICAL_GAP)).
Proof.
  intros levels arranged.
  destruct (levels_of_partition (State.nodes s) (State.edges s)) as [Hnd Hall].
  fold levels in Hnd, Hall. split_and!.
  - apply autoArrangeNodes_nodes.
  - intros n Hn. specialize (Hall n Hn).
    apply list_elem_of_In, in_concat in Hall as (level & Hlevel & Hin).
    apply list_elem_of_In, list_elem_of_lookup in Hlevel as [levelIndex Hlevel].
    apply list_elem_of_In, list_elem_of_lookup in Hin as [nodeIndex Hin].
    by exists levelIndex, level, nodeIndex.
  - intros levelIndex level nodeIndex nodeId Hli Hni.
    by apply (newPositions_of_lookup levels levelIndex level).
  - intros i level j i' level' j' nodeId Hi Hj Hi' Hj'.
    pose proof (newPositions_of_lookup levels i level j nodeId Hnd Hi Hj) as H1.
    pose proof (newPositions_of_lookup levels i' level' j' nodeId Hnd Hi' Hj') as H2.
    rewrite H1 in H2. injection H2 as Hx Hy.
    unfold HORIZONTAL_GAP in Hx. unfold VERTICAL_GAP in Hy. lia.
  - intros levelIndex level Hli. unfold arranged.
    rewrite (level_ys_stack levels levelIndex level Hnd Hli).
    split; [done|]. rewrite sum_Z_stack. lia.
Qed.

Lemma autoArrangeNodes_layout_witness :
  let a := node_at "file-1" "input_file" "檔案輸入" 0 0 in
  let b := node_at "split-1" "pdf_split" "分割 PDF" 40 300 in
  let c := node_at "save-1" "output_save" "儲存檔案" 7 9 in
  let s := state_of [a; b; c]
             [edge_of "file-1" "split-1"; edge_of "split-1" "save-1"] in
  levels_of (State.nodes s) (State.edges s)
  = [["file-1"]; ["split-1"]; ["save-1"]]
  ∧ newPositions_of (levels_of (State.nodes s) (State.edges s)) !! "save-1"
    = Some (Pos.mk 600 100)
  ∧ map Node.position (State.nodes (autoArrangeNodes s))
    = [Pos.mk 100 100; Pos.mk 350 100; Pos.mk 600 100].
Proof.
  cbv zeta.
  pose proof (autoArrangeNodes_layout
    (state_of [node_at "file-1" "input_file" "檔案輸入" 0 0;
               node_at "split-1" "pdf_split" "分割 PDF" 40 300;
               node_at "save-1" "output_save" "儲存檔案" 7 9]
       [edge_of "file-1" "split-1"; edge_of "split-1" "save-1"]))
    as (Hnodes & _ & Hpos & _ & _).
  split; [vm_compute; reflexivity|]. split.
  - apply (Hpos 2%nat ["save-1"] 0%nat "save-1"); vm_compute; reflexivity.
  - rewrite Hnodes. vm_compute. reflexivity.
Defined.

(** ** Scenarios of the specification, run on the model *)

(** An input node connects to an output node; the reverse attempt is
    stopped by the allows-outgoing check, the first one in line. *)
Example scenario_input_to_output :
  let a := node_at "file-1" "input_file" "檔案輸入" 0 0 in
  let b := node_at "save-1" "output_save" "儲存檔案" 100 0 in
  validateConnection [a; b] [] "file-1" "save-1" = Validation.ok
  ∧ validateConnection [a; b] [] "save-1" "file-1"
    = Validation.rejected "「儲存檔案」不能作為輸出來源".
Proof. cbv zeta. split; reflexivity. Qed.

(** Three sources into one [ai_compare] node: two connections are
    accepted, the third is rejected with the message that names the limit. *)
Example scenario_compare_third_input :
  let nodes := [ node_at "a" "input_file" "甲" 0 0;
                 node_at "b" "input_file" "乙" 0 0;
                 node_at "c" "input_file" "丙" 0 0;
                 node_at "cmp" "ai_compare" "AI 合約比對" 0 0 ] in
  let s0 := state_of nodes [] in
  let s1 := onConnect (connection_of "a" "cmp") s0 in
  let s2 := onConnect (connection_of "b" "cmp") s1 in
  let s3 := onConnect (connection_of "c" "cmp") s2 in
  map (λ e, (Edge.source e, Edge.target e)) (State.edges s2)
  = [("a", "cmp"); ("b", "cmp")]
  ∧ State.edges s3 = State.edges s2
  ∧ State.connectionError s3
    = Some "「AI 合約比對」已連接 2 個輸入（最多 2 個）".
Proof. cbv zeta. split_and!; vm_compute; reflexivity. Qed.

(** A chain of three nodes is laid out on one row, left to right. *)
Example scenario_chain_layout :
  let s := state_of
             [ node_at "A" "input_file" "檔案輸入" 5 5;
               node_at "B" "pdf_compress" "壓縮 PDF" 5 5;
               node_at "C" "pdf_split" "分割 PDF" 5 5 ]
             [edge_of "A" "B"; edge_of "B" "C"] in
  levels_of (State.nodes s) (State.edges s) = [["A"]; ["B"]; ["C"]]
  ∧ map Node.position (State.nodes (autoArrangeNodes s))
    = [Pos.mk 100 100; Pos.mk 350 100; Pos.mk 600 100].
Proof. cbv zeta. split; vm_compute; reflexivity. Qed.

(** A node that is reachable only through a cycle is not reached by the
    traversal and gets a level of its own after it. *)
Example scenario_cycle_layout :
  let s := state_of
             [ node_at "A" "input_file" "檔案輸入" 0 0;
               node_at "B" "pdf_merge" "合併 PDF" 0 0;
               node_at "X" "pdf_merge" "合併 PDF" 0 0;
               node_at "Y" "pdf_merge" "合併 PDF" 0 0 ]
             [edge_of "A" "B"; edge_of "X" "Y"; edge_of "Y" "X"] in
  levels_of (State.nodes s) (State.edges s) = [["A"]; ["B"]; ["X"]; ["Y"]].
Proof. cbv zeta. vm_compute. reflexivity. Qed.

(** * Further properties of the editor *)

(** ** The validator *)

Lemma source_blocked_false n :
  source_blocked n = false ↔
  (nodeType_of n ∉ Object_prototype_names)
  ∧ ∀ r, connectionRules !! nodeType_of n = Some r →
         ConnectionRule.canHaveOutput r = true.
Proof.
  unfold source_blocked, connectionRules_at.
  destruct (connectionRules !! nodeType_of n) as [r|] eqn:Hr.
  - split.
    + intros Hb. split.
      * intros Hin%Object_prototype_names_no_entry. congruence.
      * intros r' [= <-]. by destruct (ConnectionRule.canHaveOutput r).
    + intros [_ H]. by rewrite (H r eq_refl).
  - case_bool_decide as Hin.
    + split; [done|]. by intros [? _].
    + split; [|done]. intros _. by split.
Qed.

Lemma target_blocked_false n :
  target_blocked n = false ↔
  (nodeType_of n ∉ Object_prototype_names)
  ∧ ∀ r, connectionRules !! nodeType_of n = Some r →
         ConnectionRule.canHaveInput r = true.
Proof.
  unfold target_blocked, connectionRules_at.
  destruct (connectionRules !! nodeType_of n) as [r|] eqn:Hr.
  - split.
    + intros Hb. split.
      * intros Hin%Object_prototype_names_no_entry. congruence.
      * intros r' [= <-]. by destruct (ConnectionRule.canHaveInput r).
    + intros [_ H]. by rewrite (H r eq_refl).
  - case_bool_decide as Hin.
    + split; [done|]. by intros [? _].
    + split; [|done]. intros _. by split.
Qed.

Lemma capacity_reached_false edges n target :
  capacity_reached edges n target = false ↔
  ∀ r, connectionRules !! nodeType_of n = Some r →
       0 < ConnectionRule.maxInputs r →
       Z.of_nat (currentInputCount edges target) < ConnectionRule.maxInputs r.
Proof.
  unfold capacity_reached, connectionRules_at.
  destruct (connectionRules !! nodeType_of n) as [r|] eqn:Hr.
  - split.
    + intros Hb r' [= <-] Hpos. rewrite bool_decide_eq_true_2 in Hb by done.
      cbn in Hb. apply bool_decide_eq_false in Hb. lia.
    + intros H. case_bool_decide as Hpos; cbn; [|done].
      apply bool_decide_eq_false_2. specialize (H r eq_refl Hpos). lia.
  - case_bool_decide; split; done.
Qed.

(** X1: a connection is accepted exactly when both ids resolve to nodes,
    the ids differ, no edge joins them in that direction yet, neither
    node's type is named like a member of [Object.prototype] (for which the
    table lookup returns an inherited value that the checks take for a
    rule), the source node's rule (if the table has one for its type)
    allows outgoing edges, and the target node's rule (if the table has
    one) allows incoming edges and, when its [maxInputs] is positive, still
    has room. *)
Theorem validateConnection_accepts_iff nodes edges source target :
  validateConnection nodes edges source target = Validation.ok ↔
  ∃ sn tn,
    find_node source nodes = Some sn
    ∧ find_node target nodes = Some tn
    ∧ source ≠ target
    ∧ (∀ e, e ∈ edges → ¬ (Edge.source e = source ∧ Edge.target e = target))
    ∧ (nodeType_of sn ∉ Object_prototype_names)
    ∧ (nodeType_of tn ∉ Object_prototype_names)
    ∧ (∀ r, connectionRules !! nodeType_of sn = Some r →
            ConnectionRule.canHaveOutput r = true)
    ∧ (∀ r, connectionRules !! nodeType_of tn = Some r →
            ConnectionRule.canHaveInput r = true
            ∧ (0 < ConnectionRule.maxInputs r →
               Z.of_nat (currentInputCount edges target)
               < ConnectionRule.maxInputs r)).
Proof.
  split.
  - intros Hok.
    assert (Validation.valid (validateConnection nodes edges source target) = true)
      as Hv by (by rewrite Hok).
    apply validateConnection_valid in Hv
      as (sn & tn & Hs & Ht & Hsb & Htb & Hcap & Hne & Hnone).
    apply source_blocked_false in Hsb as [Hsn Hout].
    apply target_blocked_false in Htb as [Htn Hin].
    exists sn, tn. split_and!; try done.
    + by apply existingEdge_None.
    + intros r Hr. split; [by apply Hin|].
      by apply (proj1 (capacity_reached_false _ _ _) Hcap).
  - intros (sn & tn & Hs & Ht & Hne & Hnone & Hsn & Htn & Hout & Hin).
    rewrite (validateConnection_found _ _ _ _ _ _ Hs Ht).
    unfold first_failing, checks_in_order.
    rewrite (proj2 (source_blocked_false sn)) by done.
    rewrite (proj2 (target_blocked_false tn))
      by (split; [done|]; intros r Hr; by apply Hin).
    rewrite (proj2 (capacity_reached_false edges tn target))
      by (intros r Hr; by apply Hin).
    apply existingEdge_None in Hnone. rewrite Hnone.
    rewrite (bool_decide_eq_false_2 (source = target)) by done.
    by rewrite (bool_decide_eq_false_2 (is_Some None)) by (intros [? [=]]).
Qed.

(** X2: a node whose type forbids outgoing edges is never accepted as a
    source, whatever the target and the edges; a node whose type forbids
    incoming edges is never accepted as a target, whatever the source. *)
Theorem validateConnection_blocked_endpoint nodes edges n r :
  find_node (Node.id n) nodes = Some n →
  connectionRules !! nodeType_of n = Some r →
  (ConnectionRule.canHaveOutput r = false →
   ∀ target,
     Validation.valid (validateConnection nodes edges (Node.id n) target) = false
     ∧ (is_Some (find_node target nodes) →
        validateConnection nodes edges (Node.id n) target
        = Validation.rejected (msg_no_output (label_of n))))
  ∧ (ConnectionRule.canHaveInput r = false →
     ∀ source,
       Validation.valid (validateConnection nodes edges source (Node.id n)) = false).
Proof.
  intros Hn Hr. split.
  - intros Hout target.
    assert (source_blocked n = true) as Hsb.
    { unfold source_blocked.
      by rewrite (proj2 (connectionRules_at_own _ _) Hr), Hout. }
    destruct (find_node target nodes) as [tn|] eqn:Ht.
    + rewrite (validateConnection_found _ _ _ _ _ _ Hn Ht).
      unfold first_failing, checks_in_order. rewrite Hsb. done.
    + rewrite validateConnection_not_found by (by right).
      split; [done|]. intros [? [=]].
  - intros Hin source.
    assert (target_blocked n = true) as Htb.
    { unfold target_blocked.
      by rewrite (proj2 (connectionRules_at_own _ _) Hr), Hin. }
    destruct (find_node source nodes) as [sn|] eqn:Hs.
    + rewrite (validateConnection_found _ _ _ _ _ _ Hs Hn).
      unfold first_failing, checks_in_order. rewrite Htb.
      by destruct (source_blocked sn).
    + by rewrite validateConnection_not_found by (by left).
Qed.

Lemma validateConnection_blocked_endpoint_witness :
  let a := node_at "save-1" "output_save" "儲存檔案" 0 0 in
  let b := node_at "file-1" "input_file" "檔案輸入" 0 0 in
  Validation.valid (validateConnection [a; b] [] "save-1" "file-1") = false
  ∧ Validation.valid (validateConnection [a; b] [] "nowhere" "file-1") = false.
Proof.
  cbv zeta. split.
  - apply (validateConnection_blocked_endpoint
             [node_at "save-1" "output_save" "儲存檔案" 0 0;
              node_at "file-1" "input_file" "檔案輸入" 0 0] []
             (node_at "save-1" "output_save" "儲存檔案" 0 0)
             (ConnectionRule.rule true false (-1) 0)).
    + reflexivity.
    + reflexivity.
    + reflexivity.
  - apply (validateConnection_blocked_endpoint
             [node_at "save-1" "output_save" "儲存檔案" 0 0;
              node_at "file-1" "input_file" "檔案輸入" 0 0] []
             (node_at "file-1" "input_file" "檔案輸入" 0 0)
             (ConnectionRule.rule false true 0 (-1))).
    + reflexivity.
    + reflexivity.
    + reflexivity.
Defined.

(** X27: when the types of both nodes have no entry in the rule table and
    are not named like a member of [Object.prototype], no rule check
    rejects the attempt: it is rejected for a missing node, for a
    self-connection or for a duplicate edge, and accepted otherwise. *)
Theorem validateConnection_unlisted_type nodes edges source target :
  (∀ sn, find_node source nodes = Some sn →
         connectionRules !! nodeType_of sn = None
         ∧ nodeType_of sn ∉ Object_prototype_names) →
  (∀ tn, find_node target nodes = Some tn →
         connectionRules !! nodeType_of tn = None
         ∧ nodeType_of tn ∉ Object_prototype_names) →
  validateConnection nodes edges source target
  = if bool_decide (is_Some (find_node source nodes)
                    ∧ is_Some (find_node target nodes))
    then if bool_decide (source = target) then Validation.rejected msg_self
         else if bool_decide (is_Some (existingEdge edges source target))
              then Validation.rejected msg_duplicate
              else Validation.ok
    else Validation.rejected msg_not_found.
Proof.
  intros Hs Ht.
  destruct (find_node source nodes) as [sn|] eqn:Hfs; cycle 1.
  { rewrite validateConnection_not_found by (by left).
    rewrite bool_decide_eq_false_2; [done|]. intros [H _]. by apply is_Some_None in H. }
  destruct (find_node target nodes) as [tn|] eqn:Hft; cycle 1.
  { rewrite validateConnection_not_found by (by right).
    rewrite bool_decide_eq_false_2; [done|]. intros [_ H]. by apply is_Some_None in H. }
  rewrite bool_decide_eq_true_2 by (split; eauto).
  rewrite (validateConnection_found _ _ _ _ _ _ Hfs Hft).
  destruct (Hs sn eq_refl) as [Hsn Hsp]. destruct (Ht tn eq_refl) as [Htn Htp].
  unfold first_failing, checks_in_order, source_blocked, target_blocked,
    capacity_reached.
  rewrite (connectionRules_at_unlisted _ Hsn Hsp),
    (connectionRules_at_unlisted _ Htn Htp). cbn.
  destruct (bool_decide (source = target)); [done|].
  by destruct (bool_decide (is_Some (existingEdge edges source target))).
Qed.

Lemma validateConnection_unlisted_type_witness :
  let a := node_at "x-1" "pdf_rotate" "旋轉" 0 0 in
  let b := node_at "y-1" "pdf_stamp" "蓋章" 0 0 in
  connectionRules !! "pdf_rotate" = None
  ∧ connectionRules !! "pdf_stamp" = None
  ∧ validateConnection [a; b] [] "x-1" "y-1" = Validation.ok
  ∧ validateConnection [a; b] [edge_of "x-1" "y-1"] "x-1" "y-1"
    = Validation.rejected msg_duplicate.
Proof.
  cbv zeta.
  assert (∀ t, t = "pdf_rotate" ∨ t = "pdf_stamp" →
               connectionRules !! t = None ∧ t ∉ Object_prototype_names)
    as Hfree.
  { intros t [-> | ->]; (split; [reflexivity|]);
      apply (bool_decide_unpack _); by vm_compute. }
  split; [reflexivity|]. split; [reflexivity|]. split.
  - rewrite validateConnection_unlisted_type; [reflexivity| |].
    + intros sn [= <-]. apply Hfree. by left.
    + intros tn [= <-]. apply Hfree. by right.
  - rewrite validateConnection_unlisted_type; [reflexivity| |].
    + intros sn [= <-]. apply Hfree. by left.
    + intros tn [= <-]. apply Hfree. by right.
Defined.

Lemma find_node_id nid nodes n : find_node nid nodes = Some n → Node.id n = nid.
Proof.
  unfold find_node. intros H. apply find_some in H as [_ H].
  by apply bool_decide_eq_true in H.
Qed.

Lemma find_node_elem nid nodes n : find_node nid nodes = Some n → n ∈ nodes.
Proof.
  unfold find_node. intros H. apply find_some in H as [H _].
  by apply list_elem_of_In.
Qed.

Lemma find_node_map (g : Node.t → Node.t) nodes nid :
  (∀ n, Node.id (g n) = Node.id n) →
  find_node nid (map g nodes) = g <$> find_node nid nodes.
Proof.
  intros Hid. unfold find_node.
  induction nodes as [|n ns IH]; [done|]. cbn. rewrite Hid.
  by case_bool_decide.
Qed.

(** The validator reads ids, node types and labels of the nodes only. *)
Lemma validateConnection_map (g : Node.t → Node.t) nodes edges source target :
  (∀ n, Node.id (g n) = Node.id n) →
  (∀ n, n ∈ nodes → nodeType_of (g n) = nodeType_of n) →
  (Validation.valid (validateConnection (map g nodes) edges source target)
   = Validation.valid (validateConnection nodes edges source target))
  ∧ ((∀ n, n ∈ nodes → label_of (g n) = label_of n) →
     validateConnection (map g nodes) edges source target
     = validateConnection nodes edges source target).
Proof.
  intros Hid Hty. unfold validateConnection. rewrite !find_node_map by done.
  destruct (find_node source nodes) as [sn|] eqn:Hs; [|done].
  destruct (find_node target nodes) as [tn|] eqn:Ht; [|done]. cbn.
  apply find_node_elem in Hs, Ht.
  rewrite (Hty sn Hs), (Hty tn Ht). split.
  - repeat (case_match; try done).
  - intros Hlbl. by rewrite (Hlbl sn Hs), (Hlbl tn Ht).
Qed.

(** X3: arranging the canvas and editing a parameter never change the
    validator's answer, and renaming a node changes at most the wording of
    a rejection, never the verdict. *)
Theorem validateConnection_edit_invariant s source target :
  validateConnection (State.nodes (autoArrangeNodes s))
    (State.edges (autoArrangeNodes s)) source target
  = validateConnection (State.nodes s) (State.edges s) source target
  ∧ (∀ paramId value,
       validateConnection (State.nodes (updateParam paramId value s))
         (State.edges (updateParam paramId value s)) source target
       = validateConnection (State.nodes s) (State.edges s) source target)
  ∧ (∀ value,
       Validation.valid
         (validateConnection (State.nodes (onLabelChange value s))
            (State.edges (onLabelChange value s)) source target)
       = Validation.valid
           (validateConnection (State.nodes s) (State.edges s) source target)).
Proof.
  split_and!.
  - rewrite autoArrangeNodes_edges, autoArrangeNodes_nodes.
    by apply validateConnection_map.
  - intros paramId value. unfold updateParam.
    destruct (State.selectedNode s) as [sel|]; [|done]. cbn.
    apply validateConnection_map; intros; by case_decide.
  - intros value. unfold onLabelChange.
    destruct (State.selectedNode s) as [sel|]; [|done]. cbn.
    apply validateConnection_map; intros; by case_decide.
Qed.

Lemma currentInputCount_app edges e target :
  currentInputCount (edges ++ [e]) target
  = (currentInputCount edges target
     + (if decide (Edge.target e = target) then 1 else 0))%nat.
Proof.
  unfold currentInputCount. rewrite filter_app, length_app. f_equal.
  rewrite filter_cons. by case_decide.
Qed.

Lemma existingEdge_app_miss edges e source target :
  ¬ (Edge.source e = source ∧ Edge.target e = target) →
  existingEdge (edges ++ [e]) source target = existingEdge edges source target.
Proof.
  intros Hmiss. unfold existingEdge.
  induction edges as [|e' es IH]; cbn.
  - destruct (bool_decide (Edge.source e = source)
              && bool_decide (Edge.target e = target)) eqn:Hb; [|done].
    apply andb_prop in Hb as [?%bool_decide_eq_true ?%bool_decide_eq_true].
    by destruct Hmiss.
  - by rewrite IH.
Qed.

(** X4: a connection attempt, accepted or not, leaves the validator's
    answer as it was for every connection that targets another node.  In
    particular an accepted edge never rules out the reverse edge. *)
Theorem onConnect_frame params s source target :
  js_or (Connection.target params) None ≠ Some target →
  validateConnection (State.nodes (onConnect params s))
    (State.edges (onConnect params s)) source target
  = validateConnection (State.nodes s) (State.edges s) source target.
Proof.
  intros Hother.
  destruct (js_or (Connection.source params) None) as [a|] eqn:Ha; cycle 1.
  { unfold onConnect. by rewrite Ha. }
  destruct (js_or (Connection.target params) None) as [b|] eqn:Hb; cycle 1.
  { unfold onConnect. by rewrite Ha, Hb. }
  destruct (Validation.valid
              (validateConnection (State.nodes s) (State.edges s) a b)) eqn:Hv.
  - destruct (onConnect_accepted _ _ _ _ Ha Hb Hv) as [-> ->].
    assert (b ≠ target) as Hne by congruence.
    unfold validateConnection.
    rewrite currentInputCount_app, existingEdge_app_miss by (cbn; tauto).
    cbn. rewrite decide_False by done. by rewrite Nat.add_0_r.
  - by rewrite (onConnect_invalid _ _ _ _ Ha Hb Hv).
Qed.

Lemma onConnect_frame_witness :
  let a := node_at "merge-1" "pdf_merge" "合併 PDF" 0 0 in
  let b := node_at "merge-2" "pdf_merge" "合併 PDF" 0 0 in
  let s := state_of [a; b] [] in
  let s1 := onConnect (connection_of "merge-1" "merge-2") s in
  State.edges s1 = [edge_of "merge-1" "merge-2"]
  ∧ validateConnection (State.nodes s1) (State.edges s1) "merge-2" "merge-1"
    = Validation.ok.
Proof.
  cbv zeta. split; [reflexivity|].
  rewrite onConnect_frame; [reflexivity|]. discriminate.
Defined.

(** ** The graph invariant of an editing session *)

Lemma find_node_app nodes n nid :
  find_node nid (nodes ++ [n])
  = match find_node nid nodes with
    | Some m => Some m
    | None => if decide (Node.id n = nid) then Some n else None
    end.
Proof.
  unfold find_node. induction nodes as [|m ms IH]; cbn.
  - case_bool_decide; by case_decide.
  - by case_bool_decide.
Qed.

Lemma find_node_filter nodes removed nid :
  find_node nid (filter (λ n, Node.id n ≠ removed) nodes)
  = if decide (nid = removed) then None else find_node nid nodes.
Proof.
  unfold find_node. induction nodes as [|m ms IH].
  - cbn. by case_decide.
  - rewrite filter_cons. destruct (decide (Node.id m ≠ removed)) as [Hm|Hm];
      cbn [List.find].
    + case_bool_decide as Hid; [|done]. rewrite decide_False; [done|congruence].
    + apply dec_stable in Hm. rewrite IH. case_decide as Hnid; [done|].
      rewrite bool_decide_eq_false_2; [done|congruence].
Qed.

Lemma currentInputCount_map (h : Edge.t → Edge.t) edges target :
  (∀ e, Edge.target (h e) = Edge.target e) →
  currentInputCount (map h edges) target = currentInputCount edges target.
Proof.
  intros Hh. unfold currentInputCount.
  induction edges as [|e es IH]; [done|]. cbn [map].
  rewrite !filter_cons, Hh. case_decide; cbn; by rewrite IH.
Qed.

Lemma currentInputCount_filter_le (P : Edge.t → Prop) `{∀ e, Decision (P e)}
    edges target :
  (currentInputCount (filter P edges) target ≤ currentInputCount edges target)%nat.
Proof.
  unfold currentInputCount. induction edges as [|e es IH]; [done|].
  rewrite !filter_cons. repeat case_decide; rewrite ?filter_cons;
    repeat case_decide; cbn; try done; lia.
Qed.

Lemma currentInputCount_unresolved nodes edges target :
  Forall (edge_allowed nodes) edges → find_node target nodes = None →
  currentInputCount edges target = 0%nat.
Proof.
  intros Hall Hnone. unfold currentInputCount.
  induction Hall as [|e es (sn & tn & _ & Ht & _) _ IH]; [done|].
  rewrite filter_cons. case_decide as Heq; [|done]. congruence.
Qed.

Lemma graph_valid_initial : graph_valid State.initial.
Proof.
  unfold graph_valid. cbn. split_and!; try by constructor.
  intros target tn r [=].
Qed.

(** Nodes rewritten in place (same ids and node types) and edges rewritten
    in place (same endpoints) keep the graph valid. *)
Lemma graph_valid_map (g : Node.t → Node.t) (h : Edge.t → Edge.t) s s' :
  graph_valid s →
  State.nodes s' = map g (State.nodes s) →
  State.edges s' = map h (State.edges s) →
  (∀ n, Node.id (g n) = Node.id n) →
  (∀ n, n ∈ State.nodes s →
        nodeType_of (g n) = nodeType_of n
        ∧ Node.type (g n) = "workflowNode"
        ∧ is_Some (js_or (NodeData.nodeType (Node.data (g n))) None)) →
  (∀ e, Edge.source (h e) = Edge.source e ∧ Edge.target (h e) = Edge.target e) →
  graph_valid s'.
Proof.
  intros (Hty & Hall & Hnd & Hcap) Hn He Hid Hg Hh. unfold graph_valid.
  rewrite Hn, He. split_and!.
  - apply list.Forall_forall. intros n' (n & -> & Hin)%list_elem_of_fmap.
    by destruct (Hg n Hin) as (_ & ? & ?).
  - apply list.Forall_forall. intros e' (e & -> & Hin)%list_elem_of_fmap.
    rewrite list.Forall_forall in Hall.
    destruct (Hall e Hin) as (sn & tn & Hs & Ht & Hsb & Htb & Hne).
    destruct (Hh e) as [Hes Het]. exists (g sn), (g tn).
    rewrite Hes, Het, !find_node_map, Hs, Ht by done.
    apply find_node_elem in Hs, Ht.
    destruct (Hg sn Hs) as (Hgs & _). destruct (Hg tn Ht) as (Hgt & _).
    unfold source_blocked, target_blocked in *. rewrite Hgs, Hgt. done.
  - rewrite map_map.
    erewrite map_ext; [exact Hnd|]. intros e. by destruct (Hh e) as [-> ->].
  - intros target tn' r. rewrite find_node_map by done.
    destruct (find_node target (State.nodes s)) as [tn|] eqn:Ht; [|done].
    intros [= <-]. destruct (Hg tn (find_node_elem _ _ _ Ht)) as (-> & _).
    rewrite currentInputCount_map by (intros e; by destruct (Hh e)).
    by apply Hcap.
Qed.

Lemma graph_valid_same s s' :
  graph_valid s → State.nodes s' = State.nodes s →
  State.edges s' = State.edges s → graph_valid s'.
Proof. unfold graph_valid. by intros ? -> ->. Qed.

Lemma graph_valid_onDrop type label category wrapper clientX clientY now s :
  graph_valid s →
  graph_valid (onDrop type label category wrapper clientX clientY now s).
Proof.
  intros Hs. unfold onDrop. destruct wrapper as [[boundsLeft boundsTop]|]; [|done].
  case_decide as Htype; [done|].
  destruct Hs as (Hty & Hall & Hnd & Hcap). unfold graph_valid. cbn.
  split_and!.
  - apply Forall_app. split; [done|]. apply Forall_singleton. cbn.
    split; [done|]. rewrite decide_False by done. by eexists.
  - eapply Forall_impl; [exact Hall|].
    intros e (sn & tn & Hsn & Htn & ?). exists sn, tn.
    by rewrite !find_node_app, Hsn, Htn.
  - done.
  - intros target tn r. rewrite find_node_app.
    destruct (find_node target (State.nodes s)) as [m|] eqn:Hm.
    + intros [= <-]. by apply Hcap.
    + intros _ _ Hpos. rewrite (currentInputCount_unresolved _ _ _ Hall Hm). lia.
Qed.

Lemma graph_valid_onConnect params s :
  graph_valid s → graph_valid (onConnect params s).
Proof.
  intros Hs.
  destruct (js_or (Connection.source params) None) as [a|] eqn:Ha; cycle 1.
  { unfold onConnect. by rewrite Ha. }
  destruct (js_or (Connection.target params) None) as [b|] eqn:Hb; cycle 1.
  { unfold onConnect. by rewrite Ha, Hb. }
  destruct (Validation.valid
              (validateConnection (State.nodes s) (State.edges s) a b)) eqn:Hv;
    cycle 1.
  { rewrite (onConnect_invalid _ _ _ _ Ha Hb Hv). by eapply graph_valid_same. }
  destruct (onConnect_accepted _ _ _ _ Ha Hb Hv) as [Hn He].
  destruct (validateConnection_valid _ _ _ _ Hv)
    as (sn & tn & Hsn & Htn & Hsb & Htb & Hroom & Hne & Hnone).
  destruct Hs as (Hty & Hall & Hnd & Hcap). unfold graph_valid.
  rewrite Hn, He. split_and!.
  - done.
  - apply Forall_app. split; [done|]. apply Forall_singleton.
    by exists sn, tn.
  - rewrite map_app. cbn. apply NoDup_app. split_and!; [done| |apply NoDup_singleton].
    intros p (e & -> & Hin)%list_elem_of_fmap [= Hs Ht]%list_elem_of_singleton.
    rewrite existingEdge_None in Hnone. by destruct (Hnone e Hin).
  - intros target tn' r Hfind Hr Hpos. rewrite currentInputCount_app. cbn.
    specialize (Hcap target tn' r Hfind Hr Hpos).
    case_decide as Heq; [|lia]. subst target. rewrite Htn in Hfind.
    injection Hfind as <-.
    pose proof (proj1 (capacity_reached_false _ _ _) Hroom r Hr Hpos). lia.
Qed.

Lemma graph_valid_deleteSelectedNode s :
  graph_valid s → graph_valid (deleteSelectedNode s).
Proof.
  intros (Hty & Hall & Hnd & Hcap). unfold deleteSelectedNode.
  destruct (State.selectedNode s) as [sel|]; [|done].
  unfold graph_valid. cbn. split_and!.
  - apply list.Forall_forall. intros n [_ Hin]%list_elem_of_filter.
    unfold nodes_typed in Hty. rewrite list.Forall_forall in Hty. by apply Hty.
  - apply list.Forall_forall. intros e [[Hs Ht] Hin]%list_elem_of_filter.
    rewrite list.Forall_forall in Hall.
    destruct (Hall e Hin) as (sn & tn & Hsn & Htn & ?). exists sn, tn.
    by rewrite !find_node_filter, !decide_False, Hsn, Htn.
  - revert Hnd. generalize (State.edges s). intros edges.
    induction edges as [|e es IH]; [done|]. cbn [map]. intros [Hnot Hnd]%NoDup_cons.
    rewrite filter_cons. case_decide; [|by apply IH]. cbn [map].
    apply NoDup_cons. split; [|by apply IH].
    intros (e' & Heq & [_ Hin]%list_elem_of_filter)%list_elem_of_fmap.
    apply Hnot, list_elem_of_fmap. by exists e'.
  - intros target tn r. rewrite find_node_filter. case_decide; [done|].
    intros Hfind Hr Hpos. specialize (Hcap target tn r Hfind Hr Hpos).
    pose proof (currentInputCount_filter_le
      (λ e, Edge.source e ≠ Node.id sel ∧ Edge.target e ≠ Node.id sel)
      (State.edges s) target). lia.
Qed.

Lemma graph_valid_autoArrangeNodes s :
  graph_valid s → graph_valid (autoArrangeNodes s).
Proof.
  intros Hs.
  eapply (graph_valid_map _ (λ e, e)); [exact Hs|apply autoArrangeNodes_nodes|..].
  - by rewrite autoArrangeNodes_edges, map_id.
  - done.
  - intros n Hn. destruct Hs as (Hty & _). unfold nodes_typed in Hty.
    rewrite list.Forall_forall in Hty. by destruct (Hty n Hn).
  - done.
Qed.

Lemma graph_valid_edit_selected (edit : Node.t → Node.t) s sel :
  (∀ n, Node.id (edit n) = Node.id n ∧ Node.type (edit n) = Node.type n
        ∧ NodeData.nodeType (Node.data (edit n)) = NodeData.nodeType (Node.data n)) →
  graph_valid s →
  graph_valid
    (State.setNodes
       (λ nds, map (λ n, if decide (Node.id n = Node.id sel) then edit n else n)
                 nds) s).
Proof.
  intros Hedit Hs.
  eapply (graph_valid_map _ (λ e, e)); [exact Hs|done|..].
  - cbn. by rewrite map_id.
  - intros n. cbn beta. case_decide; [|done]. by destruct (Hedit n).
  - intros n Hn. destruct Hs as (Hty & _). unfold nodes_typed in Hty.
    rewrite list.Forall_forall in Hty. destruct (Hty n Hn) as [Ht Hsome].
    cbn beta. case_decide; [|done]. destruct (Hedit n) as (_ & Het & Hent).
    unfold nodeType_of. by rewrite Hent, Het.
  - done.
Qed.

Lemma graph_valid_onLabelChange value s :
  graph_valid s → graph_valid (onLabelChange value s).
Proof.
  intros Hs. unfold onLabelChange.
  destruct (State.selectedNode s) as [sel|]; [|done].
  by apply (graph_valid_edit_selected (with_label value)).
Qed.

Lemma graph_valid_updateParam paramId value s :
  graph_valid s → graph_valid (updateParam paramId value s).
Proof.
  intros Hs. unfold updateParam.
  destruct (State.selectedNode s) as [sel|]; [|done].
  by apply (graph_valid_edit_selected (with_param paramId value)).
Qed.

(** A typed node is saved under its own node type. *)
Lemma saved_type_typed n :
  is_Some (js_or (NodeData.nodeType (Node.data n)) None) →
  NodeData.nodeType (Node.data n) = Some (saved_type n)
  ∧ saved_type n ≠ "" ∧ nodeType_of n = saved_type n.
Proof.
  intros [t Ht]. apply js_or_None_Some in Ht as [Ht Hne].
  unfold saved_type, nodeType_of, js_or_str. rewrite Ht.
  destruct (decide (t = "")); done.
Qed.

Lemma graph_valid_reopen workflow_id s :
  graph_valid s →
  graph_valid
    (loadWorkflow workflow_id (stored (saveWorkflow_payload s))
       (saveWorkflow (SaveSuccess workflow_id) s)).
Proof.
  intros Hs.
  eapply (graph_valid_map _ _ s); [exact Hs| | |..].
  - cbn. unfold loadedNodes, saveWorkflow_payload. cbn.
    rewrite map_map. reflexivity.
  - cbn. unfold loadedEdges, saveWorkflow_payload. cbn.
    rewrite map_map. reflexivity.
  - done.
  - intros n Hin. destruct Hs as (Hty & _). unfold nodes_typed in Hty.
    rewrite list.Forall_forall in Hty. destruct (Hty n Hin) as [_ Hsome].
    destruct (saved_type_typed n Hsome) as (_ & Hne & Heq). cbn.
    fold (saved_type n). split_and!; [|done|].
    + rewrite Heq. by case_decide.
    + rewrite decide_False by done. by eexists.
  - done.
Qed.

Lemma graph_valid_clearCanvas confirmed x :
  graph_valid (Session.editor x) →
  graph_valid (Session.editor (clearCanvas confirmed x)).
Proof.
  intros Hx. unfold clearCanvas. case_match; [done|].
  unfold graph_valid. cbn. split_and!; try by constructor.
  intros target tn r [=].
Qed.

Lemma graph_valid_onMount from handoff now :
  graph_valid (Session.editor (onMount from handoff now Session.start)).
Proof.
  unfold onMount. case_decide; [|apply graph_valid_initial].
  destruct handoff as [| |files]; try apply graph_valid_initial.
  case_decide; [apply graph_valid_initial|].
  unfold graph_valid. cbn. split_and!; try by constructor.
  - unfold inputNodes. apply list.Forall_forall.
    intros n (index & file & -> & _)%elem_of_lookup_imap. cbn.
    split; [done|]. by eexists.
  - intros target tn r _ _ Hpos. unfold currentInputCount. cbn. lia.
Qed.

Lemma graph_valid_perform a x :
  graph_valid (Session.editor x) → graph_valid (Session.editor (perform a x)).
Proof.
  intros Hx. destruct a; cbn [perform Session.on_editor Session.editor].
  - by apply graph_valid_onDrop.
  - by eapply graph_valid_same.
  - by apply graph_valid_onConnect.
  - by apply graph_valid_deleteSelectedNode.
  - by apply graph_valid_autoArrangeNodes.
  - by apply graph_valid_onLabelChange.
  - by apply graph_valid_updateParam.
  - by eapply graph_valid_same.
  - by destruct files.
  - by apply graph_valid_clearCanvas.
  - unfold executeWorkflow, executeWorkflow_request.
    destruct (js_or (State.workflowId (Session.editor x)) None);
      [|by eapply graph_valid_same].
    case_decide; [by eapply graph_valid_same|].
    destruct response; by eapply graph_valid_same.
  - destruct response as [[workflows|] detail|message];
      by eapply graph_valid_same.
  - by apply graph_valid_reopen.
Qed.

Lemma graph_valid_fold actions x :
  graph_valid (Session.editor x) →
  graph_valid (Session.editor (fold_left (λ x a, perform a x) actions x)).
Proof.
  revert x. induction actions as [|a actions IH]; intros x Hx; [done|].
  cbn. by apply IH, graph_valid_perform.
Qed.

(** X5: along every sequence of the page's own handlers (drop, click,
    connect, delete the selected node, arrange, rename, edit parameters,
    pick files, clear, run, list, save and reopen), starting from a freshly
    mounted page with or without handed-over files, the graph stays valid:
    every node carries a node type; every edge joins two existing, distinct
    nodes whose rules allow its direction; no two edges share both
    endpoints; and no node exceeds a positive [maxInputs].  Changes that
    the canvas library applies on its own, and workflows loaded from
    elsewhere, are outside [Action]. *)
Theorem session_graph_valid from handoff now actions :
  graph_valid
    (Session.editor (run actions (onMount from handoff now Session.start))).
Proof.
  unfold run. apply graph_valid_fold.
  apply graph_valid_onMount.
Qed.

(** X6: for a graph built in an editing session, saving and loading the
    stored payload gives back every node's id, position, renderer type and
    node type exactly, and every edge's id and endpoints. *)
Theorem session_save_load_exact from handoff now actions id s0 :
  let s := Session.editor (run actions (onMount from handoff now Session.start)) in
  let s' := loadWorkflow id (stored (saveWorkflow_payload s)) s0 in
  map (λ n, (Node.id n, Node.type n, Node.position n,
             NodeData.nodeType (Node.data n))) (State.nodes s')
  = map (λ n, (Node.id n, Node.type n, Node.position n,
               NodeData.nodeType (Node.data n))) (State.nodes s)
  ∧ map (λ e, (Edge.id e, Edge.source e, Edge.target e)) (State.edges s')
    = map (λ e, (Edge.id e, Edge.source e, Edge.target e)) (State.edges s).
Proof.
  intros s s'.
  assert (graph_valid s) as (Hty & _)
    by (apply graph_valid_fold, graph_valid_onMount).
  unfold s'.
  destruct (loadWorkflow_stored id (saveWorkflow_payload s) s0) as [-> ->].
  unfold loadedNodes, loadedEdges, saveWorkflow_payload. cbn.
  rewrite !map_map. cbn. split; [|done].
  apply map_ext_in. intros n Hn%list_elem_of_In.
  unfold nodes_typed in Hty. rewrite list.Forall_forall in Hty.
  destruct (Hty n Hn) as [-> Hsome].
  destruct Hsome as [t Ht]. apply js_or_None_Some in Ht as [Ht Hne].
  rewrite Ht. unfold js_or_str. by rewrite decide_False.
Qed.

(** ** The property panel *)

Lemma param_of_edit (edit : Node.t → Node.t) nodes sel nid paramId :
  (∀ n, Node.id (edit n) = Node.id n) →
  param_of
    (map (λ n, if decide (Node.id n = Node.id sel) then edit n else n) nodes)
    nid paramId
  = find_node nid nodes
    ≫= λ n, default ∅
              (NodeData.params
                 (Node.data (if decide (nid = Node.id sel) then edit n else n)))
            !! paramId.
Proof.
  intros Hid. unfold param_of. rewrite find_node_map; cycle 1.
  { intros n. case_decide; [apply Hid|done]. }
  destruct (find_node nid nodes) as [n|] eqn:Hn; [|done]. cbn.
  apply find_node_id in Hn. rewrite Hn.
  by destruct (decide (nid = Node.id sel)).
Qed.

(** X7: [updateParam] writes the value where it is read back: afterwards
    the selected node's parameter holds the new value, every other
    parameter of it and every parameter of the other nodes is as before,
    and nothing but parameters changes (ids, positions, labels, types,
    edges, selection). *)
Theorem updateParam_lookup s sel paramId value :
  State.selectedNode s = Some sel →
  let s' := updateParam paramId value s in
  (is_Some (find_node (Node.id sel) (State.nodes s)) →
   param_of (State.nodes s') (Node.id sel) paramId = Some value)
  ∧ (∀ nid other, (nid, other) ≠ (Node.id sel, paramId) →
       param_of (State.nodes s') nid other = param_of (State.nodes s) nid other)
  ∧ map (λ n, (Node.id n, Node.type n, Node.position n, label_of n,
               NodeData.description (Node.data n),
               NodeData.category (Node.data n),
               NodeData.nodeType (Node.data n))) (State.nodes s')
    = map (λ n, (Node.id n, Node.type n, Node.position n, label_of n,
                 NodeData.description (Node.data n),
                 NodeData.category (Node.data n),
                 NodeData.nodeType (Node.data n))) (State.nodes s)
  ∧ State.edges s' = State.edges s
  ∧ State.selectedNode s' = State.selectedNode s.
Proof.
  intros Hsel s'. unfold s', updateParam. rewrite Hsel.
  unfold State.setNodes. cbn [State.nodes State.edges State.selectedNode].
  split_and!; try done.
  - intros [n Hn]. rewrite param_of_edit by done. rewrite Hn. cbn.
    rewrite decide_True by done. cbn. apply lookup_insert_eq.
  - intros nid other Hne. rewrite param_of_edit by done. unfold param_of.
    destruct (find_node nid (State.nodes s)) as [n|]; [|done]. cbn.
    case_decide as Hnid; [|done]. cbn. apply lookup_insert_ne. congruence.
  - rewrite map_map. apply map_ext. intros n. by case_decide.
Qed.

Lemma updateParam_lookup_witness :
  let a := node_at "split-1" "pdf_split" "分割 PDF" 0 0 in
  let b := node_at "merge-1" "pdf_merge" "合併 PDF" 0 0 in
  let s := onNodeClick a (state_of [a; b] []) in
  let s' := updateParam "every_n" (PNumber 3) s in
  State.selectedNode s = Some a
  ∧ param_of (State.nodes s') "split-1" "every_n" = Some (PNumber 3)
  ∧ param_of (State.nodes s') "merge-1" "every_n" = None.
Proof.
  cbv zeta.
  pose proof (updateParam_lookup
    (onNodeClick (node_at "split-1" "pdf_split" "分割 PDF" 0 0)
       (state_of [node_at "split-1" "pdf_split" "分割 PDF" 0 0;
                  node_at "merge-1" "pdf_merge" "合併 PDF" 0 0] []))
    (node_at "split-1" "pdf_split" "分割 PDF" 0 0)
    "every_n" (PNumber 3) eq_refl) as (Hset & Hkeep & _).
  split; [reflexivity|]. split.
  - apply Hset. by eexists.
  - rewrite Hkeep; [reflexivity|discriminate].
Defined.

(** X8: parameter edits compose: a second write to the same parameter
    replaces the first, and writes to different parameters can be swapped. *)
Theorem updateParam_compose s paramId1 value1 paramId2 value2 :
  (paramId1 = paramId2 →
   updateParam paramId2 value2 (updateParam paramId1 value1 s)
   = updateParam paramId2 value2 s)
  ∧ (paramId1 ≠ paramId2 →
     updateParam paramId2 value2 (updateParam paramId1 value1 s)
     = updateParam paramId1 value1 (updateParam paramId2 value2 s)).
Proof.
  unfold updateParam.
  destruct (State.selectedNode s) as [sel|] eqn:Hsel; cbn; rewrite ?Hsel; [|done].
  destruct s as [nodes ?]. unfold State.setNodes. cbn in *. split.
  - intros <-. f_equal. rewrite map_map. apply map_ext. intros n.
    destruct (decide (Node.id n = Node.id sel)) as [Hn|Hn]; cbn.
    + rewrite decide_True by done. unfold with_param. cbn. do 3 f_equal.
      apply insert_insert_eq.
    + by rewrite decide_False.
  - intros Hne. f_equal. rewrite !map_map. apply map_ext. intros n.
    destruct (decide (Node.id n = Node.id sel)) as [Hn|Hn]; cbn.
    + rewrite !decide_True by done. unfold with_param. cbn. do 3 f_equal.
      by apply insert_insert_ne.
    + by rewrite !decide_False.
Qed.

(** X9: the panel keeps the node as it was when it was clicked: after a
    rename or a parameter edit the graph holds the new value while
    [selectedNode], from which the panel reads the name and the parameter
    values it shows, still holds the old one. *)
Theorem panel_shows_clicked_node s n label paramId value :
  find_node (Node.id n) (State.nodes s) = Some n →
  let renamed := onLabelChange label (onNodeClick n s) in
  let edited := updateParam paramId value (onNodeClick n s) in
  (label_of <$> find_node (Node.id n) (State.nodes renamed)) = Some label
  ∧ (label_of <$> State.selectedNode renamed) = Some (label_of n)
  ∧ param_of (State.nodes edited) (Node.id n) paramId = Some value
  ∧ (State.selectedNode edited
     ≫= λ m, default ∅ (NodeData.params (Node.data m)) !! paramId)
    = default ∅ (NodeData.params (Node.data n)) !! paramId.
Proof.
  intros Hn renamed edited. unfold renamed, edited, onLabelChange, updateParam.
  unfold onNodeClick, State.setNodes, State.setSelectedNode.
  cbn [State.nodes State.edges State.selectedNode]. split_and!; try done.
  - rewrite find_node_map by (intros m; by case_decide).
    rewrite Hn. cbn. by rewrite decide_True.
  - rewrite param_of_edit by done. rewrite Hn. cbn.
    rewrite decide_True by done. cbn. apply lookup_insert_eq.
Qed.

Lemma panel_shows_clicked_node_witness :
  let a := node_at "split-1" "pdf_split" "分割 PDF" 0 0 in
  let s := state_of [a] [] in
  let renamed := onLabelChange "拆頁" (onNodeClick a s) in
  find_node "split-1" (State.nodes s) = Some a
  ∧ (label_of <$> find_node "split-1" (State.nodes renamed)) = Some "拆頁"
  ∧ (label_of <$> State.selectedNode renamed) = Some "分割 PDF".
Proof.
  cbv zeta.
  pose proof (panel_shows_clicked_node
    (state_of [node_at "split-1" "pdf_split" "分割 PDF" 0 0] [])
    (node_at "split-1" "pdf_split" "分割 PDF" 0 0)
    "拆頁" "mode" (PString "every") eq_refl) as (Hnew & Hold & _).
  split; [reflexivity|]. split; [exact Hnew|exact Hold].
Defined.

(** X10: what the panel edits survives saving and loading: the loaded
    nodes have the parameters and the description of the saved ones (an
    absent one read as empty), a non-empty label is kept, and the category
    is the one the registry gives for the saved type, [pdf] if it gives
    none. *)
Theorem save_load_config s id s0 :
  let s' := loadWorkflow id (stored (saveWorkflow_payload s)) s0 in
  map (λ n, NodeData.params (Node.data n)) (State.nodes s')
  = map (λ n, Some (default ∅ (NodeData.params (Node.data n)))) (State.nodes s)
  ∧ map (λ n, NodeData.description (Node.data n)) (State.nodes s')
    = map (λ n, Some (js_or_str (NodeData.description (Node.data n)) ""))
        (State.nodes s)
  ∧ map (λ n, NodeData.category (Node.data n)) (State.nodes s')
    = map (λ n, Some (js_or_str
                        (NodeTypeDef.category <$> find_nodeDef (saved_type n))
                        "pdf"))
        (State.nodes s)
  ∧ (∀ i n n', State.nodes s !! i = Some n → State.nodes s' !! i = Some n' →
       label_of n ≠ "" → label_of n' = label_of n).
Proof.
  intros s'. unfold s'.
  destruct (loadWorkflow_stored id (saveWorkflow_payload s) s0) as [-> _].
  unfold loadedNodes, saveWorkflow_payload. cbn. rewrite !map_map. cbn.
  split_and!; try done.
  - apply map_ext. intros n. case_decide as Hd; [by rewrite Hd|done].
  - intros i n n' Hn. rewrite list_lookup_fmap, Hn. cbn. intros [= <-] Hne.
    unfold label_of in *. cbn [Node.data NodeData.label SavedNode.config
      SavedConfig.label mbind option_bind].
    unfold js_or. rewrite decide_False by done.
    unfold js_or_str. by rewrite decide_False.
Qed.

(** ** Decimal renderings *)

Lemma pretty_N_char_digit x : is_digit (pretty_N_char x) = true.
Proof. unfold pretty_N_char. by repeat case_match. Qed.

Lemma pretty_N_go_digits x s : all_digits s → all_digits (pretty_N_go x s).
Proof.
  revert s. induction (N.lt_wf_0 x) as [x _ IH]; intros s Hs.
  assert (x = 0 ∨ 0 < x)%N as [->|Hpos] by lia.
  - by rewrite pretty_N_go_0.
  - rewrite pretty_N_go_step by done. apply IH.
    + by apply N.div_lt.
    + split; [apply pretty_N_char_digit|done].
Qed.

Lemma pretty_N_digits (x : N) : all_digits (pretty x).
Proof.
  unfold pretty, pretty_N. case_decide; [by cbn|].
  by apply pretty_N_go_digits.
Qed.

Lemma pretty_nat_digits (x : nat) : all_digits (pretty x).
Proof. apply pretty_N_digits. Qed.

Lemma pretty_N_nonempty (x : N) : pretty x ≠ "".
Proof.
  intros Hx. assert (String.length (pretty x) = 0%nat) as Hlen by (by rewrite Hx).
  unfold pretty, pretty_N in Hlen. case_decide; [done|].
  assert (∀ y s, (String.length s ≤ String.length (pretty_N_go y s))%nat) as Hgrow.
  { intros y. induction (N.lt_wf_0 y) as [y _ IH]; intros s.
    assert (y = 0 ∨ 0 < y)%N as [->|Hpos] by lia; [by rewrite pretty_N_go_0|].
    rewrite pretty_N_go_step by done.
    trans (String.length (String (pretty_N_char (y `mod` 10)) s));
      [cbn; lia|apply IH; by apply N.div_lt]. }
  assert (0 < x)%N as Hpos by lia.
  rewrite pretty_N_go_step in Hlen by done.
  specialize (Hgrow (x `div` 10)%N (String (pretty_N_char (x `mod` 10)) "")).
  destruct (pretty_N_go (x `div` 10) (String (pretty_N_char (x `mod` 10)) ""));
    cbn in *; lia.
Qed.

Lemma digit_not_separator c : is_digit c = true → is_path_separator c = false.
Proof.
  unfold is_digit. intros H%bool_decide_eq_true.
  repeat (apply elem_of_cons in H as [[= ->]|H]; [done|]).
  by apply elem_of_nil in H.
Qed.

Lemma all_digits_separator_free s : all_digits s → separator_free s.
Proof.
  induction s as [|c s IH]; [done|]. intros [Hc Hs].
  split; [by apply digit_not_separator|by apply IH].
Qed.

Lemma append_nil_l (r : string) : "" +:+ r = r.
Proof. reflexivity. Qed.

Lemma append_cons_l c (a r : string) : String c a +:+ r = String c (a +:+ r).
Proof. reflexivity. Qed.

(** Digits up to a dash determine both sides of the dash. *)
Lemma digits_dash_inj a b r1 r2 :
  all_digits a → all_digits b →
  a +:+ "-" +:+ r1 = b +:+ "-" +:+ r2 → a = b ∧ r1 = r2.
Proof.
  revert b. induction a as [|c a IH]; intros [|d b] Ha Hb;
    repeat (rewrite append_nil_l || rewrite append_cons_l); intros Heq.
  - by injection Heq as ->.
  - injection Heq as <- _. by destruct Hb as [[=] _].
  - injection Heq as -> _. by destruct Ha as [[=] _].
  - injection Heq as -> Heq. destruct Ha as [_ Ha], Hb as [_ Hb].
    by destruct (IH b Ha Hb Heq) as [-> ->].
Qed.

(** ** Names of output files *)

Lemma split_path_nonempty filepath : split_path filepath ≠ [].
Proof.
  destruct filepath as [|c rest]; [done|]. cbn.
  destruct (is_path_separator c); [done|]. by destruct (split_path rest).
Qed.

Lemma split_path_pieces filepath :
  Forall separator_free (split_path filepath).
Proof.
  induction filepath as [|c rest IH]; cbn.
  - by repeat constructor.
  - destruct (is_path_separator c) eqn:Hc.
    + by constructor.
    + destruct (split_path rest) as [|piece pieces]; [by repeat constructor|].
      apply Forall_cons in IH as [Hp Hps]. by constructor.
Qed.

Lemma split_path_separator_free name :
  separator_free name → split_path name = [name].
Proof.
  induction name as [|c name IH]; [done|]. intros [Hc Hname]. cbn.
  by rewrite Hc, IH.
Qed.

Lemma split_path_two_pieces dir sep name :
  is_path_separator sep = true →
  (2 ≤ length (split_path (dir +:+ String sep name)))%nat.
Proof.
  intros Hsep. induction dir as [|c dir IH];
    repeat (rewrite append_nil_l || rewrite append_cons_l); cbn [split_path].
  - rewrite Hsep. pose proof (split_path_nonempty name).
    destruct (split_path name); [done|cbn; lia].
  - destruct (is_path_separator c); [cbn; lia|].
    destruct (split_path (dir +:+ String sep name)); [cbn in IH; lia|done].
Qed.

Lemma split_path_last dir sep name :
  is_path_separator sep = true → separator_free name →
  last (split_path (dir +:+ String sep name)) = Some name.
Proof.
  intros Hsep Hname. induction dir as [|c dir IH];
    repeat (rewrite append_nil_l || rewrite append_cons_l); cbn [split_path].
  - by rewrite Hsep, split_path_separator_free.
  - pose proof (split_path_two_pieces dir sep name Hsep) as Hlen.
    destruct (split_path (dir +:+ String sep name)) as [|piece [|piece' pieces]];
      [cbn in Hlen; lia..|].
    by destruct (is_path_separator c).
Qed.

(** X11: the name offered for an output file, in the result list and for
    the download, is never empty and never holds a path separator,
    whatever path the service returned. *)
Theorem output_filename_safe filepath index :
  download_filename filepath ≠ ""
  ∧ separator_free (download_filename filepath)
  ∧ listed_filename filepath index ≠ ""
  ∧ separator_free (listed_filename filepath index).
Proof.
  assert (∀ fallback, fallback ≠ "" → separator_free fallback →
    filename_of filepath fallback ≠ ""
    ∧ separator_free (filename_of filepath fallback)) as Hsafe.
  { intros fallback Hne Hfree. unfold filename_of, js_or_str.
    destruct (last (split_path filepath)) as [piece|] eqn:Hlast; [|done].
    case_decide; [done|]. split; [done|].
    pose proof (split_path_pieces filepath) as Hall.
    rewrite list.Forall_forall in Hall. apply Hall.
    by apply last_Some_elem_of. }
  unfold download_filename, listed_filename.
  destruct (Hsafe "download") as [? ?]; [done|by cbn|].
  destruct (Hsafe ("file-" +:+ pretty index)) as [? ?]; [done| |done].
  cbn. repeat split; try done.
  apply all_digits_separator_free, pretty_nat_digits.
Qed.

(** X12: the name is the part of the path after its last separator, slash
    or backslash; a path that ends in a separator, like the empty path,
    gets the fallback name, and a path without separators is its own
    name. *)
Theorem output_filename_basename dir sep name fallback :
  sep = "/" ∨ sep = "\" → separator_free name →
  filename_of (dir +:+ sep +:+ name) fallback
  = (if decide (name = "") then fallback else name)
  ∧ filename_of name fallback = (if decide (name = "") then fallback else name).
Proof.
  intros Hsep Hname. unfold filename_of.
  rewrite (split_path_separator_free _ Hname).
  split; [|done].
  destruct Hsep as [-> | ->]; rewrite append_cons_l, append_nil_l;
    by rewrite split_path_last.
Qed.

Lemma output_filename_basename_witness :
  download_filename "C:\out/run-7\merged.pdf" = "merged.pdf"
  ∧ download_filename "/tmp/out/" = "download"
  ∧ download_filename "merged.pdf" = "merged.pdf".
Proof.
  split_and!.
  - apply (output_filename_basename "C:\out/run-7" "\" "merged.pdf" "download");
      [by right|by cbn].
  - apply (output_filename_basename "/tmp/out" "/" "" "download");
      [by left|by cbn].
  - apply (output_filename_basename "" "/" "merged.pdf" "download");
      [by left|by cbn].
Defined.

(** ** The palette and the colours of nodes *)

Lemma set_of_array_snoc l x :
  set_of_array (l ++ [x])
  = if decide (x ∈ set_of_array l) then set_of_array l
    else set_of_array l ++ [x].
Proof. unfold set_of_array. by rewrite fold_left_app. Qed.

Lemma set_of_array_elem l x : x ∈ set_of_array l ↔ x ∈ l.
Proof.
  induction l as [|y l IH] using rev_ind; [reflexivity|].
  rewrite set_of_array_snoc. case_decide as Hy.
  - rewrite elem_of_app, list_elem_of_singleton, IH. split; [tauto|].
    intros [?| ->]; [done|]. by apply IH.
  - by rewrite !elem_of_app, IH.
Qed.

Lemma group_by_category_snoc defs node :
  group_by_category (defs ++ [node])
  = push_to_group node (group_by_category defs).
Proof. unfold group_by_category. by rewrite fold_left_app. Qed.

Lemma push_to_group_keys node acc :
  map fst (push_to_group node acc)
  = if decide (NodeTypeDef.category node ∈ map fst acc) then map fst acc
    else map fst acc ++ [NodeTypeDef.category node].
Proof.
  induction acc as [|[category group] acc IH]; cbn.
  - rewrite decide_False; [done|]. intros H. by apply elem_of_nil in H.
  - destruct (decide (category = NodeTypeDef.category node)) as [->|Hc]; cbn.
    + rewrite decide_True; [done|left].
    + rewrite IH.
      destruct (decide (NodeTypeDef.category node ∈ map fst acc)) as [Hin|Hin].
      * rewrite decide_True; [done|by right].
      * rewrite decide_False; [done|].
        intros [?|?]%elem_of_cons; done.
Qed.

(** The group that the entries hold for a category, empty if none. *)
Lemma push_to_group_lookup node acc category :
  default [] ((list_to_map (push_to_group node acc)
               : gmap string (list NodeTypeDef.t)) !! category)
  = default [] ((list_to_map acc : gmap string (list NodeTypeDef.t)) !! category)
    ++ (if decide (NodeTypeDef.category node = category) then [node] else []).
Proof.
  induction acc as [|[key group] acc IH]; cbn.
  - destruct (decide (NodeTypeDef.category node = category)) as [<-|Hc].
    + by rewrite lookup_insert_eq.
    + by rewrite lookup_insert_ne.
  - destruct (decide (key = NodeTypeDef.category node)) as [Hk|Hk]; cbn.
    + subst key. destruct (decide (NodeTypeDef.category node = category)) as [<-|Hc].
      * by rewrite !lookup_insert_eq.
      * rewrite !lookup_insert_ne by done. by rewrite app_nil_r.
    + destruct (decide (key = category)) as [->|Hkc].
      * rewrite !lookup_insert_eq. cbn. rewrite decide_False by done.
        by rewrite app_nil_r.
      * rewrite !lookup_insert_ne by done. apply IH.
Qed.

Lemma group_by_category_keys defs :
  map fst (group_by_category defs) = categories_of defs.
Proof.
  unfold categories_of. induction defs as [|node defs IH] using rev_ind; [done|].
  rewrite group_by_category_snoc, push_to_group_keys, IH.
  rewrite map_app. cbn [map]. by rewrite set_of_array_snoc.
Qed.

Lemma group_by_category_lookup defs category :
  default [] ((list_to_map (group_by_category defs)
               : gmap string (list NodeTypeDef.t)) !! category)
  = filter (λ d, NodeTypeDef.category d = category) defs.
Proof.
  induction defs as [|node defs IH] using rev_ind; [done|].
  rewrite group_by_category_snoc, push_to_group_lookup, IH.
  rewrite filter_app, filter_cons. by case_decide.
Qed.

(** X13: for definitions whose categories are among the coloured ones (as
    those of the registry are), the palette shows every node type exactly
    once, under its own category: the groups come in the order in which the
    categories first occur, and the group of a category holds exactly the
    definitions of that category, in their order; no group is empty, and
    every group has a colour for its heading. *)
Theorem group_by_category_partition defs :
  Forall (λ d, is_Some (categoryColors !! NodeTypeDef.category d)) defs →
  map fst (group_by_category defs) = categories_of defs
  ∧ NoDup (map fst (group_by_category defs))
  ∧ Forall
      (λ cg, cg.2 = filter (λ d, NodeTypeDef.category d = cg.1) defs
             ∧ cg.2 ≠ []
             ∧ is_Some (categoryColors !! cg.1))
      (group_by_category defs).
Proof.
  intros Hcoloured.
  pose proof (group_by_category_keys defs) as Hkeys.
  assert (NoDup (map fst (group_by_category defs))) as Hnd
    by (rewrite Hkeys; apply set_of_array_NoDup).
  split_and!; [done..|].
  apply list.Forall_forall. intros [category group] Hin. cbn.
  assert (group = filter (λ d, NodeTypeDef.category d = category) defs) as ->.
  { rewrite <- group_by_category_lookup.
    by rewrite (elem_of_list_to_map_1 _ _ _ Hnd Hin). }
  split; [done|].
  assert (category ∈ map NodeTypeDef.category defs) as Hc.
  { apply set_of_array_elem. fold (categories_of defs). rewrite <- Hkeys.
    apply list_elem_of_fmap. by eexists (category, _). }
  apply list_elem_of_fmap in Hc as (d & -> & Hd).
  split.
  - intros Hnil.
    assert (d ∈ filter (λ d', NodeTypeDef.category d' = NodeTypeDef.category d)
                  defs)
      as Hdin by (by apply list_elem_of_filter).
    rewrite Hnil in Hdin. by apply elem_of_nil in Hdin.
  - rewrite list.Forall_forall in Hcoloured. by apply Hcoloured.
Qed.

Lemma group_by_category_partition_witness :
  Forall (λ d, is_Some (categoryColors !! NodeTypeDef.category d))
    nodeTypeDefinitions
  ∧ map fst (group_by_category nodeTypeDefinitions)
    = categories_of nodeTypeDefinitions
  ∧ NoDup (map fst (group_by_category nodeTypeDefinitions))
  ∧ Forall
      (λ cg, cg.2 = filter (λ d, NodeTypeDef.category d = cg.1)
                      nodeTypeDefinitions
             ∧ cg.2 ≠ []
             ∧ is_Some (categoryColors !! cg.1))
      (group_by_category nodeTypeDefinitions).
Proof.
  assert (Forall (λ d, is_Some (categoryColors !! NodeTypeDef.category d))
            nodeTypeDefinitions) as Hcoloured.
  { apply (bool_decide_unpack _). by vm_compute. }
  split; [exact Hcoloured|].
  exact (group_by_category_partition nodeTypeDefinitions Hcoloured).
Defined.

Lemma nodeTypeDefinitions_categories :
  Forall
    (λ d, NodeTypeDef.category d ∈ ["input"; "pdf"; "ai"; "convert"; "output"])
    nodeTypeDefinitions.
Proof.
  unfold nodeTypeDefinitions.
  repeat (apply Forall_cons; split; [cbn; set_solver|]). apply Forall_nil. done.
Qed.

(** X14: whatever the service stores, a loaded node is drawn in the colour
    of a category: its category is the registry's for its type, or [pdf]
    for a type the registry does not know, and never falls through to the
    grey of an unknown category. *)
Theorem loadedNodes_coloured workflow n :
  n ∈ loadedNodes workflow →
  bgColor (Node.data n) ≠ "bg-gray-500"
  ∧ is_Some (categoryColors !! js_or_str (NodeData.category (Node.data n)) "pdf")
  ∧ (find_nodeDef (nodeType_of n) = None →
     NodeData.category (Node.data n) = Some "pdf").
Proof.
  unfold loadedNodes. intros (saved & -> & _)%list_elem_of_fmap.
  cbn [Node.data NodeData.category]. unfold bgColor. cbn [NodeData.category].
  assert (nodeType_of
            {| Node.id := SavedNode.id saved; Node.type := "workflowNode";
               Node.position := SavedNode.position saved;
               Node.data :=
                 {| NodeData.label :=
                      js_or_str
                        (js_or (SavedNode.config saved ≫= SavedConfig.label)
                           (NodeTypeDef.label <$> find_nodeDef (SavedNode.type saved)))
                        (SavedNode.type saved);
                    NodeData.description :=
                      Some (js_or_str
                              (SavedNode.config saved ≫= SavedConfig.description) "");
                    NodeData.category :=
                      Some (js_or_str
                              (NodeTypeDef.category
                                 <$> find_nodeDef (SavedNode.type saved)) "pdf");
                    NodeData.params :=
                      Some (default ∅ (SavedNode.config saved ≫= SavedConfig.params));
                    NodeData.nodeType := Some (SavedNode.type saved) |} |}
          = SavedNode.type saved) as ->.
  { unfold nodeType_of. cbn. by case_decide. }
  destruct (find_nodeDef (SavedNode.type saved)) as [def|] eqn:Hdef; cbn.
  - apply find_some in Hdef as [Hin%list_elem_of_In _].
    pose proof nodeTypeDefinitions_categories as Hall.
    rewrite list.Forall_forall in Hall. specialize (Hall def Hin).
    repeat (apply elem_of_cons in Hall as [->|Hall];
            [split_and!; [done|by eexists|done]|]).
    by apply elem_of_nil in Hall.
  - split_and!; [done|by eexists|done].
Qed.

Lemma loadedNodes_coloured_witness :
  let workflow :=
    Workflow.mk (Some "wf-1") (Some "demo") ""
      (Some [SavedNode.mk "n-1" "pdf_rotate" (Pos.mk 10 20) None]) (Some []) in
  let n := Node.mk "n-1" "workflowNode" (Pos.mk 10 20)
             (NodeData.mk "pdf_rotate" (Some "") (Some "pdf") (Some ∅)
                (Some "pdf_rotate")) in
  n ∈ loadedNodes workflow
  ∧ bgColor (Node.data n) ≠ "bg-gray-500"
  ∧ NodeData.category (Node.data n) = Some "pdf".
Proof.
  cbv zeta.
  assert (Node.mk "n-1" "workflowNode" (Pos.mk 10 20)
            (NodeData.mk "pdf_rotate" (Some "") (Some "pdf") (Some ∅)
               (Some "pdf_rotate"))
          ∈ loadedNodes
              (Workflow.mk (Some "wf-1") (Some "demo") ""
                 (Some [SavedNode.mk "n-1" "pdf_rotate" (Pos.mk 10 20) None])
                 (Some []))) as Hin by left.
  destruct (loadedNodes_coloured _ _ Hin) as (Hcolour & _ & Hpdf).
  split; [exact Hin|]. split; [exact Hcolour|]. apply Hpdf. reflexivity.
Defined.

(** ** Running, clearing and saving *)

(** X15: a run is refused before anything is sent when no saved workflow
    id is held, or when no file is picked: the session then differs from
    the one before only by the alert that says what to do first.  The
    missing id is reported first. *)
Theorem executeWorkflow_refused response x :
  js_or (State.workflowId (Session.editor x)) None = None
  ∨ Session.uploadedFiles x = [] →
  (executeWorkflow_request x).2 = None
  ∧ executeWorkflow response x
    = Session.on_editor
        (State.alert
           (if decide (js_or (State.workflowId (Session.editor x)) None = None)
            then "請先儲存工作流" else "請先上傳檔案"))
        x.
Proof.
  intros Hgate. unfold executeWorkflow, executeWorkflow_request.
  destruct (js_or (State.workflowId (Session.editor x)) None) as [wid|] eqn:Hid.
  - destruct Hgate as [[=]|Hfiles]. rewrite decide_True by done.
    by rewrite decide_False.
  - by rewrite decide_True.
Qed.

Lemma executeWorkflow_refused_witness :
  let x := Session.setUploadedFiles [File.mk "a.pdf" "application/pdf"]
             Session.start in
  State.alerts
    (Session.editor
       (executeWorkflow (ExecuteThrows "offline") x)) = ["請先儲存工作流"]
  ∧ Session.isExecuting (executeWorkflow (ExecuteThrows "offline") x) = false.
Proof.
  cbv zeta.
  destruct (executeWorkflow_refused (ExecuteThrows "offline")
              (Session.setUploadedFiles [File.mk "a.pdf" "application/pdf"]
                 Session.start)) as [_ ->]; [by left|].
  split; reflexivity.
Defined.

(** X16: a run that is sent goes to the held workflow id with the picked
    files; whatever comes back, answer or exception, the busy flag is
    released, the graph, the selection, the name, the id and the files are
    as before, one alert is added, and the result held is the answer, or
    none when the request failed. *)
Theorem executeWorkflow_sent response x workflowId :
  js_or (State.workflowId (Session.editor x)) None = Some workflowId →
  Session.uploadedFiles x ≠ [] →
  let y := executeWorkflow response x in
  (executeWorkflow_request x).2 = Some (workflowId, Session.uploadedFiles x)
  ∧ Session.isExecuting (executeWorkflow_request x).1 = true
  ∧ Session.isExecuting y = false
  ∧ State.nodes (Session.editor y) = State.nodes (Session.editor x)
  ∧ State.edges (Session.editor y) = State.edges (Session.editor x)
  ∧ State.selectedNode (Session.editor y) = State.selectedNode (Session.editor x)
  ∧ State.workflowName (Session.editor y) = State.workflowName (Session.editor x)
  ∧ State.workflowId (Session.editor y) = State.workflowId (Session.editor x)
  ∧ Session.uploadedFiles y = Session.uploadedFiles x
  ∧ State.executionResult (Session.editor y)
    = match response with
      | Executed result => Some result
      | ExecuteThrows _ => None
      end
  ∧ length (State.alerts (Session.editor y))
    = S (length (State.alerts (Session.editor x))).
Proof.
  intros Hid Hfiles y. unfold y, executeWorkflow, executeWorkflow_request.
  rewrite Hid, decide_False by done. cbn.
  destruct response; cbn; rewrite length_app; cbn; split_and!; try done; lia.
Qed.

Lemma executeWorkflow_sent_witness :
  let x := Session.on_editor (State.setWorkflowId (Some "wf-9"))
             (Session.setUploadedFiles [File.mk "a.pdf" "application/pdf"]
                Session.start) in
  let result := ExecutionResult.mk false [] (Some "boom") in
  Session.isExecuting (executeWorkflow (Executed result) x) = false
  ∧ State.executionResult (Session.editor (executeWorkflow (Executed result) x))
    = Some result
  ∧ State.alerts (Session.editor (executeWorkflow (Executed result) x))
    = ["執行失敗：boom"].
Proof.
  cbv zeta.
  pose proof (executeWorkflow_sent
    (Executed (ExecutionResult.mk false [] (Some "boom")))
    (Session.on_editor (State.setWorkflowId (Some "wf-9"))
       (Session.setUploadedFiles [File.mk "a.pdf" "application/pdf"]
          Session.start))
    "wf-9" eq_refl) as H.
  destruct H as (_ & _ & Hbusy & _ & _ & _ & _ & _ & _ & Hres & _); [done|].
  split; [exact Hbusy|]. split; [exact Hres|reflexivity].
Defined.

(** X17: clearing a canvas that holds nodes does nothing unless the user
    confirms; a confirmed clear, or a clear of a canvas without nodes,
    leaves no node, no edge, no selection, no result, no file and no
    workflow id, so that the next save creates a new workflow and the next
    run is refused until that save. *)
Theorem clearCanvas_resets confirmed response x :
  (State.nodes (Session.editor x) ≠ [] → clearCanvas false x = x)
  ∧ (State.nodes (Session.editor x) = [] ∨ confirmed = true →
     let y := clearCanvas confirmed x in
     State.nodes (Session.editor y) = []
     ∧ State.edges (Session.editor y) = []
     ∧ State.selectedNode (Session.editor y) = None
     ∧ State.executionResult (Session.editor y) = None
     ∧ State.workflowName (Session.editor y) = "新工作流"
     ∧ Session.uploadedFiles y = []
     ∧ Workflow.id (saveWorkflow_payload (Session.editor y)) = None
     ∧ executeWorkflow response y
       = Session.on_editor (State.alert "請先儲存工作流") y).
Proof.
  unfold clearCanvas. split.
  - intros Hnodes. by rewrite bool_decide_eq_false_2.
  - intros Hclear.
    assert (negb (bool_decide (State.nodes (Session.editor x) = []))
            && negb confirmed = false) as ->.
    { destruct Hclear as [Hnil| ->].
      - by rewrite bool_decide_eq_true_2.
      - by rewrite andb_false_r. }
    cbn. split_and!; done.
Qed.

Lemma clearCanvas_resets_witness :
  let x := Session.on_editor
             (State.setWorkflowId (Some "wf-9"))
             (Session.on_editor
                (onDrop "pdf_merge" "合併 PDF" "pdf" (Some (0, 0)) 40 50 1700000000000)
                Session.start) in
  clearCanvas false x = x
  ∧ State.nodes (Session.editor (clearCanvas true x)) = []
  ∧ Workflow.id (saveWorkflow_payload (Session.editor (clearCanvas true x)))
    = None.
Proof.
  cbv zeta.
  destruct (clearCanvas_resets true (ExecuteThrows "offline")
    (Session.on_editor
       (State.setWorkflowId (Some "wf-9"))
       (Session.on_editor
          (onDrop "pdf_merge" "合併 PDF" "pdf" (Some (0, 0)) 40 50 1700000000000)
          Session.start))) as [Hkeep Hclear].
  split; [apply Hkeep; discriminate|].
  destruct Hclear as (Hn & _ & _ & _ & _ & _ & Hid & _); [by right|].
  split; [exact Hn|exact Hid].
Defined.

(** X18: saving never touches the graph.  When the service reports
    success with a non-empty id, the editor holds that id: the next save
    carries it, and a run with picked files is sent to it.  When the save
    fails, by answer or by exception, the held id stays and one alert is
    added. *)
Theorem saveWorkflow_outcome response s :
  State.nodes (saveWorkflow response s) = State.nodes s
  ∧ State.edges (saveWorkflow response s) = State.edges s
  ∧ (∀ workflow_id, response = SaveSuccess workflow_id → workflow_id ≠ "" →
       Workflow.id (saveWorkflow_payload (saveWorkflow response s))
       = Some workflow_id
       ∧ ∀ x, Session.editor x = saveWorkflow response s →
              Session.uploadedFiles x ≠ [] →
              (executeWorkflow_request x).2
              = Some (workflow_id, Session.uploadedFiles x))
  ∧ ((∀ workflow_id, response ≠ SaveSuccess workflow_id) →
     State.workflowId (saveWorkflow response s) = State.workflowId s
     ∧ length (State.alerts (saveWorkflow response s))
       = S (length (State.alerts s))).
Proof.
  split_and!.
  - by destruct response.
  - by destruct response.
  - intros workflow_id -> Hne. cbn. rewrite decide_False by done.
    split; [done|]. intros x Hx Hfiles. unfold executeWorkflow_request.
    rewrite Hx. cbn. by rewrite !decide_False.
  - intros Hfail. destruct response as [workflow_id| |]; cbn.
    + by destruct (Hfail workflow_id).
    + rewrite length_app. cbn. split; [done|lia].
    + rewrite length_app. cbn. split; [done|lia].
Qed.

(** ** The error message and its timers *)

(** X19: every rejected connection starts its own three-second timer, and
    any timer that runs clears whatever message is shown: after two
    rejections in a row the first timer removes the second message while
    the second timer is still pending. *)
Theorem connectionError_cleared_by_first_timer params1 params2 s a1 b1 a2 b2 :
  js_or (Connection.source params1) None = Some a1 →
  js_or (Connection.target params1) None = Some b1 →
  js_or (Connection.source params2) None = Some a2 →
  js_or (Connection.target params2) None = Some b2 →
  Validation.valid
    (validateConnection (State.nodes s) (State.edges s) a1 b1) = false →
  Validation.valid
    (validateConnection (State.nodes s) (State.edges s) a2 b2) = false →
  let s2 := onConnect params2 (onConnect params1 s) in
  State.connectionError s2
  = Validation.error (validateConnection (State.nodes s) (State.edges s) a2 b2)
  ∧ is_Some (State.connectionError s2)
  ∧ State.timeouts s2 = State.timeouts s ++ [3000; 3000]
  ∧ State.connectionError (onTimeout s2) = None
  ∧ last (State.timeouts (onTimeout s2)) = Some 3000.
Proof.
  intros H1s H1t H2s H2t Hv1 Hv2 s2. unfold s2.
  rewrite (onConnect_invalid _ _ _ _ H1s H1t Hv1).
  rewrite (onConnect_invalid _ _ _ _ H2s H2t) by done. cbn.
  destruct (validateConnection_invalid _ _ _ _ Hv2) as (msg & -> & _).
  rewrite <- app_assoc. cbn. split_and!; try done.
  destruct (State.timeouts s) as [|t ts]; cbn [app tail]; [reflexivity|].
  by rewrite last_app.
Qed.

Lemma connectionError_cleared_by_first_timer_witness :
  let a := node_at "save-1" "output_save" "儲存檔案" 0 0 in
  let b := node_at "merge-1" "pdf_merge" "合併 PDF" 250 0 in
  let s := state_of [a; b] [] in
  let s2 := onConnect (connection_of "merge-1" "merge-1")
              (onConnect (connection_of "save-1" "merge-1") s) in
  State.connectionError s2 = Some msg_self
  ∧ State.connectionError (onTimeout s2) = None
  ∧ State.timeouts (onTimeout s2) = [3000].
Proof.
  cbv zeta.
  pose proof (connectionError_cleared_by_first_timer
    (connection_of "save-1" "merge-1") (connection_of "merge-1" "merge-1")
    (state_of [node_at "save-1" "output_save" "儲存檔案" 0 0;
               node_at "merge-1" "pdf_merge" "合併 PDF" 250 0] [])
    "save-1" "merge-1" "merge-1" "merge-1"
    eq_refl eq_refl eq_refl eq_refl eq_refl eq_refl)
    as (Herr & _ & _ & Hclear & _).
  split; [rewrite Herr; reflexivity|]. split; [exact Hclear|reflexivity].
Defined.

(** ** Files handed over from the upload page *)

Lemma inputNodes_lookup files now index :
  inputNodes files now !! index
  = (λ file,
       Node.mk
         ("input_file-" +:+ pretty (now index) +:+ "-" +:+ pretty index)
         "workflowNode"
         (Pos.mk 100 (100 + Z.of_nat index * 120))
         (NodeData.mk (File.name file)
            (Some ("輸入檔案: " +:+ File.name file))
            (Some "input")
            (Some {[ "filename" := PString (File.name file) ]})
            (Some "input_file"))) <$> files !! index.
Proof. unfold inputNodes. apply list_lookup_imap. Qed.

Lemma inputNodes_nodeType files now n :
  n ∈ inputNodes files now → nodeType_of n = "input_file".
Proof.
  intros [index Hn]%list_elem_of_lookup. rewrite inputNodes_lookup in Hn.
  destruct (files !! index); [|done]. by injection Hn as <-.
Qed.

Lemma inputNodes_NoDup files now :
  NoDup (map Node.id (inputNodes files now)).
Proof.
  apply NoDup_alt. intros i j nid. rewrite !list_lookup_fmap, !inputNodes_lookup.
  destruct (files !! i); [|done]. destruct (files !! j); [|done]. cbn.
  intros [= <-] [= Heq].
  rewrite !append_nil_l in Heq.
  apply digits_dash_inj in Heq as [_ Heq]; [|apply pretty_N_digits..].
  symmetry. by apply (inj pretty).
Qed.

Lemma find_node_NoDup nodes k n :
  NoDup (map Node.id nodes) → nodes !! k = Some n →
  find_node (Node.id n) nodes = Some n.
Proof.
  unfold find_node. revert k.
  induction nodes as [|m ms IH]; intros k Hnd Hk; [done|].
  apply NoDup_cons in Hnd as [Hm Hnd]. cbn [List.find].
  destruct k as [|k]; cbn in Hk.
  - injection Hk as ->. by rewrite bool_decide_eq_true_2.
  - rewrite bool_decide_eq_false_2; [by apply (IH k)|].
    intros Heq. apply Hm. rewrite Heq.
    apply list_elem_of_fmap. exists n. split; [done|].
    apply list_elem_of_lookup. by exists k.
Qed.

(** X20: the hand-over builds one node per file, with pairwise different
    ids whatever the clock returns, even the same instant for all: every
    id resolves to the node of its own file. *)
Theorem inputNodes_ids_distinct files now :
  length (inputNodes files now) = length files
  ∧ NoDup (map Node.id (inputNodes files now))
  ∧ ∀ k n, inputNodes files now !! k = Some n →
      find_node (Node.id n) (inputNodes files now) = Some n
      ∧ (File.name <$> files !! k) = Some (label_of n).
Proof.
  split_and!.
  - unfold inputNodes. apply length_imap.
  - apply inputNodes_NoDup.
  - intros k n Hk. split.
    + by apply (find_node_NoDup _ k); [apply inputNodes_NoDup|].
    + rewrite inputNodes_lookup in Hk.
      destruct (files !! k); [|done]. by injection Hk as <-.
Qed.

(** X21: handed-over files are sources only: no connection between two of
    the nodes built for them is ever accepted. *)
Theorem inputNodes_not_connectable files now edges source target :
  Validation.valid
    (validateConnection (inputNodes files now) edges source target) = false.
Proof.
  destruct (find_node source (inputNodes files now)) as [sn|] eqn:Hs; cycle 1.
  { by rewrite validateConnection_not_found by (by left). }
  destruct (find_node target (inputNodes files now)) as [tn|] eqn:Ht; cycle 1.
  { by rewrite validateConnection_not_found by (by right). }
  rewrite (validateConnection_found _ _ _ _ _ _ Hs Ht).
  apply first_failing_valid_false. unfold checks_in_order.
  apply Exists_cons_tl, Exists_cons_hd. cbn.
  unfold target_blocked.
  by rewrite (inputNodes_nodeType _ _ _ (find_node_elem _ _ _ Ht)).
Qed.

Lemma set_of_array_NoDup_id l : NoDup l → set_of_array l = l.
Proof.
  induction l as [|x l IH] using rev_ind; [reflexivity|].
  intros (Hl & Hx & _)%NoDup_app. rewrite set_of_array_snoc, IH by done.
  rewrite decide_False; [done|]. intros Hin. apply (Hx x Hin). left.
Qed.

Lemma nextLevel_of_no_edges visited currentLevel :
  nextLevel_of [] visited currentLevel = [].
Proof.
  unfold nextLevel_of. induction currentLevel as [|c cs IH]; [done|]. apply IH.
Qed.

Lemma add_unconnected_all_visited nodes visited levels :
  (∀ n, n ∈ nodes → Node.id n ∈ visited) →
  add_unconnected nodes (visited, levels) = (visited, levels).
Proof.
  unfold add_unconnected. induction nodes as [|n ns IH]; intros Hall; [done|].
  cbn. rewrite decide_True by (apply Hall; left).
  apply IH. intros m Hm. apply Hall. by right.
Qed.

Lemma levels_of_inputNodes files now :
  files ≠ [] →
  levels_of (inputNodes files now) [] = [map Node.id (inputNodes files now)].
Proof.
  intros Hfiles. unfold levels_of, inputNodeIds.
  assert (List.filter (is_input_node []) (inputNodes files now)
          = inputNodes files now) as ->.
  { assert (∀ n, n ∈ inputNodes files now → is_input_node [] n = true) as Hall.
    { intros n Hn. unfold is_input_node. by rewrite (inputNodes_nodeType _ _ _ Hn). }
    induction (inputNodes files now) as [|n ns IH]; [done|]. cbn.
    rewrite (Hall n) by left. f_equal. apply IH. intros m Hm. apply Hall.
    by right. }
  rewrite set_of_array_NoDup_id by apply inputNodes_NoDup.
  destruct (map Node.id (inputNodes files now)) as [|c cs] eqn:Hids.
  { apply fmap_nil_inv in Hids. unfold inputNodes in Hids.
    destruct files; [done|discriminate]. }
  simp bfs. rewrite nextLevel_of_no_edges. simp bfs.
  rewrite add_unconnected_all_visited; [done|].
  intros n Hn. apply elem_of_union_r, elem_of_list_to_set. rewrite <- Hids.
  by apply list_elem_of_fmap_2.
Qed.

(** X22: auto-arrange leaves the canvas of a page mounted with handed-over
    files exactly as the hand-over laid it out. *)
Theorem onMount_layout_arranged files now :
  let x := onMount (Some "upload") (HandoffFiles files) now Session.start in
  autoArrangeNodes (Session.editor x) = Session.editor x.
Proof.
  cbv zeta. unfold onMount. rewrite decide_True by done.
  case_decide as Hfiles; [done|].
  assert (map (λ n, Node.with_position
                      (default (Node.position n)
                         (newPositions_of (levels_of (inputNodes files now) [])
                          !! Node.id n)) n)
              (inputNodes files now)
          = inputNodes files now) as Hsame.
  { rewrite levels_of_inputNodes by done.
    apply list_eq. intros i. rewrite list_lookup_fmap.
    destruct (inputNodes files now !! i) as [n|] eqn:Hn; [|done]. cbn [fmap option_fmap option_map].
    f_equal.
    rewrite (newPositions_of_lookup _ 0 (map Node.id (inputNodes files now)) i
               (Node.id n)); cycle 1.
    - cbn. rewrite app_nil_r. apply inputNodes_NoDup.
    - done.
    - by rewrite list_lookup_fmap, Hn.
    - rewrite inputNodes_lookup in Hn. destruct (files !! i); [|done].
      by injection Hn as <-. }
  unfold autoArrangeNodes.
  cbn [Session.editor Session.on_editor Session.setUploadedFiles
       Session.setFromUpload Session.start State.nodes State.edges
       State.setNodes State.initial].
  case_bool_decide as Hnil; [done|].
  unfold State.setNodes.
  cbn [State.nodes State.edges State.selectedNode State.connectionError
       State.timeouts State.workflowName State.workflowId State.showLoadModal
       State.executionResult State.alerts].
  by rewrite Hsame.
Qed.

(** ** Auto-arrange: the columns follow the edges *)

Lemma push_target_mono visited (es : list Edge.t) (acc : list string) t :
  t ∈ acc → t ∈ fold_left (push_target visited) es acc.
Proof.
  revert acc. induction es as [|e es IH]; intros acc Ht; [done|]. cbn.
  apply IH. unfold push_target. case_decide; [|done]. apply elem_of_app. by left.
Qed.

Lemma push_target_complete visited (es : list Edge.t) (acc : list string) e :
  e ∈ es →
  Edge.target e ∈ visited
  ∨ Edge.target e ∈ fold_left (push_target visited) es acc.
Proof.
  revert acc. induction es as [|e' es IH]; intros acc He.
  - by apply elem_of_nil in He.
  - cbn. apply elem_of_cons in He as [->|He]; [|by apply IH].
    destruct (decide (Edge.target e' ∈ visited)) as [Hv|Hv]; [by left|].
    right. apply push_target_mono. unfold push_target.
    case_decide as Hd.
    + apply elem_of_app. right. left.
    + destruct (decide (Edge.target e' ∈ acc)); [done|]. by destruct Hd.
Qed.

Lemma push_target_origin visited (es : list Edge.t) (acc : list string) t :
  t ∈ fold_left (push_target visited) es acc →
  t ∈ acc ∨ ∃ e, e ∈ es ∧ Edge.target e = t.
Proof.
  revert acc. induction es as [|e es IH]; intros acc Ht; [by left|].
  cbn in Ht. apply IH in Ht as [Ht|(e' & He' & <-)].
  - unfold push_target in Ht. case_decide; [|by left].
    apply elem_of_app in Ht as [Ht| ->%list_elem_of_singleton]; [by left|].
    right. exists e. split; [left|done].
  - right. exists e'. split; [by right|done].
Qed.

Lemma nextLevel_of_complete edges visited currentLevel e :
  e ∈ edges → Edge.source e ∈ currentLevel →
  Edge.target e ∈ visited
  ∨ Edge.target e ∈ nextLevel_of edges visited currentLevel.
Proof.
  intros He. unfold nextLevel_of. generalize (@nil string).
  induction currentLevel as [|c cs IH]; intros acc Hsrc.
  - by apply elem_of_nil in Hsrc.
  - cbn. apply elem_of_cons in Hsrc as [Hc|Hsrc]; [|by apply IH].
    destruct (push_target_complete visited
                (filter (λ e0, Edge.source e0 = c) edges) acc e) as [?|Hin].
    { by apply list_elem_of_filter. }
    { by left. }
    right. clear IH. revert Hin.
    generalize (fold_left (push_target visited)
                  (filter (λ e0, Edge.source e0 = c) edges) acc).
    induction cs as [|c' cs IH]; intros acc' Hin; [done|]. cbn.
    by apply IH, push_target_mono.
Qed.

Lemma nextLevel_of_origin edges visited currentLevel t :
  t ∈ nextLevel_of edges visited currentLevel →
  ∃ e, e ∈ edges ∧ Edge.source e ∈ currentLevel ∧ Edge.target e = t.
Proof.
  unfold nextLevel_of.
  assert (∀ acc : list string,
    t ∈ fold_left
          (λ nextLevel nodeId,
             fold_left (push_target visited)
               (filter (λ e, Edge.source e = nodeId) edges) nextLevel)
          currentLevel acc →
    t ∈ acc
    ∨ ∃ e, e ∈ edges ∧ Edge.source e ∈ currentLevel ∧ Edge.target e = t) as H.
  { induction currentLevel as [|c cs IH]; intros acc Ht; [by left|].
    cbn in Ht. apply IH in Ht as [Ht|(e & He & Hs & <-)].
    - apply push_target_origin in Ht as [?|(e & [Hs He]%list_elem_of_filter & <-)];
        [by left|].
      right. exists e. split_and!; [done| |done]. rewrite Hs. left.
    - right. exists e. split_and!; [done|by right|done]. }
  intros Ht. destruct (H [] Ht) as [Hnil|?]; [|done].
  by apply elem_of_nil in Hnil.
Qed.

Lemma lookup_snoc_Some {A} (l : list A) (x y : A) j :
  (l ++ [x]) !! j = Some y → l !! j = Some y ∨ (j = length l ∧ y = x).
Proof.
  intros H. destruct (decide (j < length l)%nat) as [Hlt|Hge].
  - left. by rewrite lookup_app_l in H.
  - right. rewrite lookup_app_r in H by lia.
    destruct (j - length l)%nat as [|k] eqn:Hk; [|done].
    injection H as <-. split; [lia|done].
Qed.

Lemma elem_of_concat_lookup (levels : list (list string)) v :
  v ∈ concat levels ↔ ∃ i level, levels !! i = Some level ∧ v ∈ level.
Proof.
  rewrite list_elem_of_In, in_concat. split.
  - intros (level & [i Hi]%list_elem_of_In%list_elem_of_lookup & Hv%list_elem_of_In).
    by exists i, level.
  - intros (i & level & Hi & Hv). exists level. split.
    + apply list_elem_of_In, list_elem_of_lookup. by exists i.
    + by apply list_elem_of_In.
Qed.

Lemma bfs_structure roots edges visited levels currentLevel :
  bfs_invariant roots edges visited levels currentLevel →
  bfs_result roots edges levels currentLevel
    (bfs edges visited levels currentLevel).2.
Proof.
  funelim (bfs edges visited levels currentLevel); simp bfs.
  - intros (Hvis & Hspan & Hpred & _ & Hsound). cbn. split_and!; try done.
    + intros i level e Hi He Hsrc.
      destruct (Hspan i level e Hi He Hsrc) as (j & level' & Hj & Hl & Ht).
      apply lookup_snoc_Some in Hl as [Hl|[_ ->]]; [by exists j, level'|].
      by apply elem_of_nil in Ht.
    + intros v Hv. apply Hsound. by left.
  - intros (Hvis & Hspan & Hpred & Hcur & Hsound).
    match goal with IH : ∀ r, bfs_invariant r _ _ _ _ → _ |- _ =>
      destruct (IH roots) as (Hpre & Hnext & Hspan' & Hpred' & Hsound') end.
    { split_and!.
      - intros x. rewrite elem_of_union, elem_of_list_to_set, Hvis, concat_app.
        cbn. rewrite app_nil_r, elem_of_app. done.
      - intros i level e Hi He Hsrc.
        apply lookup_snoc_Some in Hi as [Hi|[-> ->]].
        + destruct (Hspan i level e Hi He Hsrc) as (j & level' & Hj & Hl & Ht).
          exists j, level'. split_and!; [done| |done].
          by apply lookup_app_l_Some.
        + destruct (nextLevel_of_complete edges
                      (visited ∪ list_to_set (c :: cs)) (c :: cs) e He Hsrc)
            as [Hv|Hn].
          * apply elem_of_union in Hv as [Hv|Hv].
            -- apply Hvis, elem_of_concat_lookup in Hv as (j & level' & Hj & Hv).
               exists j, level'. split_and!; [|by do 2 apply lookup_app_l_Some|done].
               apply lookup_lt_Some in Hj. lia.
            -- exists (length levels), (c :: cs). split_and!; [lia| |].
               ++ apply lookup_app_l_Some. by rewrite list_lookup_middle.
               ++ by apply elem_of_list_to_set in Hv.
          * exists (S (length levels)), (nextLevel_of edges
              (visited ∪ list_to_set (c :: cs)) (c :: cs)).
            split_and!; [done| |done].
            rewrite list_lookup_middle; [done|]. rewrite length_app. cbn. lia.
      - intros i level v Hi Hv.
        apply lookup_snoc_Some in Hi as [Hi|[Hlen ->]].
        + destruct (Hpred i level v Hi Hv) as (e & level0 & He & Hl & Hs & Ht).
          exists e, level0. split_and!; try done. by apply lookup_app_l_Some.
        + destruct (Hcur v Hv) as [->|(e & level0 & He & Hl & Hs & Ht)];
            [done|].
          exists e, level0. split_and!; try done. apply lookup_app_l_Some.
          rewrite last_lookup in Hl. by rewrite <- Hlen in Hl.
      - intros v Hv. right.
        destruct (nextLevel_of_origin _ _ _ _ Hv) as (e & He & Hs & Ht).
        exists e, (c :: cs). split_and!; try done. apply last_snoc.
      - intros v [Hv|Hv].
        + apply Hsound. rewrite concat_app in Hv. cbn in Hv.
          rewrite app_nil_r in Hv. by apply elem_of_app in Hv.
        + destruct (nextLevel_of_origin _ _ _ _ Hv) as (e & He & Hs & <-).
          apply reachable_step; [|done]. apply Hsound. by right. }
    split_and!; try done.
    + intros i level Hi. by apply Hpre, lookup_app_l_Some.
    + intros _. apply Hpre. by rewrite list_lookup_middle.
Qed.

Lemma bfs_from_roots roots edges :
  bfs_result roots edges [] roots (bfs edges ∅ [] roots).2.
Proof.
  apply bfs_structure. split_and!; try done.
  - intros x. cbn. split; [intros H; by apply not_elem_of_empty in H|].
    intros H. by apply elem_of_nil in H.
  - intros v _. by left.
  - intros v [Hv|Hv]; [by apply elem_of_nil in Hv|by apply reachable_root].
Qed.

(** Every reachable id sits in a level of the traversal. *)
Lemma bfs_reaches roots edges v :
  reachable roots edges v →
  ∃ i level, (bfs edges ∅ [] roots).2 !! i = Some level ∧ v ∈ level.
Proof.
  destruct (bfs_from_roots roots edges) as (_ & Hroots & Hspan & _).
  induction 1 as [r Hr|e _ (i & level & Hi & Hs) He].
  - exists 0%nat, roots. split; [|done]. apply Hroots. intros ->.
    by apply elem_of_nil in Hr.
  - destruct (Hspan i level e Hi He Hs) as (j & level' & _ & Hj & Ht).
    by exists j, level'.
Qed.

Lemma add_unconnected_extends nodes acc :
  ∃ singles, (add_unconnected nodes acc).2 = acc.2 ++ singles.
Proof.
  unfold add_unconnected. revert acc.
  induction nodes as [|n ns IH]; intros [visited levels].
  - exists []. by rewrite app_nil_r.
  - cbn [fold_left]. case_decide; [apply IH|].
    destruct (IH (visited ∪ {[Node.id n]}, levels ++ [[Node.id n]]))
      as [singles ->].
    exists ([Node.id n] :: singles). cbn. by rewrite <- app_assoc.
Qed.

(** The levels of the traversal keep their index in the final levels. *)
Lemma levels_of_traversal nodes edges i level :
  (bfs edges ∅ [] (inputNodeIds nodes edges)).2 !! i = Some level →
  levels_of nodes edges !! i = Some level.
Proof.
  intros Hi. unfold levels_of.
  destruct (add_unconnected_extends nodes
              (bfs edges ∅ [] (inputNodeIds nodes edges))) as [singles ->].
  by apply lookup_app_l_Some.
Qed.

Lemma newPositions_of_domain levels nid p :
  newPositions_of levels !! nid = Some p → nid ∈ concat levels.
Proof.
  intros Hp. destruct (decide (nid ∈ concat levels)) as [|Hnot]; [done|].
  unfold newPositions_of in Hp. by rewrite newPositions_miss in Hp.
Qed.

Lemma levels_of_roots nodes edges :
  inputNodeIds nodes edges ≠ [] →
  levels_of nodes edges !! 0%nat = Some (inputNodeIds nodes edges).
Proof.
  intros Hroots. apply levels_of_traversal.
  destruct (bfs_from_roots (inputNodeIds nodes edges) edges) as (_ & H & _).
  by apply H.
Qed.

(** X23: the first column holds the roots and, when there is a root,
    nothing else: every node of an input type and every node without an
    incoming edge is a root; the roots are stacked from the start corner in
    the order of the node list; an id in the first column is a root. *)
Theorem autoArrange_first_column nodes edges :
  let roots := inputNodeIds nodes edges in
  let arranged := newPositions_of (levels_of nodes edges) in
  (∀ n, n ∈ nodes → is_input_node edges n = true → Node.id n ∈ roots)
  ∧ (∀ k r, roots !! k = Some r →
       arranged !! r
       = Some (Pos.mk START_X (START_Y + Z.of_nat k * VERTICAL_GAP)))
  ∧ (roots ≠ [] →
     ∀ nid p, arranged !! nid = Some p → Pos.x p = START_X → nid ∈ roots).
Proof.
  intros roots arranged.
  destruct (levels_of_partition nodes edges) as [Hnd _]. split_and!.
  - intros n Hn Hroot. unfold roots, inputNodeIds.
    apply set_of_array_elem, list_elem_of_fmap. exists n. split; [done|].
    apply list_elem_of_In, filter_In. split; [by apply list_elem_of_In|done].
  - intros k r Hk.
    assert (roots ≠ []) as Hne by (intros Hnil; by rewrite Hnil in Hk).
    unfold arranged.
    by rewrite (newPositions_of_lookup _ 0 roots k r Hnd
                  (levels_of_roots nodes edges Hne) Hk).
  - intros Hne nid p Hp Hx.
    pose proof (newPositions_of_domain _ _ _ Hp) as Hin.
    apply elem_of_concat_lookup in Hin as (i & level & Hi & Hin).
    apply list_elem_of_lookup in Hin as [j Hj].
    unfold arranged in Hp.
    rewrite (newPositions_of_lookup _ i level j nid Hnd Hi Hj) in Hp.
    injection Hp as <-. cbn in Hx. unfold HORIZONTAL_GAP in Hx.
    assert (i = 0%nat) as -> by lia.
    rewrite (levels_of_roots nodes edges Hne) in Hi. injection Hi as <-.
    apply list_elem_of_lookup. by exists j.
Qed.

Lemma traversal_position nodes edges i level v :
  (bfs edges ∅ [] (inputNodeIds nodes edges)).2 !! i = Some level →
  v ∈ level →
  ∃ j, newPositions_of (levels_of nodes edges) !! v
       = Some (Pos.mk (START_X + Z.of_nat i * HORIZONTAL_GAP)
                      (START_Y + Z.of_nat j * VERTICAL_GAP)).
Proof.
  intros Hi [j Hj]%list_elem_of_lookup. exists j.
  destruct (levels_of_partition nodes edges) as [Hnd _].
  apply (newPositions_of_lookup _ i level j v Hnd); [|done].
  by apply levels_of_traversal.
Qed.

(** X24: along the edges that leave a node reachable from a root the
    layout advances by at most one column: the target of such an edge is
    placed no further right than one horizontal gap from its source. *)
Theorem autoArrange_edge_span nodes edges e :
  let roots := inputNodeIds nodes edges in
  let arranged := newPositions_of (levels_of nodes edges) in
  e ∈ edges → reachable roots edges (Edge.source e) →
  ∃ ps pt,
    arranged !! Edge.source e = Some ps
    ∧ arranged !! Edge.target e = Some pt
    ∧ Pos.x pt ≤ Pos.x ps + HORIZONTAL_GAP.
Proof.
  intros roots arranged He Hreach.
  destruct (bfs_reaches _ _ _ Hreach) as (i & level & Hi & Hs).
  destruct (bfs_from_roots roots edges) as (_ & _ & Hspan & _).
  destruct (Hspan i level e Hi He Hs) as (j & level' & Hj & Hl & Ht).
  destruct (traversal_position nodes edges i level _ Hi Hs) as [k Hps].
  destruct (traversal_position nodes edges j level' _ Hl Ht) as [k' Hpt].
  eexists _, _. split_and!; [exact Hps|exact Hpt|].
  cbn. unfold HORIZONTAL_GAP. lia.
Qed.

Lemma autoArrange_edge_span_witness :
  let nodes := [ node_at "A" "input_file" "in" 0 0;
                 node_at "B" "pdf_merge" "merge" 0 0;
                 node_at "C" "output_download" "out" 0 0 ] in
  let edges := [edge_of "A" "B"; edge_of "B" "C"; edge_of "A" "C"] in
  let arranged := newPositions_of (levels_of nodes edges) in
  reachable (inputNodeIds nodes edges) edges "B"
  ∧ ∃ ps pt,
      arranged !! "B" = Some ps ∧ arranged !! "C" = Some pt
      ∧ Pos.x pt ≤ Pos.x ps + HORIZONTAL_GAP.
Proof.
  cbv zeta.
  assert (reachable
            (inputNodeIds
               [ node_at "A" "input_file" "in" 0 0;
                 node_at "B" "pdf_merge" "merge" 0 0;
                 node_at "C" "output_download" "out" 0 0 ]
               [edge_of "A" "B"; edge_of "B" "C"; edge_of "A" "C"])
            [edge_of "A" "B"; edge_of "B" "C"; edge_of "A" "C"] "B") as Hreach.
  { apply (reachable_step _ _ (edge_of "A" "B")).
    - apply reachable_root. vm_compute. left.
    - left. }
  split; [exact Hreach|].
  apply (autoArrange_edge_span _ _ (edge_of "B" "C")); [|exact Hreach].
  right. left.
Defined.

(** X25: every id that is reachable from a root without being one is
    placed exactly one column to the right of the source of one of its
    incoming edges, a source that is reachable itself: the traversal leaves
    no column empty between a node and its nearest predecessor. *)
Theorem autoArrange_column_predecessor nodes edges v :
  let roots := inputNodeIds nodes edges in
  let arranged := newPositions_of (levels_of nodes edges) in
  reachable roots edges v → v ∉ roots →
  ∃ e ps pv,
    e ∈ edges ∧ Edge.target e = v
    ∧ reachable roots edges (Edge.source e)
    ∧ arranged !! Edge.source e = Some ps
    ∧ arranged !! v = Some pv
    ∧ Pos.x pv = Pos.x ps + HORIZONTAL_GAP.
Proof.
  intros roots arranged Hreach Hnot.
  destruct (bfs_reaches _ _ _ Hreach) as (i & level & Hi & Hv).
  destruct (bfs_from_roots roots edges) as (_ & Hroots & _ & Hpred & Hsound).
  destruct i as [|i].
  { destruct (decide (roots = [])) as [Hnil|Hne].
    - clear Hroots Hpred Hsound. subst roots. rewrite Hnil in Hi.
      by simp bfs in Hi.
    - specialize (Hroots Hne). cbn [length] in Hroots.
      rewrite Hroots in Hi. by injection Hi as <-. }
  destruct (Hpred i level v Hi Hv) as (e & level0 & He & Hl & Hs & Ht).
  destruct (traversal_position nodes edges i level0 _ Hl Hs) as [k Hps].
  destruct (traversal_position nodes edges (S i) level _ Hi Hv) as [k' Hpv].
  exists e. eexists _, _. split_and!; [done|done| |exact Hps|exact Hpv|].
  - apply Hsound, elem_of_concat_lookup. by exists i, level0.
  - cbn. unfold HORIZONTAL_GAP. lia.
Qed.

Lemma autoArrange_column_predecessor_witness :
  let nodes := [ node_at "A" "input_file" "in" 0 0;
                 node_at "B" "pdf_merge" "merge" 0 0;
                 node_at "C" "output_download" "out" 0 0 ] in
  let edges := [edge_of "A" "B"; edge_of "B" "C"; edge_of "A" "C"] in
  let roots := inputNodeIds nodes edges in
  let arranged := newPositions_of (levels_of nodes edges) in
  reachable roots edges "C" ∧ ("C" ∉ roots)
  ∧ ∃ e ps pv,
      e ∈ edges ∧ Edge.target e = "C"
      ∧ reachable roots edges (Edge.source e)
      ∧ arranged !! Edge.source e = Some ps
      ∧ arranged !! "C" = Some pv
      ∧ Pos.x pv = Pos.x ps + HORIZONTAL_GAP.
Proof.
  cbv zeta.
  assert (reachable
            (inputNodeIds
               [ node_at "A" "input_file" "in" 0 0;
                 node_at "B" "pdf_merge" "merge" 0 0;
                 node_at "C" "output_download" "out" 0 0 ]
               [edge_of "A" "B"; edge_of "B" "C"; edge_of "A" "C"])
            [edge_of "A" "B"; edge_of "B" "C"; edge_of "A" "C"] "C") as Hreach.
  { apply (reachable_step _ _ (edge_of "A" "C")).
    - apply reachable_root. vm_compute. left.
    - right. right. left. }
  assert ("C" ∉ inputNodeIds
               [ node_at "A" "input_file" "in" 0 0;
                 node_at "B" "pdf_merge" "merge" 0 0;
                 node_at "C" "output_download" "out" 0 0 ]
               [edge_of "A" "B"; edge_of "B" "C"; edge_of "A" "C"]) as Hnot.
  { vm_compute. intros Hin. apply list_elem_of_singleton in Hin. discriminate. }
  split_and!; [exact Hreach|exact Hnot|].
  exact (autoArrange_column_predecessor _ _ "C" Hreach Hnot).
Defined.

Lemma add_unconnected_singles nodes acc :
  ∃ singles,
    (add_unconnected nodes acc).2 = acc.2 ++ singles
    ∧ Forall (λ level, ∃ n, n ∈ nodes ∧ level = [Node.id n]) singles.
Proof.
  unfold add_unconnected. revert acc.
  induction nodes as [|n ns IH]; intros [visited levels].
  - exists []. by rewrite app_nil_r.
  - cbn [fold_left]. case_decide.
    + destruct (IH (visited, levels)) as (singles & -> & Hall).
      exists singles. split; [done|].
      eapply Forall_impl; [exact Hall|]. intros level (m & Hm & ->).
      exists m. split; [by right|done].
    + destruct (IH (visited ∪ {[Node.id n]}, levels ++ [[Node.id n]]))
        as (singles & -> & Hall).
      exists ([Node.id n] :: singles). cbn. rewrite <- app_assoc.
      split; [done|]. constructor.
      * exists n. split; [left|done].
      * eapply Forall_impl; [exact Hall|]. intros level (m & Hm & ->).
        exists m. split; [by right|done].
Qed.

(** X26: a node that cannot be reached from any root gets a column of its
    own, after the columns of the traversal, and sits at the start height
    of that column. *)
Theorem autoArrange_unreachable_alone nodes edges n :
  let roots := inputNodeIds nodes edges in
  n ∈ nodes → ¬ reachable roots edges (Node.id n) →
  ∃ i,
    levels_of nodes edges !! i = Some [Node.id n]
    ∧ (length (bfs edges ∅ [] roots).2 ≤ i)%nat
    ∧ newPositions_of (levels_of nodes edges) !! Node.id n
      = Some (Pos.mk (START_X + Z.of_nat i * HORIZONTAL_GAP) START_Y).
Proof.
  intros roots Hn Hnot.
  destruct (levels_of_partition nodes edges) as [Hnd Hall].
  pose proof (Hall n Hn) as Hin.
  apply elem_of_concat_lookup in Hin as (i & level & Hi & Hin).
  destruct (bfs_from_roots roots edges) as (_ & _ & _ & _ & Hsound).
  destruct (add_unconnected_singles nodes (bfs edges ∅ [] roots))
    as (singles & Hlevels & Hsingles).
  fold roots in Hlevels. pose proof Hi as Hi'.
  unfold levels_of in Hi'. fold roots in Hi'. rewrite Hlevels in Hi'.
  apply lookup_app_Some in Hi' as [Hbl|[Hlen Hsing]].
  { destruct Hnot. apply Hsound, elem_of_concat_lookup. by exists i, level. }
  rewrite list.Forall_forall in Hsingles.
  destruct (Hsingles level) as (m & _ & ->).
  { apply list_elem_of_lookup. eauto. }
  apply list_elem_of_singleton in Hin. rewrite <- Hin in *.
  exists i. split_and!; [done|done|].
  rewrite (newPositions_of_lookup _ i [Node.id n] 0 (Node.id n) Hnd Hi eq_refl).
  f_equal.
Qed.

Lemma autoArrange_unreachable_alone_witness :
  let nodes := [ node_at "A" "input_file" "in" 0 0;
                 node_at "X" "pdf_merge" "merge" 0 0;
                 node_at "Y" "pdf_merge" "merge" 0 0 ] in
  let edges := [edge_of "X" "Y"; edge_of "Y" "X"] in
  ¬ reachable (inputNodeIds nodes edges) edges "Y"
  ∧ ∃ i,
      levels_of nodes edges !! i = Some ["Y"]
      ∧ (length (bfs edges ∅ [] (inputNodeIds nodes edges)).2 ≤ i)%nat
      ∧ newPositions_of (levels_of nodes edges) !! "Y"
        = Some (Pos.mk (START_X + Z.of_nat i * HORIZONTAL_GAP) START_Y).
Proof.
  cbv zeta.
  assert (∀ v, reachable
            (inputNodeIds
               [ node_at "A" "input_file" "in" 0 0;
                 node_at "X" "pdf_merge" "merge" 0 0;
                 node_at "Y" "pdf_merge" "merge" 0 0 ]
               [edge_of "X" "Y"; edge_of "Y" "X"])
            [edge_of "X" "Y"; edge_of "Y" "X"] v → v = "A") as Honly.
  { intros v Hv. induction Hv as [r Hr|e _ IH He].
    - vm_compute in Hr. by apply list_elem_of_singleton in Hr.
    - apply elem_of_cons in He as [->|He]; [discriminate IH|].
      apply list_elem_of_singleton in He as ->. discriminate IH. }
  assert (¬ reachable
            (inputNodeIds
               [ node_at "A" "input_file" "in" 0 0;
                 node_at "X" "pdf_merge" "merge" 0 0;
                 node_at "Y" "pdf_merge" "merge" 0 0 ]
               [edge_of "X" "Y"; edge_of "Y" "X"])
            [edge_of "X" "Y"; edge_of "Y" "X"] "Y") as Hnot.
  { intros Hv. apply Honly in Hv. discriminate Hv. }
  split; [exact Hnot|].
  apply (autoArrange_unreachable_alone _ _ (node_at "Y" "pdf_merge" "merge" 0 0));
    [|exact Hnot].
  right. right. left.
Defined.
